(** * Echelon: privileged-access governance risk scoring

    A shallow embedding of the feature-engineering and risk-scoring pipeline
    ([scripts/run_feature_engineering.py] and the modules under
    [src/features/]) together with the properties its specification states.

    Numbers.  The pipeline computes on pandas/NumPy [float64] columns.
    Two models of these numbers are used.  In the first a value is an
    [f64]: an exact rational, or one of the three special values NaN, +inf
    and -inf, with the IEEE rules for the special values (0/0 = NaN,
    x/0 = +-inf, every comparison with NaN is false).  Rounding of finite
    results and the sign of zero are not modelled there; this model carries
    the properties that hold for every log: which rows a value is computed
    from, the fallbacks, the columns of the frame, the thresholds.  The
    second, the module [Binary64], runs the same column computations on
    binary64 numbers with the summation algorithms of pandas.  It settles
    what depends on rounding: over a role whose cells are all equal the
    deviation is exactly 0, but the compensated mean can differ from the
    cells in the last place, and the quotient is then an infinity where
    exact arithmetic has 0/0.

    Tables.  A pandas [DataFrame] is modelled by the typed rows of the
    cleaned event log (the ten raw columns of the input contract) plus an
    ordered association list of the derived columns, which the pipeline
    adds, reads and drops by name. *)

From Stdlib Require Import ZArith QArith Qabs String List Bool Lia Lra Lqa.
From Stdlib Require Uint63 PrimFloat.
Import ListNotations.

Local Open Scope Q_scope.

(* ================================================================== *)
(** ** Extended rationals standing for [float64] *)
(* ================================================================== *)

Inductive f64 : Type :=
| Fin (q : Q)
| NaN
| PInf
| NInf.

Definition of_Z (z : Z) : f64 := Fin (inject_Z z).
Definition of_nat (n : nat) : f64 := Fin (inject_Z (Z.of_nat n)).

Definition is_nan (x : f64) : bool :=
  match x with NaN => true | _ => false end.

(** Sign of a rational: the three-way comparison with zero. *)
Definition Qsgn (q : Q) : comparison := q ?= 0.

Definition f64_neg (x : f64) : f64 :=
  match x with
  | Fin q => Fin (- q)
  | NaN => NaN
  | PInf => NInf
  | NInf => PInf
  end.

Definition f64_add (x y : f64) : f64 :=
  match x, y with
  | NaN, _ | _, NaN => NaN
  | Fin a, Fin b => Fin (a + b)
  | PInf, NInf | NInf, PInf => NaN
  | PInf, _ | _, PInf => PInf
  | NInf, _ | _, NInf => NInf
  end.

Definition f64_sub (x y : f64) : f64 := f64_add x (f64_neg y).

Definition f64_mul (x y : f64) : f64 :=
  match x, y with
  | NaN, _ | _, NaN => NaN
  | Fin a, Fin b => Fin (a * b)
  | Fin a, PInf | PInf, Fin a =>
      match Qsgn a with Gt => PInf | Lt => NInf | Eq => NaN end
  | Fin a, NInf | NInf, Fin a =>
      match Qsgn a with Gt => NInf | Lt => PInf | Eq => NaN end
  | PInf, PInf | NInf, NInf => PInf
  | PInf, NInf | NInf, PInf => NaN
  end.

(** NumPy division: dividing by zero does not raise, it yields an infinity,
    or NaN for 0/0. *)
Definition f64_div (x y : f64) : f64 :=
  match x, y with
  | NaN, _ | _, NaN => NaN
  | Fin a, Fin b =>
      match Qsgn b with
      | Eq => match Qsgn a with Gt => PInf | Lt => NInf | Eq => NaN end
      | _ => Fin (a / b)
      end
  | Fin _, PInf | Fin _, NInf => Fin 0
  | PInf, Fin b => match Qsgn b with Lt => NInf | _ => PInf end
  | NInf, Fin b => match Qsgn b with Lt => PInf | _ => NInf end
  | PInf, PInf | PInf, NInf | NInf, PInf | NInf, NInf => NaN
  end.

(** Comparisons: false as soon as one side is NaN. *)
Definition f64_ltb (x y : f64) : bool :=
  match x, y with
  | NaN, _ | _, NaN => false
  | Fin a, Fin b => negb (Qle_bool b a)
  | NInf, NInf => false
  | NInf, _ => true
  | _, NInf => false
  | PInf, _ => false
  | Fin _, PInf => true
  end.

Definition f64_leb (x y : f64) : bool :=
  match x, y with
  | NaN, _ | _, NaN => false
  | Fin a, Fin b => Qle_bool a b
  | NInf, _ => true
  | _, PInf => true
  | _, NInf => false
  | PInf, _ => false
  end.

Definition f64_gtb (x y : f64) : bool := f64_ltb y x.

Definition f64_eqb (x y : f64) : bool :=
  match x, y with
  | Fin a, Fin b => Qeq_bool a b
  | PInf, PInf | NInf, NInf => true
  | _, _ => false
  end.

(** Equality of values up to the representation of the rational; NaN is
    related to NaN here (this is identity of values, not the [==] of
    Python, which [f64_eqb] models). *)
Definition f64_eq (x y : f64) : Prop :=
  match x, y with
  | Fin a, Fin b => a == b
  | NaN, NaN | PInf, PInf | NInf, NInf => True
  | _, _ => False
  end.

Infix "=f=" := f64_eq (at level 70, no associativity).

(** Square root.  The root of a rational square is exact; any other root is
    rounded down to a multiple of [1 / (d * 2^64)], [d] the reduced
    denominator, the way the machine root is a rounded one. *)
Definition sqrt_scale : positive := 18446744073709551616.

Definition Qsqrt (q : Q) : Q :=
  let r := Qred q in
  (Z.sqrt (Qnum r * Zpos (Qden r) * Zpos sqrt_scale * Zpos sqrt_scale))
    # (Qden r * sqrt_scale).

Definition f64_sqrt (x : f64) : f64 :=
  match x with
  | Fin q => match Qsgn q with Lt => NaN | _ => Fin (Qsqrt q) end
  | NaN => NaN
  | PInf => PInf
  | NInf => NaN
  end.

(* ================================================================== *)
(** ** pandas [Series] reductions (NaN skipped, as [skipna=True]) *)
(* ================================================================== *)

Definition Series := list f64.

Definition dropna (s : Series) : Series :=
  filter (fun x => negb (is_nan x)) s.

Definition total (xs : list f64) : f64 := fold_right f64_add (Fin 0) xs.

Definition series_sum (s : Series) : f64 := total (dropna s).

Definition series_mean (s : Series) : f64 :=
  match dropna s with
  | [] => NaN
  | xs => f64_div (total xs) (of_nat (length xs))
  end.

Definition sq_dev (m x : f64) : f64 := f64_mul (f64_sub x m) (f64_sub x m).

(** Sample variance, [ddof = 1]: NaN unless at least two values remain. *)
Definition series_var (s : Series) : f64 :=
  let xs := dropna s in
  if (length xs <=? 1)%nat then NaN
  else
    let m := f64_div (total xs) (of_nat (length xs)) in
    f64_div (total (map (sq_dev m) xs)) (of_nat (length xs - 1)).

Definition series_std (s : Series) : f64 := f64_sqrt (series_var s).

Definition f64_min (x y : f64) : f64 := if f64_ltb y x then y else x.
Definition f64_max (x y : f64) : f64 := if f64_ltb x y then y else x.

Definition series_min (s : Series) : f64 :=
  match dropna s with
  | [] => NaN
  | x :: xs => fold_left f64_min xs x
  end.

Definition series_max (s : Series) : f64 :=
  match dropna s with
  | [] => NaN
  | x :: xs => fold_left f64_max xs x
  end.

Definition fillna (v : f64) (s : Series) : Series :=
  map (fun x => if is_nan x then v else x) s.

(** [Series.clip(lower, upper)]: NaN is left alone. *)
Definition clip_value (lo hi x : f64) : f64 :=
  if f64_ltb x lo then lo else if f64_gtb x hi then hi else x.

Definition clip (lo hi : f64) (s : Series) : Series := map (clip_value lo hi) s.

Fixpoint zip_with {A B C} (f : A -> B -> C) (xs : list A) (ys : list B)
  : list C :=
  match xs, ys with
  | x :: xs', y :: ys' => f x y :: zip_with f xs' ys'
  | _, _ => []
  end.

(* ================================================================== *)
(** ** Group keys, [groupby] and [map] *)
(* ================================================================== *)

(** What a column must offer to serve as a group key: equality and the
    order in which pandas sorts the group index. *)
Class Key (K : Type) := {
  keqb : K -> K -> bool;
  kleb : K -> K -> bool;
  keqb_eq : forall a b, keqb a b = true <-> a = b
}.

#[export] Instance Key_string : Key string := {
  keqb := String.eqb;
  kleb := String.leb;
  keqb_eq := String.eqb_eq
}.

#[export] Instance Key_Z : Key Z := {
  keqb := Z.eqb;
  kleb := Z.leb;
  keqb_eq := Z.eqb_eq
}.

Lemma pair_eqb_eq {A B} `{Key A} `{Key B} (p q : A * B) :
  keqb (fst p) (fst q) && keqb (snd p) (snd q) = true <-> p = q.
Proof.
  destruct p as [a b], q as [c d]; simpl.
  rewrite andb_true_iff, !keqb_eq. split.
  - intros [-> ->]; reflexivity.
  - intros E; inversion E; auto.
Qed.

#[export] Instance Key_pair {A B} `{Key A} `{Key B} : Key (A * B) := {
  keqb p q := keqb (fst p) (fst q) && keqb (snd p) (snd q);
  kleb p q := if keqb (fst p) (fst q) then kleb (snd p) (snd q)
              else kleb (fst p) (fst q);
  keqb_eq := pair_eqb_eq
}.

Section GroupBy.
Context {K : Type} `{Key K}.

Fixpoint dedup (ks : list K) : list K :=
  match ks with
  | [] => []
  | k :: t => if existsb (keqb k) t then dedup t else k :: dedup t
  end.

Fixpoint insert_key (k : K) (ks : list K) : list K :=
  match ks with
  | [] => [k]
  | k' :: t => if kleb k k' then k :: ks else k' :: insert_key k t
  end.

Definition sort_keys (ks : list K) : list K :=
  fold_right insert_key [] ks.

(** The index of a grouped result: the distinct keys, sorted. *)
Definition group_index (keys : list K) : list K := sort_keys (dedup keys).

(** The values of the rows whose key is [k], in row order. *)
Fixpoint select {V} (k : K) (keys : list K) (vals : list V) : list V :=
  match keys, vals with
  | k' :: ks, v :: vs =>
      if keqb k' k then v :: select k ks vs else select k ks vs
  | _, _ => []
  end.

(** [df.groupby(keys)[col].agg(f)]: one entry per distinct key. *)
Definition groupby_agg {V R} (keys : list K) (vals : list V)
    (agg : list V -> R) : list (K * R) :=
  map (fun k => (k, agg (select k keys vals))) (group_index keys).

Fixpoint assoc {R} (k : K) (s : list (K * R)) : option R :=
  match s with
  | [] => None
  | (k', r) :: t => if keqb k' k then Some r else assoc k t
  end.

(** [keys.map(s)]: the entry of each row's key, NaN where there is none. *)
Definition series_map (keys : list K) (s : list (K * f64)) : Series :=
  map (fun k => match assoc k s with Some v => v | None => NaN end) keys.

(** [groupby(keys)[col].diff()]: each row minus the previous row of the
    same group, NaN on the first row of a group. *)
Fixpoint group_diff_from (prev : list (K * f64)) (keys : list K)
    (vals : Series) : Series :=
  match keys, vals with
  | k :: ks, v :: vs =>
      (match assoc k prev with Some p => f64_sub v p | None => NaN end)
        :: group_diff_from ((k, v) :: prev) ks vs
  | _, _ => []
  end.

Definition group_diff (keys : list K) (vals : Series) : Series :=
  group_diff_from [] keys vals.
End GroupBy.

(* ================================================================== *)
(** ** The event log and the data frame *)
(* ================================================================== *)

(** A parsed timestamp, seen through the [.dt] accessors the pipeline
    reads.  [dt_date] is the calendar day as a day number. *)
Record Timestamp := {
  dt_date : Z;
  dt_hour : Z;
  dt_dayofweek : Z;
  dt_week : Z;
  dt_month : Z
}.

(** One row of the cleaned access log: the ten columns of the input
    contract. *)
Record AccessEvent := {
  user_id : string;
  role : string;
  resource_type : string;
  action : string;
  timestamp : Timestamp;
  session_duration : Q;
  access_volume : Z;
  success_flag : bool;
  assigned_resource_count : Z;
  actively_used_resource_count : Z
}.

Inductive Column : Type :=
| IntCol (xs : list Z)
| NumCol (xs : Series)
| StrCol (xs : list string).

Record DataFrame := {
  rows : list AccessEvent;
  derived : list (string * Column)
}.

Inductive error : Type :=
| KeyError (c : string)
| TypeError (c : string)
| AssertionError (msg : string).

Inductive result (A : Type) : Type :=
| Ok (a : A)
| Err (e : error).
Arguments Ok {A} a.
Arguments Err {A} e.

Definition bind {A B} (r : result A) (k : A -> result B) : result B :=
  match r with
  | Ok a => k a
  | Err e => Err e
  end.

Notation "x <- e ;; k" := (bind e (fun x => k))
  (at level 61, e at next level, right associativity).
Notation "'ret' x" := (Ok x) (at level 60).

Local Open Scope string_scope.

Fixpoint get_assoc (c : string) (l : list (string * Column)) : option Column :=
  match l with
  | [] => None
  | (c', v) :: t => if String.eqb c' c then Some v else get_assoc c t
  end.

(** [df[c] = v]: replaces the column in place, or appends it. *)
Fixpoint set_assoc (c : string) (v : Column) (l : list (string * Column))
  : list (string * Column) :=
  match l with
  | [] => [(c, v)]
  | (c', v') :: t =>
      if String.eqb c' c then (c, v) :: t else (c', v') :: set_assoc c v t
  end.

Fixpoint del_assoc (c : string) (l : list (string * Column))
  : list (string * Column) :=
  match l with
  | [] => []
  | (c', v') :: t =>
      if String.eqb c' c then del_assoc c t else (c', v') :: del_assoc c t
  end.

Definition set_col (df : DataFrame) (c : string) (v : Column) : DataFrame :=
  {| rows := rows df; derived := set_assoc c v (derived df) |}.

(** [df[c]] for a derived numeric column, integers read as numbers. *)
Definition num_col (df : DataFrame) (c : string) : result Series :=
  match get_assoc c (derived df) with
  | Some (NumCol xs) => ret xs
  | Some (IntCol xs) => ret (map of_Z xs)
  | Some (StrCol _) => Err (TypeError c)
  | None => Err (KeyError c)
  end.

Definition int_col (df : DataFrame) (c : string) : result (list Z) :=
  match get_assoc c (derived df) with
  | Some (IntCol xs) => ret xs
  | Some _ => Err (TypeError c)
  | None => Err (KeyError c)
  end.

Definition str_col (df : DataFrame) (c : string) : result (list string) :=
  match get_assoc c (derived df) with
  | Some (StrCol xs) => ret xs
  | Some _ => Err (TypeError c)
  | None => Err (KeyError c)
  end.

(** [df.drop(columns=cs)]: a missing label is a [KeyError]. *)
Fixpoint drop_cols (df : DataFrame) (cs : list string) : result DataFrame :=
  match cs with
  | [] => ret df
  | c :: cs' =>
      match get_assoc c (derived df) with
      | None => Err (KeyError c)
      | Some _ =>
          drop_cols {| rows := rows df; derived := del_assoc c (derived df) |}
                    cs'
      end
  end.

Definition columns (df : DataFrame) : list string := map fst (derived df).

(** The raw columns, read off the typed rows. *)
Definition col_user_id (df : DataFrame) : list string := map user_id (rows df).
Definition col_role (df : DataFrame) : list string := map role (rows df).
Definition col_resource_type (df : DataFrame) : list string :=
  map resource_type (rows df).
Definition col_action (df : DataFrame) : list string := map action (rows df).
Definition col_access_volume (df : DataFrame) : Series :=
  map (fun e => of_Z (access_volume e)) (rows df).
Definition col_session_duration (df : DataFrame) : Series :=
  map (fun e => Fin (session_duration e)) (rows df).

(* ================================================================== *)
(** ** [load_and_prepare_data]: the derived time parts *)
(* ================================================================== *)

Definition load_and_prepare_data (evs : list AccessEvent) : DataFrame :=
  let df := {| rows := evs; derived := [] |} in
  let ts := map timestamp evs in
  let df := set_col df "hour" (IntCol (map dt_hour ts)) in
  let df := set_col df "day_of_week" (IntCol (map dt_dayofweek ts)) in
  let df := set_col df "week" (IntCol (map dt_week ts)) in
  let df := set_col df "month" (IntCol (map dt_month ts)) in
  let df := set_col df "date" (IntCol (map dt_date ts)) in
  df.

(* ================================================================== *)
(** ** [behavioral_features] *)
(* ================================================================== *)

Definition scale100 {K} (s : list (K * f64)) : list (K * f64) :=
  map (fun r => (fst r, f64_mul (snd r) (Fin 100))) s.

(** Feature 1: total [access_volume] per (user, day), then the mean of the
    daily totals per user, mapped back on the rows. *)
Definition avg_daily_access_of (users : list string) (date : list Z)
    (volume : Series) : Series :=
  let daily_access := groupby_agg (combine users date) volume series_sum in
  let avg_daily_access :=
    groupby_agg (map (fun r => fst (fst r)) daily_access)
                (map snd daily_access) series_mean in
  series_map users avg_daily_access.

Definition calculate_avg_daily_access (df : DataFrame) : result DataFrame :=
  date <- int_col df "date" ;;
  ret (set_col df "avg_daily_access"
         (NumCol (avg_daily_access_of (col_user_id df) date
                    (col_access_volume df)))).

Definition is_export (a : string) : bool := String.eqb "export" a.

Definition count_export (g : list string) : nat := length (filter is_export g).

(** The ['export'] cell of
    [value_counts(normalize=True).unstack(fill_value=0)] for one user: the
    share of exports among the user's actions, the fill value when the user
    has none. *)
Definition export_share (g : list string) : f64 :=
  if (count_export g =? 0)%nat then Fin 0
  else f64_div (of_nat (count_export g)) (of_nat (length g)).

(** Feature 2.  [user_actions.get('export', pd.Series(0, ...))]: the column
    exists as soon as one event of the frame is an export. *)
Definition export_ratio_of (users actions : list string) : Series :=
  let user_actions_export :=
    if existsb is_export actions
    then groupby_agg users actions export_share
    else map (fun u => (u, Fin 0)) (group_index users) in
  series_map users (scale100 user_actions_export).

Definition calculate_export_ratio (df : DataFrame) : result DataFrame :=
  ret (set_col df "export_ratio"
         (NumCol (export_ratio_of (col_user_id df) (col_action df)))).

Definition nunique (g : list string) : Z := Z.of_nat (length (dedup g)).

(** [map] onto an integer column; a user is always found, being a key of
    the grouped table built from the same frame. *)
Definition int_map {K} `{Key K} (keys : list K) (s : list (K * Z)) : list Z :=
  map (fun k => match assoc k s with Some v => v | None => 0%Z end) keys.

(** Feature 3. *)
Definition unique_resources_of (users resources : list string) : list Z :=
  int_map users (groupby_agg users resources nunique).

Definition calculate_unique_resources (df : DataFrame) : result DataFrame :=
  ret (set_col df "unique_resources"
         (IntCol (unique_resources_of (col_user_id df)
                    (col_resource_type df)))).

(** Feature 4, and the shape of every per-user mean mapped on the rows. *)
Definition user_mean_of (users : list string) (x : Series) : Series :=
  series_map users (groupby_agg users x series_mean).

Definition calculate_avg_session_duration (df : DataFrame)
  : result DataFrame :=
  ret (set_col df "avg_session_duration"
         (NumCol (user_mean_of (col_user_id df) (col_session_duration df)))).

Definition build_all_behavioral_features (df : DataFrame)
  : result DataFrame :=
  df <- calculate_avg_daily_access df ;;
  df <- calculate_export_ratio df ;;
  df <- calculate_unique_resources df ;;
  calculate_avg_session_duration df.

(* ================================================================== *)
(** ** [temporal_features] *)
(* ================================================================== *)

(** [((hour >= 22) | (hour <= 6)).astype(int)] *)
Definition is_night_hour (h : Z) : Z :=
  if ((h >=? 22) || (h <=? 6))%Z then 1%Z else 0%Z.

(** [groupby('user_id')[flag].mean() * 100], mapped on the rows. *)
Definition user_pct_of (users : list string) (flag : Series) : Series :=
  series_map users (scale100 (groupby_agg users flag series_mean)).

(** Feature 5. *)
Definition calculate_night_access_pct (df : DataFrame) : result DataFrame :=
  hour <- int_col df "hour" ;;
  let df := set_col df "is_night" (IntCol (map is_night_hour hour)) in
  is_night <- num_col df "is_night" ;;
  ret (set_col df "night_access_pct"
         (NumCol (user_pct_of (col_user_id df) is_night))).

(** [(day_of_week >= 5).astype(int)] *)
Definition is_weekend_day (d : Z) : Z := if (d >=? 5)%Z then 1%Z else 0%Z.

(** Feature 6. *)
Definition calculate_weekend_activity_ratio (df : DataFrame)
  : result DataFrame :=
  day_of_week <- int_col df "day_of_week" ;;
  let df := set_col df "is_weekend" (IntCol (map is_weekend_day day_of_week)) in
  is_weekend <- num_col df "is_weekend" ;;
  ret (set_col df "weekend_activity_ratio"
         (NumCol (user_pct_of (col_user_id df) is_weekend))).

(** [groupby('user_id')['hour'].var()], mapped on the rows. *)
Definition user_var_of (users : list string) (x : Series) : Series :=
  series_map users (groupby_agg users x series_var).

(** Feature 7. *)
Definition calculate_access_time_variance (df : DataFrame)
  : result DataFrame :=
  hour <- num_col df "hour" ;;
  let df := set_col df "access_time_variance"
              (NumCol (user_var_of (col_user_id df) hour)) in
  v <- num_col df "access_time_variance" ;;
  ret (set_col df "access_time_variance" (NumCol (fillna (Fin 0) v))).

Definition build_all_temporal_features (df : DataFrame) : result DataFrame :=
  df <- calculate_night_access_pct df ;;
  df <- calculate_weekend_activity_ratio df ;;
  calculate_access_time_variance df.

(* ================================================================== *)
(** ** [stability_features] *)
(* ================================================================== *)

Definition fillna_entries {K} (v : f64) (s : list (K * f64)) : list (K * f64) :=
  map (fun r => (fst r, if is_nan (snd r) then v else snd r)) s.

(** Feature 8: total volume per (user, week), one row per pair sorted by
    user then week; the difference to the user's previous week; the
    standard deviation of the differences per user, NaN filled with 0. *)
Definition weekly_access_change_of (users : list string) (week : list Z)
    (volume : Series) : Series :=
  let weekly_usage := groupby_agg (combine users week) volume series_sum in
  let wu_user := map (fun r => fst (fst r)) weekly_usage in
  let weekly_diff := group_diff wu_user (map snd weekly_usage) in
  let weekly_instability :=
    fillna_entries (Fin 0) (groupby_agg wu_user weekly_diff series_std) in
  series_map users weekly_instability.

Definition calculate_weekly_access_change (df : DataFrame)
  : result DataFrame :=
  week <- int_col df "week" ;;
  ret (set_col df "weekly_access_change"
         (NumCol (weekly_access_change_of (col_user_id df) week
                    (col_access_volume df)))).

(** [user_stats['mean'] + 2 * user_stats['std']], merged back on
    [user_id] (a left merge: the threshold of each row's user). *)
Definition spike_threshold_of (users : list string) (volume : Series)
  : Series :=
  let user_mean := groupby_agg users volume series_mean in
  let user_std := groupby_agg users volume series_std in
  let spike_threshold :=
    zip_with (fun m s => (fst m, f64_add (snd m) (f64_mul (Fin 2) (snd s))))
             user_mean user_std in
  series_map users spike_threshold.

(** [(access_volume > spike_threshold).astype(int)] *)
Definition spike_flag (v t : f64) : Z := if f64_gtb v t then 1%Z else 0%Z.

(** Feature 9. *)
Definition calculate_access_spike_score (df : DataFrame) : result DataFrame :=
  let df := set_col df "spike_threshold"
              (NumCol (spike_threshold_of (col_user_id df)
                         (col_access_volume df))) in
  threshold <- num_col df "spike_threshold" ;;
  let df := set_col df "is_spike"
              (IntCol (zip_with spike_flag (col_access_volume df) threshold)) in
  is_spike <- num_col df "is_spike" ;;
  let df := set_col df "access_spike_score"
              (NumCol (user_pct_of (col_user_id df) is_spike)) in
  drop_cols df ["spike_threshold"; "is_spike"].

Definition build_all_stability_features (df : DataFrame) : result DataFrame :=
  df <- calculate_weekly_access_change df ;;
  calculate_access_spike_score df.

(* ================================================================== *)
(** ** [privilege_intelligence] *)
(* ================================================================== *)

Definition first_or (d : Z) (g : list Z) : Z :=
  match g with x :: _ => x | [] => d end.

(** [groupby('user_id').agg({... : 'first', ... : 'first'})] as a table of
    (user, (assigned, used)). *)
Definition user_privilege (users : list string) (assigned used : list Z)
  : list (string * (Z * Z)) :=
  zip_with (fun a u => (fst a, (snd a, snd u)))
    (groupby_agg users assigned (first_or 0))
    (groupby_agg users used (first_or 0)).

(** Feature 10. *)
Definition privilege_usage_gap_of (users : list string)
    (assigned used : list Z) : list Z :=
  int_map users
    (map (fun r => (fst r, (fst (snd r) - snd (snd r))%Z))
         (user_privilege users assigned used)).

Definition col_assigned (df : DataFrame) : list Z :=
  map assigned_resource_count (rows df).
Definition col_used (df : DataFrame) : list Z :=
  map actively_used_resource_count (rows df).

Definition calculate_privilege_usage_gap (df : DataFrame) : result DataFrame :=
  ret (set_col df "privilege_usage_gap"
         (IntCol (privilege_usage_gap_of (col_user_id df) (col_assigned df)
                    (col_used df)))).

(** [.replace(0, 1)] *)
Definition replace_zero_by_one (z : Z) : Z := if (z =? 0)%Z then 1%Z else z.

(** Feature 11. *)
Definition privilege_usage_ratio_of (users : list string)
    (assigned used : list Z) : Series :=
  series_map users
    (map (fun r =>
            (fst r,
             f64_mul (f64_div (of_Z (snd (snd r)))
                              (of_Z (replace_zero_by_one (fst (snd r)))))
                     (Fin 100)))
         (user_privilege users assigned used)).

Definition calculate_privilege_usage_ratio (df : DataFrame)
  : result DataFrame :=
  ret (set_col df "privilege_usage_ratio"
         (NumCol (privilege_usage_ratio_of (col_user_id df) (col_assigned df)
                    (col_used df)))).

(** The aggregation lambda: [x.std() / x.mean() if x.mean() > 0 else 0]. *)
Definition coefficient_of_variation (x : Series) : f64 :=
  if f64_gtb (series_mean x) (Fin 0)
  then f64_div (series_std x) (series_mean x)
  else Fin 0.

(** [groupby([...]).size()] *)
Definition group_size {V} (g : list V) : f64 := of_nat (length g).

(** Feature 12: events per (user, resource_type), one row per pair; then
    the coefficient of variation of the counts per user. *)
Definition resource_access_concentration_of (users resources : list string)
  : Series :=
  let user_resource_freq :=
    groupby_agg (combine users resources) resources group_size in
  let user_cv :=
    groupby_agg (map (fun r => fst (fst r)) user_resource_freq)
                (map snd user_resource_freq) coefficient_of_variation in
  series_map users user_cv.

Definition calculate_resource_access_concentration (df : DataFrame)
  : result DataFrame :=
  ret (set_col df "resource_access_concentration"
         (NumCol (resource_access_concentration_of (col_user_id df)
                    (col_resource_type df)))).

Definition build_all_privilege_intelligence_features (df : DataFrame)
  : result DataFrame :=
  df <- calculate_privilege_usage_gap df ;;
  df <- calculate_privilege_usage_ratio df ;;
  calculate_resource_access_concentration df.

(* ================================================================== *)
(** ** [risk_scoring] *)
(* ================================================================== *)

Definition features_to_normalize : list string :=
  [ "avg_daily_access"; "export_ratio"; "unique_resources";
    "avg_session_duration";
    "night_access_pct"; "weekend_activity_ratio"; "access_time_variance";
    "weekly_access_change"; "access_spike_score";
    "privilege_usage_gap"; "privilege_usage_ratio";
    "resource_access_concentration" ].

(** The statistics of a feature per role, merged back on [role]. *)
Definition role_mean_of (roles : list string) (x : Series) : Series :=
  series_map roles (groupby_agg roles x series_mean).
Definition role_std_of (roles : list string) (x : Series) : Series :=
  series_map roles (groupby_agg roles x series_std).

(** The z-score column of one feature: [((x - role_mean) / role_std)
    .fillna(0)], row by row. *)
Definition zscore_column (x role_mean role_std : Series) : Series :=
  fillna (Fin 0) (zip_with f64_div (zip_with f64_sub x role_mean) role_std).

(** One turn of the loop over [features_to_normalize]. *)
Definition normalize_feature (df : DataFrame) (feature : string)
  : result DataFrame :=
  x <- num_col df feature ;;
  let df := set_col df (feature ++ "_role_mean")
              (NumCol (role_mean_of (col_role df) x)) in
  let df := set_col df (feature ++ "_role_std")
              (NumCol (role_std_of (col_role df) x)) in
  x <- num_col df feature ;;
  m <- num_col df (feature ++ "_role_mean") ;;
  s <- num_col df (feature ++ "_role_std") ;;
  let df := set_col df (feature ++ "_zscore") (NumCol (zscore_column x m s)) in
  drop_cols df [feature ++ "_role_mean"; feature ++ "_role_std"].

Fixpoint for_each (fs : list string) (df : DataFrame)
    (body : DataFrame -> string -> result DataFrame) : result DataFrame :=
  match fs with
  | [] => ret df
  | f :: fs' => df' <- body df f ;; for_each fs' df' body
  end.

Definition calculate_role_based_zscores (df : DataFrame) : result DataFrame :=
  for_each features_to_normalize df normalize_feature.

Definition risk_weights : list (string * Q) :=
  [ ("privilege_usage_gap_zscore", 0.15);
    ("privilege_usage_ratio_zscore", 0.10);
    ("resource_access_concentration_zscore", 0.05);
    ("export_ratio_zscore", 0.15);
    ("avg_daily_access_zscore", 0.12);
    ("unique_resources_zscore", 0.10);
    ("night_access_pct_zscore", 0.08);
    ("avg_session_duration_zscore", 0.06);
    ("weekend_activity_ratio_zscore", 0.04);
    ("access_time_variance_zscore", 0.05);
    ("weekly_access_change_zscore", 0.05);
    ("access_spike_score_zscore", 0.05) ].

Definition total_weight (weights : list (string * Q)) : Q :=
  fold_left Qplus (map snd weights) 0.

(** The guard [assert abs(total_weight - 1.0) < 0.001]. *)
Definition weights_ok (weights : list (string * Q)) : bool :=
  negb (Qle_bool 0.001 (Qabs (total_weight weights - 1))).

Definition weighted (weight : Q) (z : Series) : Series :=
  map (fun v => f64_mul v (Fin weight)) z.

(** [sum(df[feature] * weight for feature, weight in weights.items())],
    accumulated from 0 in the order of the table. *)
Fixpoint weighted_sum (df : DataFrame) (weights : list (string * Q))
    (acc : Series) : result Series :=
  match weights with
  | [] => ret acc
  | (feature, weight) :: ws =>
      z <- num_col df feature ;;
      weighted_sum df ws (zip_with f64_add acc (weighted weight z))
  end.

(** Min-max rescaling of one raw score, then of the column, clipped. *)
Definition rescale (min_score max_score raw : f64) : f64 :=
  f64_mul (f64_div (f64_sub raw min_score) (f64_sub max_score min_score))
          (Fin 100).

Definition min_max_scale (raw : Series) : Series :=
  map (rescale (series_min raw) (series_max raw)) raw.

Definition zeros (n : nat) : Series := repeat (Fin 0) n.

(** The scoring step for a given weight table; the pipeline runs it on
    [risk_weights].  The guard on the table comes first and aborts the
    whole step. *)
Definition score_with_weights (weights : list (string * Q)) (df : DataFrame)
  : result DataFrame :=
  if negb (weights_ok weights)
  then Err (AssertionError "Weights must sum to 1.0")
  else
    raw <- weighted_sum df weights (zeros (length (rows df))) ;;
    let df := set_col df "raw_risk_score" (NumCol raw) in
    raw <- num_col df "raw_risk_score" ;;
    let df := set_col df "governance_risk_score"
                (NumCol (min_max_scale raw)) in
    g <- num_col df "governance_risk_score" ;;
    ret (set_col df "governance_risk_score"
           (NumCol (clip (Fin 0) (Fin 100) g))).

Definition calculate_governance_risk_score (df : DataFrame)
  : result DataFrame :=
  score_with_weights risk_weights df.

Definition categorize_risk (score : f64) : string :=
  if f64_leb score (Fin 30) then "Low"
  else if f64_leb score (Fin 60) then "Medium"
  else "High".

Definition add_risk_categories (df : DataFrame) : result DataFrame :=
  g <- num_col df "governance_risk_score" ;;
  ret (set_col df "risk_category" (StrCol (map categorize_risk g))).

(* ================================================================== *)
(** ** [run_feature_engineering.main] *)
(* ================================================================== *)

Definition run_feature_engineering (evs : list AccessEvent)
  : result DataFrame :=
  let df := load_and_prepare_data evs in
  df <- build_all_behavioral_features df ;;
  df <- build_all_temporal_features df ;;
  df <- build_all_stability_features df ;;
  df <- build_all_privilege_intelligence_features df ;;
  df <- calculate_role_based_zscores df ;;
  df <- calculate_governance_risk_score df ;;
  add_risk_categories df.

(* ================================================================== *)
(** ** [run_feature_engineering.validate_features] *)
(* ================================================================== *)

(** The ten columns of the cleaned log, which every frame carries. *)
Definition raw_columns : list string :=
  [ "user_id"; "role"; "resource_type"; "action"; "timestamp";
    "session_duration"; "access_volume"; "success_flag";
    "assigned_resource_count"; "actively_used_resource_count" ].

(** [c in df.columns] *)
Definition has_column (df : DataFrame) (c : string) : bool :=
  existsb (String.eqb c) (raw_columns ++ columns df)%list.

(** The entries of the list [issues]; the message texts are not kept, the
    out-of-range entry keeps the two bounds it prints. *)
Inductive issue : Type :=
| MissingFeature (feature : string)
| MissingZscore (zscore_col : string)
| MissingGovernanceRiskScore
| RiskScoreOutOfRange (min_risk max_risk : f64)
| MissingRiskCategory
| UsersMissingRiskScores.

Definition required_features : list string :=
  [ "avg_daily_access"; "export_ratio"; "unique_resources";
    "avg_session_duration";
    "night_access_pct"; "weekend_activity_ratio"; "access_time_variance";
    "weekly_access_change"; "access_spike_score";
    "privilege_usage_gap"; "privilege_usage_ratio";
    "resource_access_concentration" ].

(** The loop over [required_features]: the feature, then its z-score. *)
Fixpoint check_features (df : DataFrame) (features : list string)
    (issues : list issue) : list issue :=
  match features with
  | [] => issues
  | feature :: rest =>
      let issues :=
        if has_column df feature then issues
        else (issues ++ [MissingFeature feature])%list in
      let issues :=
        if has_column df (feature ++ "_zscore") then issues
        else (issues ++ [MissingZscore (feature ++ "_zscore")])%list in
      check_features df rest issues
  end.

(** [groupby('user_id')[col].count()]: the cells that are not NaN. *)
Definition count_valid (g : Series) : f64 := of_nat (length (dropna g)).

(** The checks of [validate_features], in their order; the result is the
    list [issues].  The last check reads [governance_risk_score] whether
    or not the column was found missing before. *)
Definition validation_issues (df : DataFrame) : result (list issue) :=
  let issues := check_features df required_features [] in
  issues <-
    (if negb (has_column df "governance_risk_score")
     then ret ((issues ++ [MissingGovernanceRiskScore])%list)
     else
       g <- num_col df "governance_risk_score" ;;
       let min_risk := series_min g in
       let max_risk := series_max g in
       ret (if f64_ltb min_risk (Fin 0) || f64_gtb max_risk (Fin 100)
            then (issues ++ [RiskScoreOutOfRange min_risk max_risk])%list
            else issues)) ;;
  let issues :=
    if negb (has_column df "risk_category")
    then (issues ++ [MissingRiskCategory])%list else issues in
  g <- num_col df "governance_risk_score" ;;
  let user_risk_count := groupby_agg (col_user_id df) g count_valid in
  let issues :=
    if f64_eqb (series_min (map snd user_risk_count)) (Fin 0)
    then (issues ++ [UsersMissingRiskScores])%list else issues in
  ret issues.

(** [validate_features]: [False] when there is an issue. *)
Definition validate_features (df : DataFrame) : result bool :=
  issues <- validation_issues df ;;
  ret (match issues with [] => true | _ :: _ => false end).

(* ================================================================== *)
(** * The numbers of the pipeline in binary64 *)
(* ================================================================== *)

(** The same column computations on the machine numbers: IEEE 754
    binary64 with round-to-nearest, as the primitive floats compute them.
    Each reduction follows the algorithm that pandas runs for it: a grouped
    mean is a Kahan-compensated sum divided by the count ([group_mean]), a
    grouped variance is Welford's recurrence ([group_var]), a [Series]
    reduction inside a Python lambda goes through [nanops] (a sum, then a
    division).  Integer columns stay integers until pandas converts them.
    The frame plumbing (which column is set, read or dropped) is that of
    the model above and is not repeated: a frame is here the list of its
    numeric columns. *)

Module Binary64.
Import PrimFloat.
Local Open Scope float_scope.

Definition Series := list float.

(** [int64] to [float64]: the nearest number. *)
Definition of_Z (z : Z) : float :=
  match z with
  | Z0 => 0
  | Zpos _ => of_uint63 (Uint63.of_Z z)
  | Zneg p => - of_uint63 (Uint63.of_Z (Zpos p))
  end.

Definition of_nat (n : nat) : float := of_Z (Z.of_nat n).

(** The number nearest to a decimal of the source or of the input file,
    for a rational whose numerator and denominator are below 2^53. *)
Definition of_Q (q : Q) : float := of_Z (Qnum q) / of_Z (Zpos (Qden q)).

Definition dropna (s : Series) : Series :=
  filter (fun x => negb (PrimFloat.is_nan x)) s.

Definition fillna (v : float) (s : Series) : Series :=
  map (fun x => if PrimFloat.is_nan x then v else x) s.

(** [keys.map(s)] *)
Definition series_map {K} `{Key K} (keys : list K) (s : list (K * float))
  : Series :=
  map (fun k => match assoc k s with Some v => v | None => nan end) keys.

(** *** The grouped reductions of [pandas/_libs/groupby.pyx] *)

(** The sum of an integer column is exact. *)
Definition group_sum (g : list Z) : Z := fold_left Z.add g 0%Z.

(** One turn of the loop of [group_mean] on a value that is not missing:
    [y = val - compensation; t = sumx + y;
     compensation = t - sumx - y; sumx = t], the compensation reset to 0
    when it is NaN. *)
Definition kahan_step (st : float * float) (val : float) : float * float :=
  let '(sumx, compensation) := st in
  let y := val - compensation in
  let t := sumx + y in
  let compensation := t - sumx - y in
  (t, if PrimFloat.is_nan compensation then 0 else compensation).

(** [groupby(...).mean()]: NaN for a group without values. *)
Definition group_mean (g : Series) : float :=
  match dropna g with
  | [] => nan
  | xs => fst (fold_left kahan_step xs (0, 0)) / of_nat (length xs)
  end.

(** One turn of the loop of [group_var]:
    [nobs += 1; oldmean = mean; mean += (val - oldmean) / nobs;
     out += (val - mean) * (val - oldmean)]. *)
Definition welford_step (st : Z * float * float) (val : float)
  : Z * float * float :=
  let '(nobs, mean, out) := st in
  let nobs := (nobs + 1)%Z in
  let oldmean := mean in
  let mean := mean + (val - oldmean) / of_Z nobs in
  (nobs, mean, out + (val - mean) * (val - oldmean)).

(** [groupby(...).var()], [ddof = 1]: NaN when [ct <= ddof]. *)
Definition group_var (g : Series) : float :=
  let '(ct, _, out) := fold_left welford_step (dropna g) (0%Z, 0, 0) in
  if (ct <=? 1)%Z then nan else out / of_Z (ct - 1).

Definition group_std (g : Series) : float := sqrt (group_var g).

(** *** The reductions of [pandas/core/nanops.py] on an integer column *)

(** [values.sum(dtype=float64)]: the elements added from the left, as
    NumPy does for an array of fewer than 8 elements (a longer one is
    added in blocks). *)
Definition np_sum (xs : Series) : float := fold_left add xs 0.

(** [Series.mean()] *)
Definition nanmean (x : list Z) : float :=
  match x with
  | [] => nan
  | _ => np_sum (map of_Z x) / of_nat (length x)
  end.

(** [Series.std()], [ddof = 1]: [avg = values.sum() / count;
    sqr = (avg - values) ** 2; sqrt(sqr.sum() / (count - ddof))], NaN
    when [count <= ddof]. *)
Definition nanstd (x : list Z) : float :=
  if (length x <=? 1)%nat then nan
  else
    let values := map of_Z x in
    let avg := np_sum values / of_nat (length x) in
    let sqr := map (fun v => (avg - v) * (avg - v)) values in
    sqrt (np_sum sqr / of_nat (length x - 1)).

(** [Series.min()] and [Series.max()]: NaN skipped. *)
Definition nanmin (s : Series) : float :=
  match dropna s with
  | [] => nan
  | x :: xs => fold_left (fun m v => if v <? m then v else m) xs x
  end.

Definition nanmax (s : Series) : float :=
  match dropna s with
  | [] => nan
  | x :: xs => fold_left (fun m v => if m <? v then v else m) xs x
  end.

(** *** The twelve features *)

Definition col_user_id (evs : list AccessEvent) : list string :=
  map user_id evs.
Definition col_hour (evs : list AccessEvent) : list Z :=
  map (fun e => dt_hour (timestamp e)) evs.

Definition scale100 {K} (s : list (K * float)) : list (K * float) :=
  map (fun r => (fst r, snd r * 100)) s.

Definition calculate_avg_daily_access (evs : list AccessEvent) : Series :=
  let users := col_user_id evs in
  let daily_access :=
    groupby_agg (combine users (map (fun e => dt_date (timestamp e)) evs))
                (map access_volume evs) group_sum in
  let avg_daily_access :=
    groupby_agg (map (fun r => fst (fst r)) daily_access)
                (map (fun r => of_Z (snd r)) daily_access) group_mean in
  series_map users avg_daily_access.

(** [value_counts(normalize=True)]: the count divided by the size of the
    group; the fill value 0 when the user has no export. *)
Definition export_share (g : list string) : float :=
  if (count_export g =? 0)%nat then 0
  else of_nat (count_export g) / of_nat (length g).

Definition calculate_export_ratio (evs : list AccessEvent) : Series :=
  let users := col_user_id evs in
  let actions := map action evs in
  let user_actions_export :=
    if existsb is_export actions
    then groupby_agg users actions export_share
    else map (fun u => (u, 0)) (group_index users) in
  series_map users (scale100 user_actions_export).

Definition calculate_unique_resources (evs : list AccessEvent) : Series :=
  map of_Z (unique_resources_of (col_user_id evs) (map resource_type evs)).

(** [groupby('user_id')[col].mean()], mapped on the rows. *)
Definition user_mean_of (users : list string) (x : Series) : Series :=
  series_map users (groupby_agg users x group_mean).

Definition calculate_avg_session_duration (evs : list AccessEvent) : Series :=
  user_mean_of (col_user_id evs)
               (map (fun e => of_Q (session_duration e)) evs).

(** [groupby('user_id')[flag].mean() * 100], mapped on the rows. *)
Definition user_pct_of (users : list string) (flag : list Z) : Series :=
  series_map users (scale100 (groupby_agg users (map of_Z flag) group_mean)).

Definition calculate_night_access_pct (evs : list AccessEvent) : Series :=
  user_pct_of (col_user_id evs) (map is_night_hour (col_hour evs)).

Definition calculate_weekend_activity_ratio (evs : list AccessEvent)
  : Series :=
  user_pct_of (col_user_id evs)
    (map (fun e => is_weekend_day (dt_dayofweek (timestamp e))) evs).

Definition calculate_access_time_variance (evs : list AccessEvent) : Series :=
  let users := col_user_id evs in
  fillna 0
    (series_map users (groupby_agg users (map of_Z (col_hour evs)) group_var)).

(** [groupby('user_id')['access_volume'].diff()] on the weekly totals. *)
Fixpoint group_diff_from (prev : list (string * Z)) (keys : list string)
    (vals : list Z) : Series :=
  match keys, vals with
  | k :: ks, v :: vs =>
      (match assoc k prev with
       | Some p => of_Z v - of_Z p
       | None => nan
       end) :: group_diff_from ((k, v) :: prev) ks vs
  | _, _ => []
  end.

Definition calculate_weekly_access_change (evs : list AccessEvent) : Series :=
  let users := col_user_id evs in
  let weekly_usage :=
    groupby_agg (combine users (map (fun e => dt_week (timestamp e)) evs))
                (map access_volume evs) group_sum in
  let wu_user := map (fun r => fst (fst r)) weekly_usage in
  let weekly_diff := group_diff_from [] wu_user (map snd weekly_usage) in
  let weekly_instability :=
    map (fun r => (fst r, if PrimFloat.is_nan (snd r) then 0 else snd r))
        (groupby_agg wu_user weekly_diff group_std) in
  series_map users weekly_instability.

Definition spike_threshold_of (users : list string) (volume : Series)
  : Series :=
  let user_mean := groupby_agg users volume group_mean in
  let user_std := groupby_agg users volume group_std in
  let spike_threshold :=
    zip_with (fun m s => (fst m, snd m + 2 * snd s)) user_mean user_std in
  series_map users spike_threshold.

(** [(access_volume > spike_threshold).astype(int)] *)
Definition spike_flag (v t : float) : Z := if t <? v then 1%Z else 0%Z.

Definition calculate_access_spike_score (evs : list AccessEvent) : Series :=
  let users := col_user_id evs in
  let volume := map (fun e => of_Z (access_volume e)) evs in
  let is_spike :=
    zip_with spike_flag volume (spike_threshold_of users volume) in
  user_pct_of users is_spike.

Definition calculate_privilege_usage_gap (evs : list AccessEvent) : Series :=
  map of_Z (privilege_usage_gap_of (col_user_id evs)
              (map assigned_resource_count evs)
              (map actively_used_resource_count evs)).

Definition calculate_privilege_usage_ratio (evs : list AccessEvent) : Series :=
  let users := col_user_id evs in
  series_map users
    (map (fun r =>
            (fst r,
             of_Z (snd (snd r)) / of_Z (replace_zero_by_one (fst (snd r)))
             * 100))
         (user_privilege users (map assigned_resource_count evs)
                         (map actively_used_resource_count evs))).

(** [x.std() / x.mean() if x.mean() > 0 else 0] *)
Definition coefficient_of_variation (x : list Z) : float :=
  if 0 <? nanmean x then nanstd x / nanmean x else 0.

Definition calculate_resource_access_concentration (evs : list AccessEvent)
  : Series :=
  let users := col_user_id evs in
  let resources := map resource_type evs in
  let user_resource_freq :=
    groupby_agg (combine users resources) resources
                (fun g => Z.of_nat (length g)) in
  let user_cv :=
    groupby_agg (map (fun r => fst (fst r)) user_resource_freq)
                (map snd user_resource_freq) coefficient_of_variation in
  series_map users user_cv.

(** A frame of numeric columns, by name. *)
Definition Frame := list (string * Series).

Definition column (df : Frame) (c : string) : Series :=
  match find (fun r => String.eqb (fst r) c) df with
  | Some r => snd r
  | None => []
  end.

(** The twelve feature columns, in the order of [features_to_normalize]. *)
Definition build_all_features (evs : list AccessEvent) : Frame :=
  [ ("avg_daily_access", calculate_avg_daily_access evs);
    ("export_ratio", calculate_export_ratio evs);
    ("unique_resources", calculate_unique_resources evs);
    ("avg_session_duration", calculate_avg_session_duration evs);
    ("night_access_pct", calculate_night_access_pct evs);
    ("weekend_activity_ratio", calculate_weekend_activity_ratio evs);
    ("access_time_variance", calculate_access_time_variance evs);
    ("weekly_access_change", calculate_weekly_access_change evs);
    ("access_spike_score", calculate_access_spike_score evs);
    ("privilege_usage_gap", calculate_privilege_usage_gap evs);
    ("privilege_usage_ratio", calculate_privilege_usage_ratio evs);
    ("resource_access_concentration",
     calculate_resource_access_concentration evs) ].

(** *** [risk_scoring] *)

(** The two statistics of a feature over the event rows of a role. *)
Definition role_mean (evs : list AccessEvent) (x : Series) (r : string)
  : float :=
  group_mean (select r (map role evs) x).

Definition role_std (evs : list AccessEvent) (x : Series) (r : string)
  : float :=
  group_std (select r (map role evs) x).

(** [((x - role_mean) / role_std).fillna(0)] *)
Definition zscore_column (roles : list string) (x : Series) : Series :=
  let role_mean := series_map roles (groupby_agg roles x group_mean) in
  let role_std := series_map roles (groupby_agg roles x group_std) in
  fillna 0 (zip_with div (zip_with sub x role_mean) role_std).

Definition calculate_role_based_zscores (evs : list AccessEvent)
    (features : Frame) : Frame :=
  map (fun feature =>
         ((feature ++ "_zscore")%string,
          zscore_column (map role evs) (column features feature)))
      features_to_normalize.

(** [sum(df[feature] * weight for feature, weight in ...)], from 0, each
    weight the number nearest to its decimal. *)
Fixpoint weighted_sum (df : Frame) (weights : list (string * Q))
    (acc : Series) : Series :=
  match weights with
  | [] => acc
  | (feature, weight) :: ws =>
      weighted_sum df ws
        (zip_with add acc
                  (map (fun v => v * of_Q weight) (column df feature)))
  end.

Definition rescale (min_score max_score raw : float) : float :=
  (raw - min_score) / (max_score - min_score) * 100.

Definition clip_value (lo hi x : float) : float :=
  if x <? lo then lo else if hi <? x then hi else x.

Definition categorize_risk (score : float) : string :=
  if score <=? 30 then "Low"
  else if score <=? 60 then "Medium"
  else "High".

(** The columns of the scoring steps. *)
Record Scores := {
  features : Frame;
  zscores : Frame;
  raw_risk_score : Series;
  governance_risk_score : Series;
  risk_category : list string
}.

Definition calculate_governance_risk_score (n : nat) (zs : Frame)
  : Series * Series :=
  let raw := weighted_sum zs risk_weights (repeat 0 n) in
  let min_score := nanmin raw in
  let max_score := nanmax raw in
  (raw, map (clip_value 0 100) (map (rescale min_score max_score) raw)).

Definition run_feature_engineering (evs : list AccessEvent) : Scores :=
  let fs := build_all_features evs in
  let zs := calculate_role_based_zscores evs fs in
  let '(raw, gov) := calculate_governance_risk_score (length evs) zs in
  {| features := fs; zscores := zs; raw_risk_score := raw;
     governance_risk_score := gov;
     risk_category := map categorize_risk gov |}.

(** A score on the scale from 0 to 100. *)
Definition in_0_100 (v : float) : bool := (0 <=? v) && (v <=? 100).

(** One export among seven events, as [calculate_export_ratio] stores it:
    the quotient, then the product. *)
Definition one_in_seven : float := 1 / 7 * 100.

(** A number within 10^-12 of the rational [q]. *)
Definition close_to (q : Q) (v : float) : bool :=
  abs (v - of_Q q) <? of_Q (1 # 1000000000000).

End Binary64.

(* ================================================================== *)
(** * Vocabulary of the properties *)
(* ================================================================== *)

(** ** Kinds of values *)

(** A finite value. *)
Definition finite (x : f64) : Prop :=
  match x with Fin _ => True | _ => False end.

(** A value that is finite or missing (NaN), never an infinity: what every
    feature cell of a run is. *)
Definition regular (x : f64) : Prop :=
  match x with Fin _ | NaN => True | _ => False end.

(** A score within the bounds of the final scale. *)
Definition in_0_100 (v : f64) : Prop :=
  match v with Fin q => 0 <= q <= 100 | _ => False end.

(** Order on finite values. *)
Definition f64_le (x y : f64) : Prop :=
  match x, y with Fin a, Fin b => a <= b | _, _ => False end.

(** The rational values of a finite column, and their sum. *)
Fixpoint values (xs : list f64) : list Q :=
  match xs with
  | [] => []
  | Fin q :: t => q :: values t
  | _ :: t => values t
  end.

Definition Qsum (qs : list Q) : Q := fold_right Qplus 0 qs.

(** All the cells of a column hold the same value. *)
Definition all_identical (s : Series) : Prop :=
  forall a b, In a s -> In b s -> a =f= b.

(** ** Rows, users and roles *)

(** The events of user [u], in row order. *)
Definition user_events (u : string) (evs : list AccessEvent)
  : list AccessEvent :=
  filter (fun e => String.eqb (user_id e) u) evs.

(** The user of event [e] has exactly one event in the log. *)
Definition single_event_user (evs : list AccessEvent) (e : AccessEvent)
  : Prop :=
  length (user_events (user_id e) evs) = 1%nat.

(** All the events of the user of [e] touch the resource type of [e]. *)
Definition single_resource_user (evs : list AccessEvent) (e : AccessEvent)
  : Prop :=
  forall e', In e' (user_events (user_id e) evs) ->
             resource_type e' = resource_type e.

(** The role statistic the normalizer divides by: the deviation of the
    feature column [x] over all the event rows of role [r]. *)
Definition role_std (evs : list AccessEvent) (x : Series) (r : string) : f64 :=
  series_std (select r (map role evs) x).

(** The z-score of one row, from its value and the statistics of its
    role. *)
Definition zscore_value (x m s : f64) : f64 :=
  let z := f64_div (f64_sub x m) s in if is_nan z then Fin 0 else z.

(** A 0/1 flag, and the share of [k] rows among [n]. *)
Definition flag_of (b : bool) : Z := if b then 1%Z else 0%Z.

Definition share (k n : nat) : Q :=
  inject_Z (Z.of_nat k) / inject_Z (Z.of_nat n).

(** The night window as the specification words it. *)
Definition night_window (h : Z) : bool := ((22 <=? h) || (h <=? 6))%Z.

Definition night_event (e : AccessEvent) : bool :=
  night_window (dt_hour (timestamp e)).

(** ** Columns of a run *)

(** The derived columns that the output contract names. *)
Definition contract_columns : list string :=
  ([ "hour"; "day_of_week"; "week"; "month"; "date" ]
   ++ features_to_normalize
   ++ map (fun f => f ++ "_zscore")%string features_to_normalize
   ++ [ "raw_risk_score"; "governance_risk_score"; "risk_category" ])%list.

(** The numeric column [c] of the run on the log [evs]. *)
Definition pipeline_column (evs : list AccessEvent) (c : string) : Series :=
  match run_feature_engineering evs with
  | Ok out => match num_col out c with
              | Ok s => s
              | Err _ => []
              end
  | Err _ => []
  end.

(** The weighted sum of the z-score columns [zs], in the order of the
    weights [ws], accumulated on [acc]. *)
Fixpoint weighted_total (ws : list Q) (zs : list Series) (acc : Series)
  : Series :=
  match ws, zs with
  | w :: ws', z :: zs' =>
      weighted_total ws' zs' (zip_with f64_add acc (weighted w z))
  | _, _ => acc
  end.

(** Row [i] exists in both columns and is not smaller in the second. *)
Definition cell_le (i : nat) (s1 s2 : Series) : Prop :=
  exists a b, nth_error s1 i = Some a /\ nth_error s2 i = Some b /\
              f64_le a b.

(** Row [i] exists in both columns and holds the same finite value. *)
Definition cell_same (i : nat) (s1 s2 : Series) : Prop :=
  exists a b, nth_error s1 i = Some a /\ nth_error s2 i = Some b /\
              finite a /\ a =f= b.

(** The cells of a column on the rows of one user, and on the others. *)
Fixpoint pick {A} (flags : list bool) (xs : list A) : list A :=
  match flags, xs with
  | b :: fs, x :: t => if b then x :: pick fs t else pick fs t
  | _, _ => []
  end.

Definition rows_of (u : string) (evs : list AccessEvent) (s : Series)
  : Series :=
  pick (map (fun e => String.eqb (user_id e) u) evs) s.

Definition rows_not_of (u : string) (evs : list AccessEvent) (s : Series)
  : Series :=
  pick (map (fun e => negb (String.eqb (user_id e) u)) evs) s.

(** ** Sample event logs *)

(** A working day of the week of Monday 3 January 2022, at 09:00: day [d]
    of the week, counted from Monday = 0. *)
Definition weekday_morning (d : Z) : Timestamp :=
  {| dt_date := 738158 + d; dt_hour := 9; dt_dayofweek := d; dt_week := 1;
     dt_month := 1 |}.

(** An event of [user] in [role] on the resource "db", on day [d], with
    the given action and privilege counts; every other field is the same
    for all sample events. *)
Definition sample_event (user role action : string) (d : Z)
    (assigned used : Z) : AccessEvent :=
  {| user_id := user; role := role; resource_type := "db"; action := action;
     timestamp := weekday_morning d; session_duration := 30;
     access_volume := 10; success_flag := true;
     assigned_resource_count := assigned;
     actively_used_resource_count := used |}.

(** A log with a single event. *)
Definition one_event_log : list AccessEvent :=
  [ sample_event "u" "A" "read" 0 10 5 ].

(** Two logs with four users in each of two roles, one event each; user
    "u" of role "A" reads in the first log and exports in the second. *)
Definition small_log (action_of_u : string) : list AccessEvent :=
  [ sample_event "u" "A" action_of_u 0 10 5;
    sample_event "a1" "A" "read" 0 10 5;
    sample_event "a2" "A" "read" 0 10 5;
    sample_event "a3" "A" "read" 0 10 5;
    sample_event "b0" "B" "export" 0 8 4;
    sample_event "b1" "B" "read" 0 2 1;
    sample_event "b2" "B" "read" 0 2 1;
    sample_event "b3" "B" "read" 0 2 1 ].

(** A user of role "A" with five events, one a day from Monday to Friday,
    the first [exports] of which are exports. *)
Definition five_day_user (user : string) (exports : Z) : list AccessEvent :=
  map (fun d => sample_event user "A"
                  (if (d <? exports)%Z then "export" else "read") d 10 5)
      [0; 1; 2; 3; 4]%Z.

(** Role "B": one exporter with a privilege gap of 4 and eight readers
    with a gap of 1, one event each. *)
Definition role_B_events : list AccessEvent :=
  sample_event "b0" "B" "export" 0 8 4
  :: map (fun u => sample_event u "B" "read" 0 2 1)
         ["b1"; "b2"; "b3"; "b4"; "b5"; "b6"; "b7"; "b8"].

(** Two logs of 25 events that differ only in the actions of user "u":
    one export out of five events in the first, four out of five in the
    second.  Role "A" has "a0" with one event and "u", "a2", "a3" with five
    events each. *)
Definition log_with_exports (exports_of_u : Z) : list AccessEvent :=
  (sample_event "a0" "A" "read" 0 10 5
   :: five_day_user "u" exports_of_u
   ++ five_day_user "a2" 1
   ++ five_day_user "a3" 1
   ++ role_B_events)%list.

(** ** Broadcast columns *)

(** A column with one cell per row whose cells agree on the rows of the
    same user. *)
Definition broadcast_by_user (evs : list AccessEvent) (x : Series) : Prop :=
  length x = length evs /\
  forall i j ei ej vi vj,
    nth_error evs i = Some ei -> nth_error evs j = Some ej ->
    nth_error x i = Some vi -> nth_error x j = Some vj ->
    user_id ei = user_id ej -> vi = vj.

(** The same for the rows that share the user and the role. *)
Definition broadcast_by_user_role (evs : list AccessEvent) (x : Series)
  : Prop :=
  length x = length evs /\
  forall i j ei ej vi vj,
    nth_error evs i = Some ei -> nth_error evs j = Some ej ->
    nth_error x i = Some vi -> nth_error x j = Some vj ->
    user_id ei = user_id ej -> role ei = role ej -> vi = vj.

(** The names of the z-score columns, and of all the score columns. *)
Definition zscore_columns : list string :=
  map (fun f => f ++ "_zscore") features_to_normalize.

Definition score_columns : list string :=
  (zscore_columns ++ ["raw_risk_score"; "governance_risk_score"])%list.

(** The columns that are a function of the user, or of the user and the
    role, of each row. *)
Definition per_user (evs : list AccessEvent) (x : Series) : Prop :=
  exists G : string -> f64, x = map (fun e => G (user_id e)) evs.

Definition per_user_role (evs : list AccessEvent) (x : Series) : Prop :=
  exists H : string -> string -> f64,
    x = map (fun e => H (user_id e) (role e)) evs.

(** ** Events of interest *)

(** An export event, and a weekend event (Saturday = 5, Sunday = 6). *)
Definition export_event (e : AccessEvent) : bool := is_export (action e).

Definition weekend_event (e : AccessEvent) : bool :=
  (5 <=? dt_dayofweek (timestamp e))%Z.

(** ** Activity of a user *)

(** The distinct days, and the distinct weeks, on which user [u] has an
    event. *)
Definition active_days (u : string) (evs : list AccessEvent) : list Z :=
  dedup (map (fun e => dt_date (timestamp e)) (user_events u evs)).

Definition active_weeks (u : string) (evs : list AccessEvent) : list Z :=
  dedup (map (fun e => dt_week (timestamp e)) (user_events u evs)).

(** The keys of the rows of user [u] in the table with one row per pair
    of a user and a value of [g]. *)
Definition user_keys {K} `{Key K} (g : AccessEvent -> K)
    (evs : list AccessEvent) (u : string) : list (string * K) :=
  filter (fun k => keqb (fst k) u)
         (group_index (combine (map user_id evs) (map g evs))).

(** The access volume of a list of events. *)
Definition total_volume (l : list AccessEvent) : Z :=
  fold_right Z.add 0%Z (map access_volume l).

(** The spike threshold of the user of event [e]: the mean of the access
    volumes of the user plus twice their deviation; and the events above
    the threshold of their user. *)
Definition user_threshold (evs : list AccessEvent) (e : AccessEvent) : f64 :=
  f64_add
    (series_mean (map (fun a => of_Z (access_volume a))
                      (user_events (user_id e) evs)))
    (f64_mul (Fin 2)
       (series_std (map (fun a => of_Z (access_volume a))
                        (user_events (user_id e) evs)))).

Definition spike_event (evs : list AccessEvent) (e : AccessEvent) : bool :=
  f64_gtb (of_Z (access_volume e)) (user_threshold evs e).

(** A value that is a number, not negative. *)
Definition nonneg (v : f64) : Prop :=
  match v with Fin q => 0 <= q | _ => False end.

(** Every event of the user of [e] has the access volume of [e]. *)
Definition constant_volume_user (evs : list AccessEvent) (e : AccessEvent)
  : Prop :=
  forall e', In e' (user_events (user_id e) evs) ->
             access_volume e' = access_volume e.

(** The first event of user [u] in the order of the log. *)
Definition first_event (u : string) (evs : list AccessEvent)
  : option AccessEvent :=
  hd_error (user_events u evs).

(** The distinct resource types that user [u] touches. *)
Definition resource_types (u : string) (evs : list AccessEvent)
  : list string :=
  dedup (map resource_type (user_events u evs)).

(** ** Risk categories *)

(** The label that the thresholds 30 and 60 give to a score; a missing
    score is labelled "High". *)
Definition category_of (g : f64) (c : string) : Prop :=
  match g with
  | Fin q => (q <= 30 /\ c = "Low") \/ (30 < q <= 60 /\ c = "Medium")
             \/ (60 < q /\ c = "High")
  | NInf => c = "Low"
  | NaN | PInf => c = "High"
  end.

(** The severity of a label. *)
Definition severity (c : string) : nat :=
  if String.eqb c "Low" then 0
  else if String.eqb c "Medium" then 1
  else 2.

(** ** Roles *)

(** The event rows of role [r], in row order. *)
Definition role_events (r : string) (evs : list AccessEvent)
  : list AccessEvent :=
  filter (fun e => String.eqb (role e) r) evs.

(** The event [e] is the only row of its role in the log. *)
Definition single_event_role (evs : list AccessEvent) (e : AccessEvent)
  : Prop :=
  length (role_events (role e) evs) = 1%nat.

(** A column that holds 0 on the rows that satisfy [P]. *)
Definition zero_on (P : AccessEvent -> Prop) (evs : list AccessEvent)
    (x : Series) : Prop :=
  Forall2 (fun e v => P e -> v =f= Fin 0) evs x.

(** A value that is not smaller than another one: the comparison [<] of
    the machine is false (NaN is not smaller than anything). *)
Definition not_below (x y : f64) : Prop := f64_ltb x y = false.

(** ** Frames and their checks *)

(** The columns that the validation looks for. *)
Definition validated_columns : list string :=
  (required_features
   ++ map (fun f => (f ++ "_zscore")%string) required_features
   ++ ["governance_risk_score"; "risk_category"])%list.

(** The boolean tests of a number and of a score within the scale. *)
Definition is_number (v : f64) : bool :=
  match v with Fin _ => true | _ => false end.

Definition within_0_100 (v : f64) : bool :=
  f64_leb (Fin 0) v && f64_leb v (Fin 100).

(** A score that is missing or within the scale. *)
Definition missing_or_in_0_100 (v : f64) : Prop := v = NaN \/ in_0_100 v.

(** The frame of the run on a log. *)
Definition output_frame (evs : list AccessEvent) : DataFrame :=
  match run_feature_engineering evs with
  | Ok out => out
  | Err _ => {| rows := []; derived := [] |}
  end.

(** The second log of [small_log] with one more event, the only one of
    role "C", of the user "root". *)
Definition lone_admin_log : list AccessEvent :=
  (small_log "export" ++ [sample_event "root" "C" "read" 0 10 5])%list.

(** An event moved to another resource type, and a log in which user "u"
    touches two resource types (twice "db", once "vault") and user "v"
    one. *)
Definition on_resource (r : string) (e : AccessEvent) : AccessEvent :=
  {| user_id := user_id e; role := role e; resource_type := r;
     action := action e; timestamp := timestamp e;
     session_duration := session_duration e;
     access_volume := access_volume e; success_flag := success_flag e;
     assigned_resource_count := assigned_resource_count e;
     actively_used_resource_count := actively_used_resource_count e |}.

Definition two_resource_log : list AccessEvent :=
  [ sample_event "u" "A" "read" 0 10 5;
    on_resource "vault" (sample_event "u" "A" "read" 1 10 5);
    sample_event "u" "A" "read" 2 10 5;
    sample_event "v" "A" "read" 0 10 5 ].

(** ** A log for the rounding of the role mean *)

(** Role "A" is the single user "u" with seven events on working days,
    the first one an export; role "B" is [role_B_events]. *)
Definition one_in_seven_log : list AccessEvent :=
  (sample_event "u" "A" "export" 0 10 5
   :: map (fun d => sample_event "u" "A" "read" d 10 5)
          [1; 2; 3; 4; 0; 1]%Z
   ++ role_B_events)%list.

(** The run of the binary64 pipeline on that log. *)
Definition one_in_seven_run : Binary64.Scores :=
  Binary64.run_feature_engineering one_in_seven_log.

(* ================================================================== *)
(** * Properties *)
(* ================================================================== *)

(** ** Arithmetic on [f64] *)

Lemma finite_regular x : finite x -> regular x.
Proof. destruct x; simpl; auto. Qed.

Lemma Qsgn_Eq q : Qsgn q = Eq <-> q == 0.
Proof. unfold Qsgn. symmetry. apply Qeq_alt. Qed.

Lemma Qsgn_Lt q : Qsgn q = Lt <-> q < 0.
Proof. unfold Qsgn. symmetry. apply Qlt_alt. Qed.

Lemma Qsgn_Gt q : Qsgn q = Gt <-> 0 < q.
Proof. unfold Qsgn. symmetry. apply Qgt_alt. Qed.

Ltac case_sgn q :=
  let E := fresh "E" in
  destruct (Qsgn q) eqn:E;
  [ apply (proj1 (Qsgn_Eq _)) in E
  | apply (proj1 (Qsgn_Lt _)) in E
  | apply (proj1 (Qsgn_Gt _)) in E ].

Lemma f64_eq_refl x : x =f= x.
Proof. destruct x; simpl; auto; reflexivity. Qed.

Lemma f64_eq_sym x y : x =f= y -> y =f= x.
Proof. destruct x, y; simpl; auto. intros; symmetry; auto. Qed.

Lemma f64_eq_trans x y z : x =f= y -> y =f= z -> x =f= z.
Proof.
  destruct x, y, z; simpl; auto; try tauto. intros; etransitivity; eauto.
Qed.

Lemma Qle_bool_false x y : Qle_bool x y = false <-> y < x.
Proof.
  rewrite <- not_true_iff_false, Qle_bool_iff. split; intros; lra.
Qed.

Lemma f64_ltb_fin a b : f64_ltb (Fin a) (Fin b) = true <-> a < b.
Proof.
  simpl. rewrite negb_true_iff. apply Qle_bool_false.
Qed.

Lemma f64_ltb_fin_false a b : f64_ltb (Fin a) (Fin b) = false <-> b <= a.
Proof.
  simpl. rewrite negb_false_iff. apply Qle_bool_iff.
Qed.

Lemma f64_add_regular x y : finite x -> finite y -> finite (f64_add x y).
Proof. destruct x, y; simpl; auto. Qed.

Lemma f64_mul_fin x w : finite x -> finite (f64_mul x (Fin w)).
Proof. destruct x; simpl; tauto. Qed.

Lemma f64_mul_regular x w : regular x -> regular (f64_mul x (Fin w)).
Proof. destruct x; simpl; tauto. Qed.

(** Dividing finite values by a non-zero finite value is finite. *)
Lemma f64_div_fin a b : ~ b == 0 -> f64_div (Fin a) (Fin b) = Fin (a / b).
Proof.
  intros Hb. simpl. case_sgn b; auto. contradiction.
Qed.

Lemma f64_div_regular x b :
  regular x -> ~ b == 0 -> regular (f64_div x (Fin b)).
Proof.
  destruct x; simpl; try tauto. intros _ Hb. case_sgn b; simpl; auto.
  contradiction.
Qed.

(** *** The rounded square root *)

Lemma Qsqrt_nonneg q : 0 <= Qsqrt q.
Proof.
  unfold Qsqrt, Qle; simpl. rewrite Z.mul_1_r. apply Z.sqrt_nonneg.
Qed.

Lemma Qsqrt_pos q : 0 < q -> 0 < Qsqrt q.
Proof.
  intros Hq. unfold Qsqrt, Qlt; simpl. rewrite Z.mul_1_r.
  apply Z.sqrt_pos.
  assert (Hr : 0 < Qred q) by (rewrite Qred_correct; exact Hq).
  unfold Qlt in Hr; simpl in Hr. rewrite Z.mul_1_r in Hr.
  repeat apply Z.mul_pos_pos; auto; reflexivity.
Qed.

Lemma Qsqrt_zero_inv q : 0 <= q -> Qsqrt q == 0 -> q == 0.
Proof.
  intros Hq Hs. destruct (Qlt_le_dec 0 q) as [Hpos | Hle].
  - apply Qsqrt_pos in Hpos. lra.
  - lra.
Qed.

Lemma f64_sqrt_regular x : regular x -> regular (f64_sqrt x).
Proof.
  destruct x; simpl; try tauto. intros _. destruct (Qsgn q); simpl; auto.
Qed.

(** ** Sums, means and variances of columns *)

Lemma dropna_regular s : Forall regular s -> Forall finite (dropna s).
Proof.
  unfold dropna. induction 1 as [| x s Hx _ IH]; simpl; auto.
  destruct x; simpl in *; auto; contradiction.
Qed.

Lemma dropna_finite s : Forall finite s -> dropna s = s.
Proof.
  unfold dropna. induction 1 as [| x s Hx _ IH]; simpl; auto.
  destruct x; simpl in *; try contradiction. now rewrite IH.
Qed.

Lemma In_dropna x s : In x (dropna s) <-> In x s /\ is_nan x = false.
Proof.
  unfold dropna. rewrite filter_In, negb_true_iff. tauto.
Qed.

Lemma total_finite xs : Forall finite xs -> total xs = Fin (Qsum (values xs)).
Proof.
  induction 1 as [| x xs Hx _ IH]; auto.
  destruct x; simpl in Hx; try contradiction.
  change (total (Fin q :: xs)) with (f64_add (Fin q) (total xs)).
  rewrite IH. reflexivity.
Qed.

Lemma total_fin_inv xs t : total xs = Fin t -> Forall finite xs.
Proof.
  revert t. induction xs as [| x xs IH]; intros t Ht; auto.
  change (total (x :: xs)) with (f64_add x (total xs)) in Ht.
  destruct x, (total xs) eqn:E; simpl in Ht; try discriminate.
  constructor; simpl; eauto.
Qed.

Lemma length_values xs : Forall finite xs -> length (values xs) = length xs.
Proof.
  induction 1 as [| x xs Hx _ IH]; simpl; auto.
  destruct x; simpl in *; try contradiction. now rewrite IH.
Qed.

Lemma of_nat_pos n : (0 < n)%nat -> 0 < inject_Z (Z.of_nat n).
Proof.
  intros Hn. change 0 with (inject_Z 0). rewrite <- Zlt_Qlt. lia.
Qed.

Lemma series_mean_regular s : Forall regular s -> regular (series_mean s).
Proof.
  intros Hs. unfold series_mean.
  pose proof (dropna_regular s Hs) as Hd.
  destruct (dropna s) as [| x xs] eqn:E; [exact I |].
  rewrite (total_finite _ Hd). unfold of_nat.
  apply f64_div_regular; [exact I |].
  pose proof (of_nat_pos (length (x :: xs)) ltac:(simpl; lia)) as Hp.
  intros Hz. lra.
Qed.

Lemma series_sum_finite s : Forall regular s -> finite (series_sum s).
Proof.
  intros Hs. unfold series_sum.
  rewrite (total_finite _ (dropna_regular s Hs)). exact I.
Qed.

Lemma sq_dev_finite m x : finite m -> finite x -> finite (sq_dev m x).
Proof. destruct m, x; simpl; auto. Qed.

Lemma series_var_regular s : Forall regular s -> regular (series_var s).
Proof.
  intros Hs. unfold series_var.
  pose proof (dropna_regular s Hs) as Hd.
  destruct (length (dropna s) <=? 1)%nat eqn:En; simpl; auto.
  apply Nat.leb_gt in En.
  rewrite (total_finite _ Hd). unfold of_nat.
  rewrite f64_div_fin.
  2:{ pose proof (of_nat_pos (length (dropna s)) ltac:(lia)). lra. }
  rewrite total_finite.
  2:{ apply Forall_map. eapply Forall_impl; [| exact Hd].
      intros a Ha. apply sq_dev_finite; simpl; auto. }
  apply f64_div_regular; simpl; auto.
  pose proof (of_nat_pos (length (dropna s) - 1) ltac:(lia)). lra.
Qed.

Lemma series_std_regular s : Forall regular s -> regular (series_std s).
Proof.
  intros Hs. apply f64_sqrt_regular, series_var_regular, Hs.
Qed.

(** ** Grouping *)

Section GroupByFacts.
Context {K : Type} `{Key K}.

Lemma keqb_refl (k : K) : keqb k k = true.
Proof. now apply keqb_eq. Qed.

Lemma keqb_neq (a b : K) : keqb a b = false <-> a <> b.
Proof.
  rewrite <- not_true_iff_false, keqb_eq. tauto.
Qed.

Lemma existsb_keqb (k : K) l : existsb (keqb k) l = true <-> In k l.
Proof.
  rewrite existsb_exists. split.
  - intros [x [Hx E]]. apply keqb_eq in E. now subst.
  - intros Hk. exists k. split; auto. apply keqb_refl.
Qed.

Lemma In_dedup (k : K) ks : In k (dedup ks) <-> In k ks.
Proof.
  induction ks as [| a t IH]; simpl; [tauto |].
  destruct (existsb (keqb a) t) eqn:E.
  - rewrite IH. apply existsb_keqb in E. split; auto.
    intros [-> | Hk]; auto.
  - simpl. rewrite IH. tauto.
Qed.

Lemma NoDup_dedup (ks : list K) : NoDup (dedup ks).
Proof.
  induction ks as [| a t IH]; simpl; [constructor |].
  destruct (existsb (keqb a) t) eqn:E; auto.
  constructor; auto. rewrite In_dedup, <- existsb_keqb, E. discriminate.
Qed.

Lemma In_insert_key (x k : K) ks :
  In x (insert_key k ks) <-> x = k \/ In x ks.
Proof.
  induction ks as [| a t IH]; simpl.
  - intuition.
  - destruct (kleb k a); simpl; rewrite ?IH; intuition.
Qed.

Lemma NoDup_insert_key (k : K) ks :
  ~ In k ks -> NoDup ks -> NoDup (insert_key k ks).
Proof.
  induction ks as [| a t IH]; simpl; intros Hk Hnd.
  - constructor; auto.
  - destruct (kleb k a).
    + constructor; auto.
    + inversion Hnd; subst. constructor.
      * rewrite In_insert_key. intuition.
      * apply IH; auto.
Qed.

Lemma In_sort_keys (x : K) ks : In x (sort_keys ks) <-> In x ks.
Proof.
  unfold sort_keys. induction ks as [| a t IH]; simpl; [tauto |].
  rewrite In_insert_key, IH. intuition.
Qed.

Lemma NoDup_sort_keys (ks : list K) : NoDup ks -> NoDup (sort_keys ks).
Proof.
  unfold sort_keys. induction 1 as [| a t Ha _ IH]; simpl.
  - constructor.
  - apply NoDup_insert_key; auto. fold (sort_keys t).
    now rewrite In_sort_keys.
Qed.

Lemma In_group_index (k : K) keys : In k (group_index keys) <-> In k keys.
Proof. unfold group_index. now rewrite In_sort_keys, In_dedup. Qed.

Lemma NoDup_group_index (keys : list K) : NoDup (group_index keys).
Proof. apply NoDup_sort_keys, NoDup_dedup. Qed.

Lemma assoc_tabulate {R} (f : K -> R) (k : K) ks :
  In k ks -> assoc k (map (fun a => (a, f a)) ks) = Some (f k).
Proof.
  induction ks as [| a t IH]; simpl; [tauto |].
  intros Hk. destruct (keqb a k) eqn:E.
  - apply keqb_eq in E. now subst.
  - apply IH. destruct Hk as [-> | Hk]; auto.
    rewrite keqb_refl in E. discriminate.
Qed.

Lemma assoc_tabulate_none {R} (f : K -> R) (k : K) ks :
  ~ In k ks -> assoc k (map (fun a => (a, f a)) ks) = None.
Proof.
  induction ks as [| a t IH]; simpl; auto.
  intros Hk. destruct (keqb a k) eqn:E.
  - apply keqb_eq in E. subst. tauto.
  - apply IH. tauto.
Qed.

(** The entry of a key in a grouped result is the aggregate of the rows
    of that key. *)
Lemma assoc_groupby {V R} (k : K) keys (vals : list V) (agg : list V -> R) :
  In k keys ->
  assoc k (groupby_agg keys vals agg) = Some (agg (select k keys vals)).
Proof.
  intros Hk. unfold groupby_agg.
  apply (assoc_tabulate (fun a => agg (select a keys vals))).
  now apply In_group_index.
Qed.

Lemma groupby_keys {V R} keys (vals : list V) (agg : list V -> R) :
  map fst (groupby_agg keys vals agg) = group_index keys.
Proof.
  unfold groupby_agg. rewrite map_map. simpl. apply map_id.
Qed.

Lemma assoc_map_values {R S} (g : R -> S) (k : K) (s : list (K * R)) :
  assoc k (map (fun r => (fst r, g (snd r))) s) = option_map g (assoc k s).
Proof.
  induction s as [| [a r] t IH]; simpl; auto.
  destruct (keqb a k); auto.
Qed.

Lemma assoc_In {R} (k : K) (s : list (K * R)) r :
  assoc k s = Some r -> In r (map snd s).
Proof.
  induction s as [| [a r'] t IH]; simpl; [discriminate |].
  destruct (keqb a k); intros E; [inversion E |]; auto.
Qed.

Lemma Forall_select {V} (P : V -> Prop) (k : K) keys vals :
  Forall P vals -> Forall P (select k keys vals).
Proof.
  intros Hv. revert keys. induction Hv as [| v vs Hv _ IH]; intros keys.
  - destruct keys; constructor.
  - destruct keys as [| a ks]; simpl; [constructor |].
    destruct (keqb a k); auto.
Qed.

Lemma Forall_groupby {V R} (P : V -> Prop) (Q : R -> Prop) keys vals agg :
  Forall P vals ->
  (forall g, Forall P g -> Q (agg g)) ->
  Forall Q (map snd (groupby_agg keys vals agg)).
Proof.
  intros Hv Hagg. unfold groupby_agg. rewrite map_map. simpl.
  apply Forall_map, Forall_forall. intros k _.
  apply Hagg, Forall_select, Hv.
Qed.

Lemma Forall_series_map (P : f64 -> Prop) keys (s : list (K * f64)) :
  P NaN -> Forall P (map snd s) -> Forall P (series_map keys s).
Proof.
  intros Hn Hs. unfold series_map. apply Forall_map, Forall_forall.
  intros k _. destruct (assoc k s) as [v |] eqn:E; auto.
  apply assoc_In in E. rewrite Forall_forall in Hs. auto.
Qed.

(** A grouped aggregate mapped back on the rows of the same keys: each
    row gets the aggregate of its own group. *)
Lemma series_map_groupby {V} keys (vals : list V) agg :
  series_map keys (groupby_agg keys vals agg)
  = map (fun k => agg (select k keys vals)) keys.
Proof.
  unfold series_map. apply map_ext_in. intros k Hk.
  now rewrite assoc_groupby.
Qed.

Lemma select_map {E V} (kf : E -> K) (vf : E -> V) (k : K) evs :
  select k (map kf evs) (map vf evs)
  = map vf (filter (fun e => keqb (kf e) k) evs).
Proof.
  induction evs as [| e t IH]; simpl; auto.
  destruct (keqb (kf e) k); simpl; now rewrite IH.
Qed.

Lemma length_select_le {V} (k : K) keys (vals : list V) :
  (length (select k keys vals) <= length (filter (fun a => keqb a k) keys))%nat.
Proof.
  revert vals. induction keys as [| a ks IH]; intros vals; simpl; auto.
  destruct vals as [| v vs]; simpl; [lia |].
  destruct (keqb a k); simpl; specialize (IH vs); lia.
Qed.

Lemma In_select {V} (k : K) keys (vals : list V) i v :
  nth_error keys i = Some k -> nth_error vals i = Some v ->
  In v (select k keys vals).
Proof.
  revert keys vals. induction i as [| i IH]; intros [| a ks] [| w vs];
    simpl; try discriminate.
  - intros E1 E2. inversion E1; inversion E2; subst.
    rewrite keqb_refl. now left.
  - intros E1 E2. destruct (keqb a k); [right |]; eauto.
Qed.
End GroupByFacts.

(** ** Running the pipeline symbolically *)

Lemma weights_ok_risk_weights : weights_ok risk_weights = true.
Proof. vm_compute. reflexivity. Qed.

(** Unfolds the frame plumbing (column lookups, assignments, drops and the
    sequencing of the stages) and leaves the column computations folded. *)
Ltac run_plumbing :=
  cbv beta iota zeta delta
    [load_and_prepare_data
     build_all_behavioral_features calculate_avg_daily_access
     calculate_export_ratio calculate_unique_resources
     calculate_avg_session_duration
     build_all_temporal_features calculate_night_access_pct
     calculate_weekend_activity_ratio calculate_access_time_variance
     build_all_stability_features calculate_weekly_access_change
     calculate_access_spike_score
     build_all_privilege_intelligence_features calculate_privilege_usage_gap
     calculate_privilege_usage_ratio calculate_resource_access_concentration
     calculate_role_based_zscores for_each normalize_feature
     features_to_normalize
     weighted_sum risk_weights add_risk_categories
     bind set_col num_col int_col drop_cols get_assoc set_assoc del_assoc
     rows derived columns
     col_user_id col_role col_resource_type col_action col_access_volume
     col_session_duration col_assigned col_used
     String.eqb Ascii.eqb Bool.eqb String.append].

Ltac read_columns :=
  cbv beta iota zeta delta
    [num_col int_col str_col get_assoc rows derived columns
     String.eqb Ascii.eqb Bool.eqb String.append].

(** Turns [exists out, run_feature_engineering evs = Ok out /\ P out] into
    [P] of the frame the run produces. *)
Ltac run_pipeline :=
  eexists; split;
  [ unfold run_feature_engineering, calculate_governance_risk_score,
      score_with_weights;
    rewrite weights_ok_risk_weights; cbv beta iota delta [negb];
    run_plumbing; reflexivity
  | read_columns ].

(** The pipeline never fails on an event log: every column it reads is
    there when it reads it, and the guard on the weights passes. *)
Lemma run_feature_engineering_total evs :
  exists out, run_feature_engineering evs = Ok out /\ rows out = evs.
Proof. run_pipeline. reflexivity. Qed.

(** ** The rows of one user *)

(** A per-user aggregate mapped back on the rows, row by row. *)
Lemma user_agg_rows {V} (vf : AccessEvent -> V) (agg : list V -> f64) evs :
  series_map (map user_id evs) (groupby_agg (map user_id evs) (map vf evs) agg)
  = map (fun e => agg (map vf (user_events (user_id e) evs))) evs.
Proof.
  rewrite series_map_groupby, map_map. apply map_ext. intros e.
  now rewrite select_map.
Qed.

Lemma user_pct_of_rows (vf : AccessEvent -> f64) evs :
  user_pct_of (map user_id evs) (map vf evs)
  = map (fun e =>
           f64_mul (series_mean (map vf (user_events (user_id e) evs)))
                   (Fin 100)) evs.
Proof.
  unfold user_pct_of, scale100, series_map. rewrite map_map.
  apply map_ext_in. intros e He.
  rewrite (assoc_map_values (fun v => f64_mul v (Fin 100))).
  rewrite assoc_groupby by (now apply in_map).
  simpl. now rewrite select_map.
Qed.

Lemma In_user_events e evs : In e evs -> In e (user_events (user_id e) evs).
Proof.
  intros He. apply filter_In. split; auto. apply String.eqb_refl.
Qed.

Lemma Forall2_map_self {A B} (P : A -> B -> Prop) (f : A -> B) l :
  (forall a, In a l -> P a (f a)) -> Forall2 P l (map f l).
Proof.
  induction l as [| a t IH]; simpl; intros Hl; constructor; auto.
Qed.

Lemma flags_finite {E} (b : E -> bool) l :
  Forall finite (map (fun e => of_Z (flag_of (b e))) l).
Proof. apply Forall_map, Forall_forall. intros; exact I. Qed.

Lemma Qsum_flags {E} (b : E -> bool) l :
  Qsum (values (map (fun e => of_Z (flag_of (b e))) l))
  == inject_Z (Z.of_nat (length (filter b l))).
Proof.
  induction l as [| e t IH]; simpl; [reflexivity |].
  rewrite IH. destruct (b e); simpl length.
  - rewrite Nat2Z.inj_succ, <- Z.add_1_l, inject_Z_plus. reflexivity.
  - change (inject_Z (flag_of false)) with 0. lra.
Qed.

(** The mean of a column of 0/1 flags is the share of the flagged rows. *)
Lemma series_mean_flags {E} (b : E -> bool) l :
  l <> [] ->
  series_mean (map (fun e => of_Z (flag_of (b e))) l)
  =f= Fin (share (length (filter b l)) (length l)).
Proof.
  intros Hl. unfold series_mean.
  rewrite (dropna_finite _ (flags_finite b l)).
  destruct l as [| e t]; [congruence |].
  remember (e :: t) as l eqn:El.
  assert (Hlen : (0 < length l)%nat) by (subst; simpl; lia).
  destruct (map _ l) as [| x xs] eqn:Em.
  { subst l; discriminate. }
  rewrite <- Em. rewrite (total_finite _ (flags_finite b l)).
  rewrite length_map. unfold of_nat. rewrite f64_div_fin.
  - simpl. unfold share. now rewrite Qsum_flags.
  - pose proof (of_nat_pos _ Hlen). lra.
Qed.

(* ================================================================== *)
(** ** The output columns *)
(* ================================================================== *)

(** C5 (as the code has it).  The run keeps the rows of the event log as
    they are and adds the derived columns in this order.  Besides the 32
    columns of the output contract the frame carries [is_night] and
    [is_weekend]: the temporal features assign them as working columns and
    never drop them, while the working columns of the spike score and of
    the role statistics are dropped. *)
Theorem output_columns evs :
  exists out,
    run_feature_engineering evs = Ok out /\
    rows out = evs /\
    columns out =
      [ "hour"; "day_of_week"; "week"; "month"; "date";
        "avg_daily_access"; "export_ratio"; "unique_resources";
        "avg_session_duration";
        "is_night"; "night_access_pct";
        "is_weekend"; "weekend_activity_ratio";
        "access_time_variance"; "weekly_access_change"; "access_spike_score";
        "privilege_usage_gap"; "privilege_usage_ratio";
        "resource_access_concentration";
        "avg_daily_access_zscore"; "export_ratio_zscore";
        "unique_resources_zscore"; "avg_session_duration_zscore";
        "night_access_pct_zscore"; "weekend_activity_ratio_zscore";
        "access_time_variance_zscore"; "weekly_access_change_zscore";
        "access_spike_score_zscore"; "privilege_usage_gap_zscore";
        "privilege_usage_ratio_zscore";
        "resource_access_concentration_zscore";
        "raw_risk_score"; "governance_risk_score"; "risk_category" ] /\
    In "is_night" (columns out) /\ ~ In "is_night" contract_columns /\
    In "is_weekend" (columns out) /\ ~ In "is_weekend" contract_columns /\
    (forall c, In c contract_columns -> In c (columns out)).
Proof.
  run_pipeline. split; [reflexivity |]. split; [reflexivity |].
  assert (Hnot : forall c, existsb (String.eqb c) contract_columns = false ->
                           ~ In c contract_columns).
  { intros c E Hin. apply not_true_iff_false in E. apply E.
    apply existsb_exists. exists c. split; auto. apply String.eqb_refl. }
  simpl map. repeat split.
  - simpl. tauto.
  - apply Hnot. reflexivity.
  - simpl. tauto.
  - apply Hnot. reflexivity.
  - intros c Hc. simpl in Hc. simpl. tauto.
Qed.

(* ================================================================== *)
(** ** Night access *)
(* ================================================================== *)

Lemma is_night_hour_flag h : is_night_hour h = flag_of (night_window h).
Proof.
  unfold is_night_hour, night_window, flag_of.
  rewrite Z.geb_leb. reflexivity.
Qed.

(** C6.  An event is flagged as night access exactly when its hour is at
    least 22 or at most 6, so hours 6 and 22 count and hours 7 and 21 do
    not; the [is_night] column of a run holds these flags, and the
    [night_access_pct] of a row is 100 times the share of the flagged
    events among the events of the row's user. *)
Theorem night_access_boundary :
  (forall h, is_night_hour h = 1%Z <-> (22 <= h \/ h <= 6)%Z) /\
  (forall h, is_night_hour h = 0%Z <-> ~ (22 <= h \/ h <= 6)%Z) /\
  is_night_hour 6 = 1%Z /\ is_night_hour 22 = 1%Z /\
  is_night_hour 7 = 0%Z /\ is_night_hour 21 = 0%Z /\
  forall evs, exists out,
    run_feature_engineering evs = Ok out /\
    int_col out "is_night"
      = Ok (map (fun e => is_night_hour (dt_hour (timestamp e))) evs) /\
    exists pct,
      num_col out "night_access_pct" = Ok pct /\
      Forall2 (fun e v =>
                 v =f= Fin (share (length (filter night_event
                                             (user_events (user_id e) evs)))
                                  (length (user_events (user_id e) evs))
                            * 100))
              evs pct.
Proof.
  assert (H1 : forall h, is_night_hour h = 1%Z <-> (22 <= h \/ h <= 6)%Z).
  { intros h. unfold is_night_hour.
    destruct ((h >=? 22) || (h <=? 6))%Z eqn:E.
    - apply orb_true_iff in E. rewrite Z.geb_le, Z.leb_le in E. tauto.
    - apply orb_false_iff in E. rewrite Z.geb_leb, !Z.leb_gt in E.
      split; [discriminate | lia]. }
  assert (H0 : forall h, is_night_hour h = 0%Z <-> ~ (22 <= h \/ h <= 6)%Z).
  { intros h. rewrite <- H1. unfold is_night_hour.
    destruct ((h >=? 22) || (h <=? 6))%Z; split; congruence. }
  repeat (split; [first [exact H1 | exact H0 | reflexivity] |]).
  intros evs. run_pipeline. split.
  - now rewrite !map_map.
  - eexists. split; [reflexivity |].
    rewrite !map_map.
    rewrite (user_pct_of_rows
               (fun e => of_Z (is_night_hour (dt_hour (timestamp e))))).
    apply Forall2_map_self. intros e He.
    assert (Hne : user_events (user_id e) evs <> []).
    { intros E. apply In_user_events in He. rewrite E in He. exact He. }
    pose proof (series_mean_flags night_event _ Hne) as Hm.
    erewrite map_ext; [| intros a; rewrite is_night_hour_flag; reflexivity].
    fold night_event in Hm.
    change (fun a => of_Z (flag_of (night_window (dt_hour (timestamp a)))))
      with (fun a => of_Z (flag_of (night_event a))).
    destruct (series_mean _); simpl in Hm |- *; try contradiction.
    now rewrite Hm.
Qed.

(** ** Users with a single event, or a single kind of row *)

Lemma single_user_event e evs :
  In e evs -> length (user_events (user_id e) evs) = 1%nat ->
  user_events (user_id e) evs = [e].
Proof.
  intros He Hl. apply In_user_events in He.
  destruct (user_events (user_id e) evs) as [| a [| b t]]; try discriminate.
  destruct He as [-> | []]. reflexivity.
Qed.

Lemma series_var_short s : (length s <= 1)%nat -> series_var s = NaN.
Proof.
  intros Hl. unfold series_var.
  assert (Hd : (length (dropna s) <= 1)%nat).
  { unfold dropna. pose proof (filter_length_le (fun x => negb (is_nan x)) s).
    lia. }
  apply Nat.leb_le in Hd. now rewrite Hd.
Qed.

Lemma series_std_short s : (length s <= 1)%nat -> series_std s = NaN.
Proof.
  intros Hl. unfold series_std. now rewrite series_var_short.
Qed.

Lemma NoDup_all_equal {A} (a : A) l :
  NoDup l -> (forall x, In x l -> x = a) -> In a l -> l = [a].
Proof.
  intros Hnd Hall Ha. destruct l as [| x [| y t]].
  - destruct Ha.
  - f_equal. apply Hall. now left.
  - exfalso. inversion Hnd as [| ? ? Hx _]; subst. apply Hx. left.
    rewrite (Hall x), (Hall y); simpl; auto.
Qed.

Lemma In_combine_map {E A B} (f : E -> A) (g : E -> B) evs a b :
  In (a, b) (combine (map f evs) (map g evs)) <->
  exists e, In e evs /\ f e = a /\ g e = b.
Proof.
  induction evs as [| e t IH]; simpl.
  - split; [tauto | intros [e [[] _]]].
  - rewrite IH. split.
    + intros [Heq | [e' [He' HE]]].
      * inversion Heq; subst. exists e; auto.
      * exists e'; auto.
    + intros [e' [[-> | He'] [E1 E2]]].
      * left. now subst.
      * right. exists e'; auto.
Qed.

Lemma filter_map_keys {A B} (f : A -> B) (p : B -> bool) l :
  filter p (map f l) = map f (filter (fun a => p (f a)) l).
Proof.
  induction l as [| a t IH]; simpl; auto.
  destruct (p (f a)); simpl; now rewrite IH.
Qed.

Section UserKeys.
Context {K : Type} `{Key K}.
Variable g : AccessEvent -> K.
Variable evs : list AccessEvent.

Let pairs : list (string * K) := combine (map user_id evs) (map g evs).

(** The (user, value) keys of a user all of whose events carry the same
    value: exactly one. *)
Lemma user_keys_single e :
  In e evs ->
  (forall e', In e' (user_events (user_id e) evs) -> g e' = g e) ->
  filter (fun k => keqb (fst k) (user_id e)) (group_index pairs)
  = [(user_id e, g e)].
Proof.
  intros He Hall. apply NoDup_all_equal.
  - apply NoDup_filter, NoDup_group_index.
  - intros [u w] Hx. apply filter_In in Hx. destruct Hx as [Hx Hu].
    simpl in Hu. apply String.eqb_eq in Hu. subst u.
    apply (proj1 (In_group_index _ _)) in Hx.
    apply (proj1 (In_combine_map _ _ _ _ _)) in Hx.
    destruct Hx as [e' [He' [Eu Ew]]]. f_equal. rewrite <- Ew.
    apply Hall. apply filter_In. split; auto. now apply String.eqb_eq.
  - apply filter_In. split.
    + apply In_group_index, In_combine_map. exists e; auto.
    + simpl. apply String.eqb_refl.
Qed.

(** The users of the table with one row per (user, value). *)
Lemma In_pair_users {R} (vals : list R) agg e :
  In e evs ->
  In (user_id e)
     (map (fun r : string * K * f64 => fst (fst r))
          (groupby_agg pairs vals agg)).
Proof.
  intros He. apply in_map_iff.
  exists ((user_id e, g e), agg (select (user_id e, g e) pairs vals)).
  split; auto. unfold groupby_agg. apply in_map_iff.
  exists (user_id e, g e). split; auto.
  apply In_group_index, In_combine_map. exists e; auto.
Qed.

(** The rows of one user in that table, as a list of aggregates. *)
Lemma select_pair_table {R} (vals : list R) (agg : list R -> f64) u :
  select u (map (fun r : string * K * f64 => fst (fst r))
                (groupby_agg pairs vals agg))
           (map snd (groupby_agg pairs vals agg))
  = map (fun k => agg (select k pairs vals))
        (filter (fun k => keqb (fst k) u) (group_index pairs)).
Proof.
  rewrite select_map. unfold groupby_agg.
  rewrite filter_map_keys, map_map. reflexivity.
Qed.
End UserKeys.

Lemma length_group_diff_from {K} `{Key K} prev (keys : list K) vals :
  length (group_diff_from prev keys vals)
  = Nat.min (length keys) (length vals).
Proof.
  revert prev vals. induction keys as [| k ks IH]; intros prev [| v vs];
    simpl; auto.
Qed.

Lemma zip_with_map {E A B C} (h : A -> B -> C) (f : E -> A) (g : E -> B) l :
  zip_with h (map f l) (map g l) = map (fun e => h (f e) (g e)) l.
Proof.
  induction l as [| a t IH]; simpl; auto. now rewrite IH.
Qed.

Lemma fillna_map {E} (f : E -> f64) v l :
  fillna v (map f l) = map (fun e => if is_nan (f e) then v else f e) l.
Proof. unfold fillna. now rewrite map_map. Qed.

(** The weekly change of a user with a single event. *)
Lemma weekly_access_change_single (gw : AccessEvent -> Z) volume evs e :
  In e evs -> length (user_events (user_id e) evs) = 1%nat ->
  (match assoc (user_id e)
     (fillna_entries (Fin 0)
        (groupby_agg
           (map (fun r : string * Z * f64 => fst (fst r))
              (groupby_agg (combine (map user_id evs) (map gw evs)) volume
                 series_sum))
           (group_diff
              (map (fun r : string * Z * f64 => fst (fst r))
                 (groupby_agg (combine (map user_id evs) (map gw evs)) volume
                    series_sum))
              (map snd
                 (groupby_agg (combine (map user_id evs) (map gw evs)) volume
                    series_sum)))
           series_std))
   with Some v => v | None => NaN end) = Fin 0.
Proof.
  intros He Hl.
  unfold fillna_entries.
  rewrite (assoc_map_values (fun v => if is_nan v then Fin 0 else v)).
  rewrite assoc_groupby by (now apply In_pair_users).
  simpl. rewrite series_std_short; [reflexivity |].
  etransitivity; [apply length_select_le |].
  unfold groupby_agg. rewrite map_map. cbn [fst].
  rewrite filter_map_keys, length_map.
  pose proof (single_user_event e evs He Hl) as Hs.
  rewrite (user_keys_single gw evs e He); [simpl; lia |].
  intros e' He'. rewrite Hs in He'. destruct He' as [-> | []]. reflexivity.
Qed.

Lemma zip_groupby {K} `{Key K} {V A B} (h : A -> B -> f64) keys
    (vals : list V) (f : list V -> A) (g : list V -> B) :
  zip_with (fun m s => (fst m, h (snd m) (snd s)))
           (groupby_agg keys vals f) (groupby_agg keys vals g)
  = groupby_agg keys vals (fun grp => h (f grp) (g grp)).
Proof. unfold groupby_agg. now rewrite zip_with_map. Qed.

Lemma nth_error_combine_map {E A B} (f : E -> A) (g : E -> B) evs i e :
  nth_error evs i = Some e ->
  nth_error (combine (map f evs) (map g evs)) i = Some (f e, g e).
Proof.
  revert i. induction evs as [| a t IH]; intros [| i]; simpl;
    try discriminate; auto.
  intros Heq. now inversion Heq.
Qed.

(* ================================================================== *)
(** ** Users with exactly one event *)
(* ================================================================== *)

(** C8.  On every row of a user who has exactly one event in the input the
    run yields [access_time_variance = 0] and [weekly_access_change = 0]:
    the sample variance of one hour and the deviation of an empty series of
    weekly differences are NaN, and both are filled with 0. *)
Theorem single_event_fallbacks evs :
  exists out,
    run_feature_engineering evs = Ok out /\
    exists atv wac,
      num_col out "access_time_variance" = Ok atv /\
      num_col out "weekly_access_change" = Ok wac /\
      Forall2 (fun e v => single_event_user evs e -> v = Fin 0) evs atv /\
      Forall2 (fun e v => single_event_user evs e -> v = Fin 0) evs wac.
Proof.
  run_pipeline. do 2 eexists.
  split; [reflexivity |]. split; [reflexivity |]. split.
  - rewrite !map_map. unfold user_var_of.
    rewrite (user_agg_rows (fun e => of_Z (dt_hour (timestamp e)))).
    rewrite fillna_map. apply Forall2_map_self. intros e He Hs.
    rewrite series_var_short; [reflexivity |].
    rewrite length_map. unfold single_event_user in Hs. lia.
  - rewrite !map_map. unfold weekly_access_change_of, series_map.
    rewrite map_map. apply Forall2_map_self. intros e He Hs.
    now apply (weekly_access_change_single
                 (fun e => dt_week (timestamp e))).
Qed.

Lemma spike_threshold_rows evs (vol : AccessEvent -> f64) :
  spike_threshold_of (map user_id evs) (map vol evs)
  = map (fun e =>
           f64_add (series_mean (map vol (user_events (user_id e) evs)))
                   (f64_mul (Fin 2)
                      (series_std (map vol (user_events (user_id e) evs)))))
        evs.
Proof.
  unfold spike_threshold_of.
  rewrite (zip_groupby (fun m s => f64_add m (f64_mul (Fin 2) s))).
  apply (user_agg_rows vol).
Qed.

Lemma f64_add_nan_r x : f64_add x NaN = NaN.
Proof. now destruct x. Qed.

Lemma spike_flag_nan v : spike_flag v NaN = 0%Z.
Proof. unfold spike_flag, f64_gtb. reflexivity. Qed.

(** C10.  On every row of a user who has exactly one event the run yields
    [access_spike_score = 0]: the sample deviation of the single volume is
    NaN, so is the threshold [mean + 2 * std], the comparison
    [access_volume > NaN] is false, and the share of flagged events is 0. *)
Theorem single_event_spike_score evs :
  exists out,
    run_feature_engineering evs = Ok out /\
    exists score,
      num_col out "access_spike_score" = Ok score /\
      Forall2 (fun e v => single_event_user evs e -> v =f= Fin 0) evs score /\
      Forall2 (fun e t => single_event_user evs e -> t = NaN) evs
              (spike_threshold_of (map user_id evs)
                 (map (fun e => of_Z (access_volume e)) evs)) /\
      (forall e, In e evs -> single_event_user evs e ->
         series_std (map (fun a => of_Z (access_volume a))
                         (user_events (user_id e) evs)) = NaN) /\
      (forall v, spike_flag v NaN = 0%Z).
Proof.
  assert (Hstd : forall e, In e evs -> single_event_user evs e ->
            series_std (map (fun a => of_Z (access_volume a))
                            (user_events (user_id e) evs)) = NaN).
  { intros e He Hs. apply series_std_short. rewrite length_map.
    unfold single_event_user in Hs. lia. }
  assert (Hthr : Forall2 (fun e t => single_event_user evs e -> t = NaN) evs
              (spike_threshold_of (map user_id evs)
                 (map (fun e => of_Z (access_volume e)) evs))).
  { rewrite spike_threshold_rows. apply Forall2_map_self. intros e He Hs.
    rewrite (Hstd e He Hs). simpl f64_mul. apply f64_add_nan_r. }
  run_pipeline. eexists. split; [reflexivity |].
  split; [| split; [exact Hthr | split; [exact Hstd | exact spike_flag_nan]]].
  rewrite spike_threshold_rows, zip_with_map, map_map.
  rewrite (user_pct_of_rows
             (fun e => of_Z (spike_flag (of_Z (access_volume e)) _))).
  apply Forall2_map_self. intros e He Hs.
  rewrite (single_user_event e evs He Hs). cbn [map].
  rewrite (single_user_event e evs He Hs). cbn [map].
  rewrite series_std_short by (simpl; lia).
  simpl f64_mul at 2. rewrite f64_add_nan_r, spike_flag_nan.
  vm_compute. reflexivity.
Qed.

(* ================================================================== *)
(** ** Users of a single resource type *)
(* ================================================================== *)

Lemma coefficient_of_variation_single n :
  (0 < n)%nat -> coefficient_of_variation [of_nat n] = NaN.
Proof.
  intros Hn. unfold coefficient_of_variation.
  rewrite series_std_short by (simpl; lia).
  destruct (f64_gtb _ _) eqn:E.
  - destruct (series_mean [of_nat n]); reflexivity.
  - exfalso. unfold series_mean, f64_gtb in E. cbn [dropna filter of_nat is_nan negb] in E.
    unfold total, of_nat in E. cbn [fold_right f64_add length] in E.
    rewrite f64_div_fin in E by (vm_compute; discriminate).
    apply f64_ltb_fin_false in E.
    pose proof (of_nat_pos n Hn) as Hp.
    change (inject_Z (Z.of_nat 1)) with 1 in E.
    assert (Hq : (inject_Z (Z.of_nat n) + 0) / 1 == inject_Z (Z.of_nat n))
      by (field).
    rewrite Hq in E. lra.
Qed.

(** C3 (as the code has it).  On every row of a user whose events all
    touch one resource type, the run yields a
    [resource_access_concentration] of NaN, not 0: the deviation of the
    single per-resource count is the sample deviation, NaN, the guard of
    the ratio only tests the mean, and this feature has no [fillna]. *)
Theorem single_resource_concentration_nan evs :
  exists out,
    run_feature_engineering evs = Ok out /\
    exists rac,
      num_col out "resource_access_concentration" = Ok rac /\
      Forall2 (fun e v => single_resource_user evs e -> v = NaN) evs rac.
Proof.
  run_pipeline. eexists. split; [reflexivity |].
  unfold resource_access_concentration_of, series_map. rewrite map_map.
  apply Forall2_map_self. intros e He Hs.
  rewrite assoc_groupby by (now apply (In_pair_users resource_type)).
  rewrite (select_pair_table resource_type).
  rewrite (user_keys_single resource_type evs e He Hs). cbn [map].
  unfold group_size. apply coefficient_of_variation_single.
  destruct (In_nth_error _ _ He) as [i Hi].
  pose proof (nth_error_combine_map user_id resource_type evs i e Hi) as Hp.
  pose proof (map_nth_error resource_type i evs Hi) as Hr.
  pose proof (In_select _ _ _ i _ Hp Hr) as Hin.
  destruct (select _ _ _); [destruct Hin | simpl; lia].
Qed.

(** ** In exact arithmetic a zero deviation means all the values are the
    mean *)

Lemma f64_div_fin_inv x k q :
  0 < k -> f64_div x (Fin k) = Fin q -> exists t, x = Fin t /\ q = t / k.
Proof.
  intros Hk. destruct x; simpl; case_sgn k; try (exfalso; lra);
    try discriminate.
  intros Heq. inversion Heq. eauto.
Qed.

Lemma sq_dev_fin_inv m x : finite (sq_dev m x) -> finite m /\ finite x.
Proof.
  unfold sq_dev, f64_sub.
  destruct m, x; simpl; try tauto.
Qed.

Lemma Qsum_nonneg_zero (qs : list Q) :
  Forall (fun q => 0 <= q) qs -> Qsum qs == 0 -> Forall (fun q => q == 0) qs.
Proof.
  induction 1 as [| q qs Hq Hqs IH]; simpl; intros Hs; constructor.
  - assert (0 <= Qsum qs).
    { clear -Hqs. induction Hqs; simpl; lra. }
    lra.
  - apply IH.
    assert (0 <= Qsum qs).
    { clear -Hqs. induction Hqs; simpl; lra. }
    lra.
Qed.

Lemma values_sq_dev m xs :
  Forall finite xs ->
  values (map (sq_dev (Fin m)) xs)
  = map (fun a => (a + - m) * (a + - m)) (values xs).
Proof.
  induction 1 as [| x xs Hx _ IH]; simpl; auto.
  destruct x; simpl in Hx; try contradiction. simpl. now rewrite IH.
Qed.

Lemma In_values a xs : In (Fin a) xs -> In a (values xs).
Proof.
  induction xs as [| x xs IH]; simpl; [tauto |].
  intros [-> | Hin]; [now left |]. destruct x; simpl; auto.
Qed.

(** What a finite sample variance says about the column. *)
Lemma series_var_fin_inv s v :
  series_var s = Fin v ->
  exists m,
    series_mean s = Fin m /\
    Forall finite (dropna s) /\
    (1 < length (dropna s))%nat /\
    v == Qsum (map (fun a => (a + - m) * (a + - m)) (values (dropna s)))
         / inject_Z (Z.of_nat (length (dropna s) - 1)).
Proof.
  unfold series_var, series_mean. set (xs := dropna s).
  destruct (length xs <=? 1)%nat eqn:En; [discriminate |].
  apply Nat.leb_gt in En. intros Hv.
  apply f64_div_fin_inv in Hv; [| apply of_nat_pos; lia].
  destruct Hv as [t [Ht Hq]].
  pose proof (total_fin_inv _ _ Ht) as Hfin.
  assert (Hx : Forall finite xs /\ exists m,
             f64_div (total xs) (of_nat (length xs)) = Fin m).
  { destruct xs as [| x xs']; [simpl in En; lia |].
    inversion Hfin as [| ? ? Hsq Hrest]; subst.
    apply sq_dev_fin_inv in Hsq. destruct Hsq as [Hm Hx0].
    destruct (f64_div _ _) as [m | | |] eqn:Em; try contradiction.
    split; [| eauto]. constructor; auto.
    rewrite Forall_map in Hrest. eapply Forall_impl; [| exact Hrest].
    intros a Ha. now apply sq_dev_fin_inv in Ha. }
  destruct Hx as [Hxs [m Hm]]. exists m. rewrite Hm in Ht.
  destruct xs as [| x xs'] eqn:Exs; [simpl in En; lia |]. rewrite <- Exs in *.
  repeat split; auto.
  rewrite total_finite in Ht.
  - inversion Ht. rewrite Hq, <- H0, values_sq_dev by auto. reflexivity.
  - apply Forall_map. eapply Forall_impl; [| exact Hxs].
    intros a Ha. now apply sq_dev_finite.
Qed.

Lemma f64_sqrt_zero_inv x :
  f64_sqrt x =f= Fin 0 -> exists q, x = Fin q /\ q <= 0.
Proof.
  destruct x; simpl; try tauto. case_sgn q; simpl; try tauto.
  - intros _. exists q. split; auto. lra.
  - intros Hs. exists q. split; auto.
    pose proof (Qsqrt_pos q E). lra.
Qed.

(** When the deviation of a column is zero, every value that is not
    missing is the mean. *)
Lemma series_std_zero s x :
  series_std s =f= Fin 0 -> In x s ->
  x = NaN \/ exists a m, x = Fin a /\ series_mean s = Fin m /\ a == m.
Proof.
  intros Hs Hx. unfold series_std in Hs.
  apply f64_sqrt_zero_inv in Hs. destruct Hs as [v [Hv Hle]].
  apply series_var_fin_inv in Hv.
  destruct Hv as [m [Hm [Hfin [Hlen Hq]]]].
  destruct x as [a | | |]; auto.
  - right. exists a, m. repeat split; auto.
    assert (Hin : In (Fin a) (dropna s)) by (apply In_dropna; auto).
    apply In_values in Hin.
    set (k := inject_Z (Z.of_nat (length (dropna s) - 1))) in *.
    assert (Hk : 0 < k) by (apply of_nat_pos; lia).
    set (sq := map (fun a => (a + - m) * (a + - m)) (values (dropna s))) in *.
    assert (Hnn : Forall (fun q => 0 <= q) sq).
    { apply Forall_map, Forall_forall. intros b _. cbv beta.
      generalize (b + - m). intros c.
      destruct (Qlt_le_dec c 0); nra. }
    assert (Hz : Qsum sq == 0).
    { assert (0 <= Qsum sq) by (clear -Hnn; induction Hnn; simpl; lra).
      assert (Hdiv : Qsum sq == v * k) by (rewrite Hq; field; lra).
      nra. }
    pose proof (Qsum_nonneg_zero sq Hnn Hz) as Hall.
    rewrite Forall_forall in Hall.
    assert (Hsq : (a + - m) * (a + - m) == 0).
    { apply Hall. unfold sq. apply in_map_iff. eauto. }
    nra.
  - exfalso. assert (Hin : In PInf (dropna s)) by (apply In_dropna; auto).
    rewrite Forall_forall in Hfin. apply (Hfin _ Hin).
  - exfalso. assert (Hin : In NInf (dropna s)) by (apply In_dropna; auto).
    rewrite Forall_forall in Hfin. apply (Hfin _ Hin).
Qed.

(** ** The z-score of a row *)

Lemma zscore_column_zip (M S : string -> f64) xs rs :
  zscore_column xs (map M rs) (map S rs)
  = zip_with (fun xi r => zscore_value xi (M r) (S r)) xs rs.
Proof.
  unfold zscore_column, fillna. revert rs.
  induction xs as [| a xs IH]; intros [| r rs]; simpl; auto.
  now rewrite <- IH.
Qed.

Lemma zscore_column_rows roles x :
  zscore_column x (role_mean_of roles x) (role_std_of roles x)
  = zip_with (fun xi r =>
                zscore_value xi (series_mean (select r roles x))
                             (series_std (select r roles x)))
             x roles.
Proof.
  unfold role_mean_of, role_std_of. rewrite !series_map_groupby.
  apply (zscore_column_zip (fun k => series_mean (select k roles x))
                           (fun k => series_std (select k roles x))).
Qed.

Lemma zscore_value_zero_std x m s grp :
  In x grp -> m = series_mean grp -> s = series_std grp ->
  s =f= Fin 0 -> zscore_value x m s = Fin 0.
Proof.
  intros Hin -> -> Hs.
  destruct (series_std_zero grp x Hs Hin) as [-> | [a [m [-> [Hm Ham]]]]].
  - reflexivity.
  - rewrite Hm. destruct (series_std grp) as [s0 | | |]; simpl in Hs;
      try contradiction.
    unfold zscore_value. simpl f64_sub. simpl f64_div.
    assert (E0 : Qsgn s0 = Eq) by (now apply Qsgn_Eq).
    assert (E1 : Qsgn (a + - m) = Eq) by (apply Qsgn_Eq; lra).
    rewrite E0, E1. reflexivity.
Qed.

Lemma zscore_value_finite x grp :
  In x grp -> Forall regular grp ->
  finite (zscore_value x (series_mean grp) (series_std grp)).
Proof.
  intros Hin Hreg.
  pose proof (series_mean_regular grp Hreg) as Hm.
  pose proof (series_std_regular grp Hreg) as Hs.
  assert (Hx : regular x) by (rewrite Forall_forall in Hreg; auto).
  destruct (series_std grp) as [s0 | | |] eqn:Es; simpl in Hs;
    try contradiction.
  2:{ unfold zscore_value. destruct (f64_sub x (series_mean grp)); exact I. }
  case_sgn s0.
  - assert (Hz : zscore_value x (series_mean grp) (series_std grp) = Fin 0).
    { apply (zscore_value_zero_std x _ _ grp); auto. rewrite Es. exact E. }
    rewrite <- Es, Hz. exact I.
  - destruct x as [a | | |], (series_mean grp) as [m | | |];
      simpl in Hx, Hm; try contradiction; try exact I.
    unfold zscore_value. simpl f64_sub. rewrite f64_div_fin by lra. exact I.
  - destruct x as [a | | |], (series_mean grp) as [m | | |];
      simpl in Hx, Hm; try contradiction; try exact I.
    unfold zscore_value. simpl f64_sub. rewrite f64_div_fin by lra. exact I.
Qed.

Lemma Forall_zip_with_nth {A B C} (P : C -> Prop) (f : A -> B -> C) xs ys :
  (forall i a b, nth_error xs i = Some a -> nth_error ys i = Some b ->
                 P (f a b)) ->
  Forall P (zip_with f xs ys).
Proof.
  revert ys. induction xs as [| a xs IH]; intros [| b ys] Hall; simpl;
    try constructor.
  - apply (Hall 0%nat); reflexivity.
  - apply IH. intros i a' b' Ha Hb. apply (Hall (S i)); auto.
Qed.

(** Every z-score of a feature whose values are finite or missing is
    finite. *)
Lemma zscore_column_finite roles x :
  Forall regular x ->
  Forall finite (zscore_column x (role_mean_of roles x) (role_std_of roles x)).
Proof.
  intros Hx. rewrite zscore_column_rows.
  apply Forall_zip_with_nth. intros i a r Ha Hr.
  apply zscore_value_finite.
  - eapply In_select; eauto.
  - apply Forall_select, Hx.
Qed.

(** ** Every feature value is finite or missing *)

Create HintDb regular.

Lemma regular_nan : regular NaN.
Proof. exact I. Qed.

Lemma Forall_regular_of_Z l : Forall regular (map of_Z l).
Proof. apply Forall_map, Forall_forall. intros; exact I. Qed.

Lemma Forall_regular_map_fin {E} (f : E -> Q) l :
  Forall regular (map (fun e => Fin (f e)) l).
Proof. apply Forall_map, Forall_forall. intros; exact I. Qed.

Lemma Forall_regular_map_of_Z {E} (f : E -> Z) l :
  Forall regular (map (fun e => of_Z (f e)) l).
Proof. apply Forall_map, Forall_forall. intros; exact I. Qed.

Lemma Forall_scale100 {K} (s : list (K * f64)) :
  Forall regular (map snd s) -> Forall regular (map snd (scale100 s)).
Proof.
  unfold scale100. rewrite !map_map. simpl. rewrite !Forall_map.
  apply Forall_impl. intros r. apply f64_mul_regular.
Qed.

Lemma Forall_fillna_entries {K} (s : list (K * f64)) :
  Forall regular (map snd s) ->
  Forall regular (map snd (fillna_entries (Fin 0) s)).
Proof.
  unfold fillna_entries. rewrite !map_map. simpl. rewrite !Forall_map.
  apply Forall_impl. intros r Hr. destruct (is_nan (snd r)); auto. exact I.
Qed.

Lemma Forall_fillna s : Forall regular s -> Forall regular (fillna (Fin 0) s).
Proof.
  unfold fillna. rewrite Forall_map. apply Forall_impl.
  intros x Hx. destruct (is_nan x); auto. exact I.
Qed.

Lemma user_mean_of_regular users x :
  Forall regular x -> Forall regular (user_mean_of users x).
Proof.
  intros Hx. apply Forall_series_map; [exact I |].
  apply (Forall_groupby regular regular); auto. apply series_mean_regular.
Qed.

Lemma user_pct_of_regular users x :
  Forall regular x -> Forall regular (user_pct_of users x).
Proof.
  intros Hx. apply Forall_series_map; [exact I |].
  apply Forall_scale100.
  apply (Forall_groupby regular regular); auto. apply series_mean_regular.
Qed.

Lemma user_var_of_regular users x :
  Forall regular x -> Forall regular (user_var_of users x).
Proof.
  intros Hx. apply Forall_series_map; [exact I |].
  apply (Forall_groupby regular regular); auto. apply series_var_regular.
Qed.

Lemma avg_daily_access_of_regular users date volume :
  Forall regular volume ->
  Forall regular (avg_daily_access_of users date volume).
Proof.
  intros Hv. apply Forall_series_map; [exact I |].
  apply (Forall_groupby regular regular); [| apply series_mean_regular].
  apply (Forall_groupby regular regular); auto.
  intros g Hg. apply finite_regular, series_sum_finite, Hg.
Qed.

Lemma export_share_regular g : regular (export_share g).
Proof.
  unfold export_share. destruct (count_export g =? 0)%nat eqn:E; [exact I |].
  apply Nat.eqb_neq in E. unfold of_nat. rewrite f64_div_fin; [exact I |].
  assert (Hl : (0 < length g)%nat).
  { unfold count_export in E. pose proof (filter_length_le is_export g). lia. }
  pose proof (of_nat_pos _ Hl). lra.
Qed.

Lemma export_ratio_of_regular users actions :
  Forall regular (export_ratio_of users actions).
Proof.
  apply Forall_series_map; [exact I |]. apply Forall_scale100.
  destruct (existsb is_export actions).
  - apply (Forall_groupby (fun _ => True) regular).
    + apply Forall_forall. auto.
    + intros g _. apply export_share_regular.
  - rewrite map_map. apply Forall_map, Forall_forall. intros; exact I.
Qed.

Lemma group_diff_from_regular {K} `{Key K} prev (keys : list K) vals :
  Forall finite (map snd prev) -> Forall finite vals ->
  Forall regular (group_diff_from prev keys vals).
Proof.
  intros Hp Hv. revert prev keys Hp.
  induction Hv as [| v vs Hv _ IH]; intros prev [| k ks] Hp; simpl;
    try constructor.
  - destruct (assoc k prev) as [p |] eqn:E; [| exact I].
    apply assoc_In in E. rewrite Forall_forall in Hp. specialize (Hp _ E).
    destruct v, p; simpl in *; try contradiction; exact I.
  - apply IH. constructor; auto.
Qed.

Lemma weekly_access_change_of_regular users week volume :
  Forall regular volume ->
  Forall regular (weekly_access_change_of users week volume).
Proof.
  intros Hv. apply Forall_series_map; [exact I |].
  apply Forall_fillna_entries.
  apply (Forall_groupby regular regular); [| apply series_std_regular].
  apply group_diff_from_regular; [constructor |].
  apply (Forall_groupby regular finite); auto.
  intros g Hg. apply series_sum_finite, Hg.
Qed.

Lemma replace_zero_by_one_nonzero z : ~ inject_Z (replace_zero_by_one z) == 0.
Proof.
  unfold replace_zero_by_one. destruct (z =? 0)%Z eqn:E.
  - discriminate.
  - apply Z.eqb_neq in E. change 0 with (inject_Z 0).
    rewrite inject_Z_injective. exact E.
Qed.

Lemma privilege_usage_ratio_of_regular users assigned used :
  Forall regular (privilege_usage_ratio_of users assigned used).
Proof.
  apply Forall_series_map; [exact I |].
  rewrite map_map. apply Forall_map, Forall_forall. intros r _. cbn [snd].
  unfold of_Z. rewrite f64_div_fin by apply replace_zero_by_one_nonzero.
  exact I.
Qed.

Lemma coefficient_of_variation_regular x :
  Forall regular x -> regular (coefficient_of_variation x).
Proof.
  intros Hx. unfold coefficient_of_variation.
  pose proof (series_mean_regular x Hx) as Hm.
  pose proof (series_std_regular x Hx) as Hs.
  destruct (f64_gtb (series_mean x) (Fin 0)) eqn:E; [| exact I].
  destruct (series_mean x) as [m | | |]; simpl in Hm; try contradiction.
  - unfold f64_gtb in E. apply f64_ltb_fin in E.
    apply f64_div_regular; auto. lra.
  - discriminate.
Qed.

Lemma resource_access_concentration_of_regular users resources :
  Forall regular (resource_access_concentration_of users resources).
Proof.
  apply Forall_series_map; [exact I |].
  apply (Forall_groupby regular regular);
    [| apply coefficient_of_variation_regular].
  apply (Forall_groupby (fun _ => True) regular).
  - apply Forall_forall. auto.
  - intros g _. exact I.
Qed.

#[export] Hint Resolve Forall_regular_of_Z Forall_regular_map_fin
  Forall_regular_map_of_Z Forall_fillna user_mean_of_regular
  user_pct_of_regular user_var_of_regular avg_daily_access_of_regular
  export_ratio_of_regular weekly_access_change_of_regular
  privilege_usage_ratio_of_regular resource_access_concentration_of_regular
  : regular.

(** ** In exact arithmetic the raw score is finite *)

Lemma zeros_finite n : Forall finite (zeros n).
Proof. apply Forall_forall. intros x Hx. apply repeat_spec in Hx. now subst. Qed.

Lemma add_weighted_finite acc w z :
  Forall finite acc -> Forall finite z ->
  Forall finite (zip_with f64_add acc (weighted w z)).
Proof.
  intros Ha. revert z. induction Ha as [| a acc Ha _ IH]; intros z Hz;
    simpl; [constructor |].
  destruct Hz as [| v z Hv Hz]; simpl; constructor; auto.
  apply f64_add_regular; auto. now apply f64_mul_fin.
Qed.

#[export] Hint Resolve zeros_finite add_weighted_finite zscore_column_finite
  : regular.

(** ** Minimum, maximum and the rescaling *)

Lemma fold_min_spec xs x :
  Forall finite (x :: xs) ->
  exists m, fold_left f64_min xs x = Fin m /\ In (Fin m) (x :: xs) /\
            forall q, In (Fin q) (x :: xs) -> m <= q.
Proof.
  revert x. induction xs as [| y ys IH]; intros x Hfin.
  - inversion Hfin as [| ? ? Hx _]; subst. destruct x; try contradiction.
    exists q. simpl. repeat split; auto.
    intros q' [Heq | []]. inversion Heq. lra.
  - inversion Hfin as [| ? ? Hx Hrest]; subst.
    inversion Hrest as [| ? ? Hy Hys]; subst.
    destruct x as [a | | |], y as [b | | |]; try contradiction.
    simpl fold_left. unfold f64_min at 2.
    destruct (f64_ltb (Fin b) (Fin a)) eqn:E.
    + apply f64_ltb_fin in E.
      destruct (IH (Fin b)) as [m [Hm [Hin Hle]]]; [constructor; auto |].
      exists m. repeat split; auto.
      * now right.
      * intros q [Heq | Hq]; [| now apply Hle].
        inversion Heq; subst. specialize (Hle b (or_introl eq_refl)). lra.
    + apply f64_ltb_fin_false in E.
      destruct (IH (Fin a)) as [m [Hm [Hin Hle]]]; [constructor; auto |].
      exists m. repeat split; auto.
      * destruct Hin as [Hin | Hin]; [now left | right; now right].
      * intros q [Heq | [Heq | Hq]].
        -- apply Hle. now left.
        -- inversion Heq; subst. specialize (Hle a (or_introl eq_refl)). lra.
        -- apply Hle. now right.
Qed.

Lemma fold_max_spec xs x :
  Forall finite (x :: xs) ->
  exists m, fold_left f64_max xs x = Fin m /\ In (Fin m) (x :: xs) /\
            forall q, In (Fin q) (x :: xs) -> q <= m.
Proof.
  revert x. induction xs as [| y ys IH]; intros x Hfin.
  - inversion Hfin as [| ? ? Hx _]; subst. destruct x; try contradiction.
    exists q. simpl. repeat split; auto.
    intros q' [Heq | []]. inversion Heq. lra.
  - inversion Hfin as [| ? ? Hx Hrest]; subst.
    inversion Hrest as [| ? ? Hy Hys]; subst.
    destruct x as [a | | |], y as [b | | |]; try contradiction.
    simpl fold_left. unfold f64_max at 2.
    destruct (f64_ltb (Fin a) (Fin b)) eqn:E.
    + apply f64_ltb_fin in E.
      destruct (IH (Fin b)) as [m [Hm [Hin Hle]]]; [constructor; auto |].
      exists m. repeat split; auto.
      * now right.
      * intros q [Heq | Hq]; [| now apply Hle].
        inversion Heq; subst. specialize (Hle b (or_introl eq_refl)). lra.
    + apply f64_ltb_fin_false in E.
      destruct (IH (Fin a)) as [m [Hm [Hin Hle]]]; [constructor; auto |].
      exists m. repeat split; auto.
      * destruct Hin as [Hin | Hin]; [now left | right; now right].
      * intros q [Heq | [Heq | Hq]].
        -- apply Hle. now left.
        -- inversion Heq; subst. specialize (Hle a (or_introl eq_refl)). lra.
        -- apply Hle. now right.
Qed.

(** The extremes of a non-empty finite column. *)
Lemma series_min_max_spec raw :
  Forall finite raw -> raw <> [] ->
  exists lo hi,
    series_min raw = Fin lo /\ series_max raw = Fin hi /\
    In (Fin lo) raw /\ In (Fin hi) raw /\
    forall q, In (Fin q) raw -> lo <= q <= hi.
Proof.
  intros Hfin Hne. unfold series_min, series_max.
  rewrite (dropna_finite _ Hfin).
  destruct raw as [| x xs]; [congruence |].
  destruct (fold_min_spec xs x Hfin) as [lo [Hlo [Hinlo Hle]]].
  destruct (fold_max_spec xs x Hfin) as [hi [Hhi [Hinhi Hge]]].
  exists lo, hi. repeat split; auto.
Qed.

Lemma clip_in_range q :
  0 <= q <= 100 -> clip_value (Fin 0) (Fin 100) (Fin q) = Fin q.
Proof.
  intros [H0 H1]. unfold clip_value, f64_gtb.
  rewrite (proj2 (f64_ltb_fin_false q 0) H0).
  rewrite (proj2 (f64_ltb_fin_false 100 q) H1). reflexivity.
Qed.

Lemma rescale_fin lo hi q :
  lo < hi ->
  rescale (Fin lo) (Fin hi) (Fin q)
  = Fin ((q + - lo) / (hi + - lo) * 100).
Proof.
  intros Hlt. unfold rescale, f64_sub. simpl f64_neg. simpl f64_add.
  rewrite f64_div_fin by lra. reflexivity.
Qed.

(** On a finite raw column that is not constant, the clipped min-max
    scores lie in [0, 100] and attain both ends. *)
Lemma min_max_scale_range raw :
  Forall finite raw -> ~ all_identical raw ->
  Forall in_0_100 (clip (Fin 0) (Fin 100) (min_max_scale raw)) /\
  Exists (fun v => v =f= Fin 0) (clip (Fin 0) (Fin 100) (min_max_scale raw)) /\
  Exists (fun v => v =f= Fin 100)
         (clip (Fin 0) (Fin 100) (min_max_scale raw)).
Proof.
  intros Hfin Hnot.
  assert (Hne : raw <> []).
  { intros ->. apply Hnot. intros a b []. }
  destruct (series_min_max_spec raw Hfin Hne)
    as [lo [hi [Hmin [Hmax [Hinlo [Hinhi Hbounds]]]]]].
  assert (Hlt : lo < hi).
  { destruct (Qlt_le_dec lo hi) as [Hlt | Hge]; auto.
    exfalso. apply Hnot. intros a b Ha Hb.
    rewrite Forall_forall in Hfin.
    pose proof (Hfin a Ha) as Hfa. pose proof (Hfin b Hb) as Hfb.
    destruct a as [p | | |], b as [q | | |]; try contradiction.
    simpl. pose proof (Hbounds p Ha). pose proof (Hbounds q Hb). lra. }
  assert (Hscale : forall q, In (Fin q) raw ->
            clip_value (Fin 0) (Fin 100)
              (rescale (series_min raw) (series_max raw) (Fin q))
            = Fin ((q + - lo) / (hi + - lo) * 100) /\
            0 <= (q + - lo) / (hi + - lo) * 100 <= 100).
  { intros q Hq. rewrite Hmin, Hmax, rescale_fin by auto.
    pose proof (Hbounds q Hq) as [Hl Hh].
    assert (Hd : 0 < hi + - lo) by lra.
    assert (Hr : 0 <= (q + - lo) / (hi + - lo) <= 1).
    { split.
      - apply Qle_shift_div_l; auto. lra.
      - apply Qle_shift_div_r; auto. lra. }
    split; [apply clip_in_range |]; lra. }
  unfold clip, min_max_scale. rewrite map_map. repeat split.
  - apply Forall_map, Forall_forall. intros x Hx.
    rewrite Forall_forall in Hfin. pose proof (Hfin x Hx) as Hfx.
    destruct x as [q | | |]; try contradiction.
    destruct (Hscale q Hx) as [-> Hr]. exact Hr.
  - apply Exists_exists.
    exists (clip_value (Fin 0) (Fin 100)
              (rescale (series_min raw) (series_max raw) (Fin lo))).
    split; [apply in_map_iff; eauto |].
    destruct (Hscale lo Hinlo) as [-> _]. simpl. field. lra.
  - apply Exists_exists.
    exists (clip_value (Fin 0) (Fin 100)
              (rescale (series_min raw) (series_max raw) (Fin hi))).
    split; [apply in_map_iff; eauto |].
    destruct (Hscale hi Hinhi) as [-> _]. simpl. field. lra.
Qed.

(** The heart of C9: on a constant finite raw column every score is the
    NaN of 0/0, which the clip leaves alone. *)
Lemma min_max_scale_constant raw :
  Forall finite raw -> all_identical raw ->
  Forall (fun v => v = NaN) (clip (Fin 0) (Fin 100) (min_max_scale raw)).
Proof.
  intros Hfin Hall. unfold clip, min_max_scale. rewrite map_map.
  apply Forall_map, Forall_forall. intros x Hx.
  assert (Hne : raw <> []) by (intros ->; destruct Hx).
  destruct (series_min_max_spec raw Hfin Hne)
    as [lo [hi [Hmin [Hmax [Hinlo [Hinhi Hbounds]]]]]].
  rewrite Forall_forall in Hfin. pose proof (Hfin x Hx) as Hfx.
  destruct x as [q | | |]; try contradiction.
  pose proof (Hall _ _ Hx Hinlo) as H1. pose proof (Hall _ _ Hinhi Hinlo) as H2.
  simpl in H1, H2. rewrite Hmin, Hmax.
  unfold rescale, f64_sub. simpl f64_neg. simpl f64_add. simpl f64_div.
  assert (E0 : Qsgn (hi + - lo) = Eq) by (apply Qsgn_Eq; lra).
  assert (E1 : Qsgn (q + - lo) = Eq) by (apply Qsgn_Eq; lra).
  rewrite E0, E1. reflexivity.
Qed.

Lemma categorize_risk_nan : categorize_risk NaN = "High"%string.
Proof. reflexivity. Qed.

(** ** Every derived column has one cell per row *)

Lemma length_zip_with {A B C} (f : A -> B -> C) xs ys :
  length (zip_with f xs ys) = Nat.min (length xs) (length ys).
Proof.
  revert ys. induction xs as [| a xs IH]; intros [| b ys]; simpl; auto.
Qed.

Lemma length_series_map {K} `{Key K} (keys : list K) s :
  length (series_map keys s) = length keys.
Proof. apply length_map. Qed.

Lemma length_int_map {K} `{Key K} (keys : list K) s :
  length (int_map keys s) = length keys.
Proof. apply length_map. Qed.

Lemma length_fillna v s : length (fillna v s) = length s.
Proof. apply length_map. Qed.

Lemma length_clip lo hi s : length (clip lo hi s) = length s.
Proof. apply length_map. Qed.

Lemma length_min_max_scale s : length (min_max_scale s) = length s.
Proof. apply length_map. Qed.

Lemma length_weighted w s : length (weighted w s) = length s.
Proof. apply length_map. Qed.

Lemma length_zeros n : length (zeros n) = n.
Proof. apply repeat_length. Qed.

Lemma length_zscore_column x m s :
  length (zscore_column x m s)
  = Nat.min (Nat.min (length x) (length m)) (length s).
Proof.
  unfold zscore_column. now rewrite length_fillna, !length_zip_with.
Qed.

Create Rewrite HintDb len.

#[export] Hint Rewrite @length_zip_with @length_map @length_series_map
  @length_int_map length_fillna length_clip length_min_max_scale
  length_weighted length_zeros length_zscore_column Nat.min_id : len.

(** Closes [length column = length evs] for a column of the run. *)
Ltac column_length :=
  unfold avg_daily_access_of, export_ratio_of, unique_resources_of,
    user_mean_of, user_pct_of, user_var_of, weekly_access_change_of,
    spike_threshold_of, privilege_usage_gap_of, privilege_usage_ratio_of,
    resource_access_concentration_of, role_mean_of, role_std_of;
  autorewrite with len; reflexivity.

(* ================================================================== *)
(** ** The raw score, row by row *)
(* ================================================================== *)

Lemma weighted_total_finite ws zs acc :
  Forall finite acc -> Forall (Forall finite) zs ->
  Forall finite (weighted_total ws zs acc).
Proof.
  intros Ha Hz. revert ws acc Ha.
  induction Hz as [| z zs Hz _ IH]; intros [| w ws] acc Ha; simpl; auto.
  apply IH, add_weighted_finite; auto.
Qed.

Lemma run_scoring evs :
  exists out,
    run_feature_engineering evs = Ok out /\
    exists zs,
      Forall2 (fun wt z => num_col out (fst wt) = Ok z) risk_weights zs /\
      Forall (Forall finite) zs /\
      Forall (fun z => length z = length evs) zs /\
      num_col out "raw_risk_score"
        = Ok (weighted_total (map snd risk_weights) zs
                             (zeros (length evs))) /\
      num_col out "governance_risk_score"
        = Ok (clip (Fin 0) (Fin 100)
                (min_max_scale
                   (weighted_total (map snd risk_weights) zs
                                   (zeros (length evs))))).
Proof.
  run_pipeline. unfold risk_weights. eexists. split.
  { repeat (apply Forall2_cons; [read_columns; reflexivity |]).
    apply Forall2_nil. }
  split; [| split; [| split; reflexivity]].
  - repeat (apply Forall_cons; [auto 6 with regular |]). apply Forall_nil.
  - repeat (apply Forall_cons; [column_length |]). apply Forall_nil.
Qed.

Lemma pipeline_column_eq evs out c s :
  run_feature_engineering evs = Ok out -> num_col out c = Ok s ->
  pipeline_column evs c = s.
Proof. unfold pipeline_column. now intros -> ->. Qed.

(** ** Monotonicity of the score in the z-scores of a row *)

Lemma nth_error_zip_with {A B C} (f : A -> B -> C) xs ys i a b :
  nth_error xs i = Some a -> nth_error ys i = Some b ->
  nth_error (zip_with f xs ys) i = Some (f a b).
Proof.
  revert ys i. induction xs as [| x xs IH]; intros [| y ys] [| i]; simpl;
    try discriminate; auto.
  intros Ha Hb. now inversion Ha; inversion Hb.
Qed.

Lemma weighted_total_mono i ws zs1 zs2 acc1 acc2 :
  Forall (fun w => 0 <= w) ws ->
  Forall2 (cell_le i) zs1 zs2 -> cell_le i acc1 acc2 ->
  cell_le i (weighted_total ws zs1 acc1) (weighted_total ws zs2 acc2).
Proof.
  intros Hw Hz. revert ws Hw acc1 acc2.
  induction Hz as [| z1 z2 zs1 zs2 Hz _ IH]; intros [| w ws] Hw acc1 acc2 Ha;
    simpl; auto.
  inversion Hw as [| ? ? Hw0 Hws]; subst.
  apply IH; auto.
  destruct Ha as [a1 [a2 [Ha1 [Ha2 Hle]]]].
  destruct Hz as [v1 [v2 [Hv1 [Hv2 Hvle]]]].
  exists (f64_add a1 (f64_mul v1 (Fin w))), (f64_add a2 (f64_mul v2 (Fin w))).
  split; [| split].
  - apply nth_error_zip_with; auto.
    now apply (map_nth_error (fun v => f64_mul v (Fin w))).
  - apply nth_error_zip_with; auto.
    now apply (map_nth_error (fun v => f64_mul v (Fin w))).
  - destruct a1, a2, v1, v2; simpl in *; try contradiction. nra.
Qed.

Lemma scaled_value lo hi q :
  lo < hi -> lo <= q <= hi ->
  clip_value (Fin 0) (Fin 100) (rescale (Fin lo) (Fin hi) (Fin q))
  = Fin ((q + - lo) / (hi + - lo) * 100).
Proof.
  intros Hlt [Hl Hh]. rewrite rescale_fin by auto.
  assert (Hd : 0 < hi + - lo) by lra.
  assert (Hr : 0 <= (q + - lo) / (hi + - lo) <= 1).
  { split.
    - apply Qle_shift_div_l; auto. lra.
    - apply Qle_shift_div_r; auto. lra. }
  apply clip_in_range. lra.
Qed.

Lemma scaled_value_constant lo hi q :
  lo == hi -> q == lo ->
  clip_value (Fin 0) (Fin 100) (rescale (Fin lo) (Fin hi) (Fin q)) = NaN.
Proof.
  intros H1 H2. unfold rescale, f64_sub. simpl f64_neg. simpl f64_add.
  simpl f64_div.
  assert (E0 : Qsgn (hi + - lo) = Eq) by (apply Qsgn_Eq; lra).
  assert (E1 : Qsgn (q + - lo) = Eq) by (apply Qsgn_Eq; lra).
  rewrite E0, E1. reflexivity.
Qed.

Lemma f64_ltb_nan_r x : f64_ltb x NaN = false.
Proof. now destruct x. Qed.

(** With the same extremes, a raw score that is not smaller is rescaled to
    a score that is not smaller. *)
Lemma min_max_scale_mono raw1 raw2 i r1 r2 :
  Forall finite raw1 -> Forall finite raw2 ->
  nth_error raw1 i = Some r1 -> nth_error raw2 i = Some r2 ->
  f64_le r1 r2 ->
  series_min raw1 =f= series_min raw2 ->
  series_max raw1 =f= series_max raw2 ->
  f64_ltb (clip_value (Fin 0) (Fin 100)
             (rescale (series_min raw2) (series_max raw2) r2))
          (clip_value (Fin 0) (Fin 100)
             (rescale (series_min raw1) (series_max raw1) r1)) = false.
Proof.
  intros Hf1 Hf2 Hn1 Hn2 Hle Hmin Hmax.
  assert (Hne1 : raw1 <> []) by (intros ->; destruct i; discriminate).
  assert (Hne2 : raw2 <> []) by (intros ->; destruct i; discriminate).
  destruct (series_min_max_spec raw1 Hf1 Hne1)
    as [lo1 [hi1 [Hlo1 [Hhi1 [_ [_ Hb1]]]]]].
  destruct (series_min_max_spec raw2 Hf2 Hne2)
    as [lo2 [hi2 [Hlo2 [Hhi2 [_ [_ Hb2]]]]]].
  rewrite Hlo1, Hlo2 in Hmin. rewrite Hhi1, Hhi2 in Hmax.
  simpl in Hmin, Hmax. rewrite Hlo1, Hhi1, Hlo2, Hhi2.
  apply nth_error_In in Hn1, Hn2.
  destruct r1 as [q1 | | |], r2 as [q2 | | |]; simpl in Hle;
    try contradiction.
  pose proof (Hb1 q1 Hn1) as B1. pose proof (Hb2 q2 Hn2) as B2.
  destruct (Qlt_le_dec lo1 hi1) as [Hlt | Hge].
  - rewrite (scaled_value lo1 hi1 q1) by auto.
    rewrite (scaled_value lo2 hi2 q2) by (auto; lra).
    apply f64_ltb_fin_false.
    assert (Hd1 : 0 < hi1 + - lo1) by lra.
    assert (Hd2 : 0 < hi2 + - lo2) by lra.
    assert (Heq : (q1 + - lo1) / (hi1 + - lo1)
                  <= (q2 + - lo2) / (hi2 + - lo2)).
    { rewrite <- Hmin, <- Hmax. unfold Qdiv.
      apply Qmult_le_compat_r; [lra |].
      apply Qlt_le_weak, Qinv_lt_0_compat, Hd1. }
    lra.
  - rewrite (scaled_value_constant lo1 hi1 q1) by lra.
    apply f64_ltb_nan_r.
Qed.

(* ================================================================== *)
(** ** The scoring columns of a run *)
(* ================================================================== *)

Lemma scoring_columns evs :
  exists out,
    run_feature_engineering evs = Ok out /\
    exists raw,
      num_col out "raw_risk_score" = Ok raw /\
      Forall finite raw /\
      length raw = length evs /\
      num_col out "governance_risk_score"
        = Ok (clip (Fin 0) (Fin 100) (min_max_scale raw)) /\
      str_col out "risk_category"
        = Ok (map categorize_risk
                  (clip (Fin 0) (Fin 100) (min_max_scale raw))).
Proof.
  run_pipeline. eexists. split; [reflexivity |].
  split; [| split; [| split; reflexivity]].
  - repeat apply add_weighted_finite; auto 6 with regular.
  - column_length.
Qed.

(** C9.  When all the raw scores of a run are the same, the rescaling
    divides 0 by 0: every [governance_risk_score] is NaN, the clip to
    [0, 100] leaves it NaN, and [categorize_risk] labels every row "High"
    because both comparisons with NaN are false. *)
Theorem constant_raw_scores_nan evs :
  all_identical (pipeline_column evs "raw_risk_score") ->
  exists out gov cat,
    run_feature_engineering evs = Ok out /\
    num_col out "governance_risk_score" = Ok gov /\
    str_col out "risk_category" = Ok cat /\
    length gov = length evs /\ length cat = length evs /\
    Forall (fun v => v = NaN) gov /\
    Forall (fun c => c = "High"%string) cat /\
    f64_leb NaN (Fin 30) = false /\ f64_leb NaN (Fin 60) = false /\
    clip_value (Fin 0) (Fin 100) NaN = NaN.
Proof.
  intros Hall.
  destruct (scoring_columns evs)
    as [out [Hrun [raw [Hraw [Hfin [Hlen [Hgov Hcat]]]]]]].
  rewrite (pipeline_column_eq evs out _ raw Hrun Hraw) in Hall.
  exists out. do 2 eexists.
  split; [exact Hrun |]. split; [exact Hgov |]. split; [exact Hcat |].
  pose proof (min_max_scale_constant raw Hfin Hall) as Hnan.
  autorewrite with len. repeat split; auto.
  apply Forall_map. eapply Forall_impl; [| exact Hnan].
  intros v ->. reflexivity.
Qed.

Lemma not_all_identical_cells raw i j a b :
  nth_error raw i = Some a -> nth_error raw j = Some b ->
  f64_eqb a b = false -> finite a -> finite b -> ~ all_identical raw.
Proof.
  intros Ha Hb Hne Hfa Hfb Hall.
  apply nth_error_In in Ha, Hb. specialize (Hall a b Ha Hb).
  destruct a, b; simpl in *; try contradiction.
  apply Qeq_bool_iff in Hall. congruence.
Qed.

Lemma all_identical_cells raw q :
  forallb (fun v => f64_eqb v (Fin q)) raw = true -> all_identical raw.
Proof.
  intros Hall a b Ha Hb. rewrite forallb_forall in Hall.
  pose proof (Hall a Ha) as H1. pose proof (Hall b Hb) as H2.
  destruct a, b; simpl in *; try discriminate.
  apply Qeq_bool_iff in H1, H2. lra.
Qed.

Lemma constant_raw_scores_nan_witness :
  all_identical (pipeline_column one_event_log "raw_risk_score") /\
  exists out gov cat,
    run_feature_engineering one_event_log = Ok out /\
    num_col out "governance_risk_score" = Ok gov /\
    str_col out "risk_category" = Ok cat /\
    length gov = length one_event_log /\
    length cat = length one_event_log /\
    Forall (fun v => v = NaN) gov /\
    Forall (fun c => c = "High"%string) cat /\
    f64_leb NaN (Fin 30) = false /\ f64_leb NaN (Fin 60) = false /\
    clip_value (Fin 0) (Fin 100) NaN = NaN.
Proof.
  assert (Hall : all_identical
                   (pipeline_column one_event_log "raw_risk_score")).
  { apply (all_identical_cells _ 0). vm_compute. reflexivity. }
  split; [exact Hall |].
  exact (constant_raw_scores_nan one_event_log Hall).
Defined.

(* ================================================================== *)
(** ** A zero deviation in binary64 *)
(* ================================================================== *)

(** The exact model divides 0 by 0 whenever the deviation of a role is 0:
    there every cell of the role is the mean.  On the machine the
    deviation of equal cells is 0 as well (Welford's recurrence stays on
    the first cell), but the mean is the quotient of a compensated sum by
    the count and need not be the cell. *)

(** C2.  The claim fails on [one_in_seven_log].  The user of role "A"
    exports once in seven events: [export_ratio] is [1 / 7 * 100]
    (14.285714285714285) on the seven rows of the role, the deviation of
    the role is exactly 0, the mean of the role is above the cells
    (14.285714285714286), and the z-score of the seven rows is
    [(x - mean) / 0 = -inf], which [fillna(0)] leaves as it is: it is
    not 0. *)
Theorem zero_std_zscore_infinite :
  select "A" (map role one_in_seven_log)
         (Binary64.column (Binary64.features one_in_seven_run)
                          "export_ratio")
  = repeat Binary64.one_in_seven 7 /\
  Binary64.role_std one_in_seven_log
    (Binary64.column (Binary64.features one_in_seven_run) "export_ratio")
    "A"
  = PrimFloat.zero /\
  PrimFloat.ltb Binary64.one_in_seven
    (Binary64.role_mean one_in_seven_log
       (Binary64.column (Binary64.features one_in_seven_run) "export_ratio")
       "A")
  = true /\
  select "A" (map role one_in_seven_log)
         (Binary64.column (Binary64.zscores one_in_seven_run)
                          "export_ratio_zscore")
  = repeat PrimFloat.neg_infinity 7.
Proof. vm_compute. repeat split. Qed.

(** C1.  The claim fails on the same log.  The raw scores are not all the
    same: [-inf] on the seven rows of role "A", numbers on the rows of
    role "B", the minimum below the maximum.  The minimum is [-inf], so
    the rescaling is [(-inf + inf) / inf] on the rows of role "A" and
    [inf / inf] on the others: every [governance_risk_score] is NaN, which
    the clip leaves.  No row is within [0, 100], and every row is labelled
    "High". *)
Theorem governance_score_not_a_number :
  length (Binary64.governance_risk_score one_in_seven_run)
  = length one_in_seven_log /\
  select "A" (map role one_in_seven_log)
         (Binary64.raw_risk_score one_in_seven_run)
  = repeat PrimFloat.neg_infinity 7 /\
  forallb PrimFloat.is_finite
          (select "B" (map role one_in_seven_log)
                  (Binary64.raw_risk_score one_in_seven_run))
  = true /\
  PrimFloat.ltb (Binary64.nanmin (Binary64.raw_risk_score one_in_seven_run))
                (Binary64.nanmax (Binary64.raw_risk_score one_in_seven_run))
  = true /\
  Binary64.governance_risk_score one_in_seven_run
  = repeat PrimFloat.nan 16 /\
  existsb Binary64.in_0_100 (Binary64.governance_risk_score one_in_seven_run)
  = false /\
  Binary64.risk_category one_in_seven_run = repeat "High" 16.
Proof. vm_compute. repeat split. Qed.

(** Away from a zero deviation the two models agree up to rounding: the
    scores of user "u" on the two logs of [log_with_exports], 4800/109 and
    3200/79 in exact arithmetic, are met within 10^-12 in binary64. *)
Example binary64_export_scores :
  option_map (Binary64.close_to (4800 # 109))
    (nth_error (Binary64.governance_risk_score
                  (Binary64.run_feature_engineering (log_with_exports 1))) 1)
  = Some true /\
  option_map (Binary64.close_to (3200 # 79))
    (nth_error (Binary64.governance_risk_score
                  (Binary64.run_feature_engineering (log_with_exports 4))) 1)
  = Some true.
Proof. split; vm_compute; reflexivity. Qed.

(* ================================================================== *)
(** ** One z-score larger, the rest of the run the same *)
(* ================================================================== *)

Lemma related_columns {R : Series -> Series -> Prop} (col1 col2 : string -> Series)
    (W : list (string * Q)) zs1 zs2 :
  Forall2 (fun wt z => col1 (fst wt) = z) W zs1 ->
  Forall2 (fun wt z => col2 (fst wt) = z) W zs2 ->
  (forall c, In c (map fst W) -> R (col1 c) (col2 c)) ->
  Forall2 R zs1 zs2.
Proof.
  intros H1. revert zs2. induction H1 as [| wt z1 W zs1 Hz1 _ IH];
    intros zs2 H2 Hall; inversion H2 as [| ? z2 ? zs2' Hz2 H2']; subst;
    constructor.
  - apply Hall. now left.
  - apply IH; auto. intros c Hc. apply Hall. now right.
Qed.

Lemma risk_weights_nonneg : Forall (fun w => 0 <= w) (map snd risk_weights).
Proof. repeat constructor; discriminate. Qed.

Lemma nth_error_zeros n i : (i < n)%nat -> nth_error (zeros n) i = Some (Fin 0).
Proof.
  revert i. induction n as [| n IH]; intros [| i] Hi; simpl; try lia; auto.
  apply IH. lia.
Qed.

(** If no z-score of row [i] is smaller in the second of two runs, and the
    two runs have the same minimum and maximum raw score, the governance
    score of the row is not smaller in the second run. *)
Lemma score_monotone_in_zscores evs1 evs2 i :
  (forall c, In c (map fst risk_weights) ->
     cell_le i (pipeline_column evs1 c) (pipeline_column evs2 c)) ->
  series_min (pipeline_column evs1 "raw_risk_score")
    =f= series_min (pipeline_column evs2 "raw_risk_score") ->
  series_max (pipeline_column evs1 "raw_risk_score")
    =f= series_max (pipeline_column evs2 "raw_risk_score") ->
  exists g1 g2,
    nth_error (pipeline_column evs1 "governance_risk_score") i = Some g1 /\
    nth_error (pipeline_column evs2 "governance_risk_score") i = Some g2 /\
    f64_ltb g2 g1 = false.
Proof.
  intros Hcols.
  destruct (run_scoring evs1)
    as [out1 [Hrun1 [zs1 [HZ1 [Hfin1 [Hlen1 [Hraw1 Hgov1]]]]]]].
  destruct (run_scoring evs2)
    as [out2 [Hrun2 [zs2 [HZ2 [Hfin2 [Hlen2 [Hraw2 Hgov2]]]]]]].
  rewrite (pipeline_column_eq _ _ _ _ Hrun1 Hraw1).
  rewrite (pipeline_column_eq _ _ _ _ Hrun2 Hraw2).
  rewrite (pipeline_column_eq _ _ _ _ Hrun1 Hgov1).
  rewrite (pipeline_column_eq _ _ _ _ Hrun2 Hgov2).
  set (raw1 := weighted_total _ zs1 _). set (raw2 := weighted_total _ zs2 _).
  intros Hmin Hmax.
  assert (HZ : Forall2 (cell_le i) zs1 zs2).
  { apply (related_columns (pipeline_column evs1) (pipeline_column evs2)
             risk_weights); auto.
    - eapply Forall2_impl; [| exact HZ1]. intros wt z Hz.
      now apply (pipeline_column_eq _ out1).
    - eapply Forall2_impl; [| exact HZ2]. intros wt z Hz.
      now apply (pipeline_column_eq _ out2). }
  assert (Hi : (i < length evs1)%nat /\ (i < length evs2)%nat).
  { unfold risk_weights in HZ1. inversion HZ1 as [| ? z1 ? ? _ _]; subst.
    inversion HZ as [| ? z2 ? ? [a [b [Ha [Hb _]]]] _]; subst.
    inversion Hlen1 as [| ? ? L1 _]; inversion Hlen2 as [| ? ? L2 _]; subst.
    rewrite <- L1, <- L2. split; apply nth_error_Some; congruence. }
  assert (Hraw : cell_le i raw1 raw2).
  { apply weighted_total_mono; auto using risk_weights_nonneg.
    exists (Fin 0), (Fin 0). rewrite !nth_error_zeros by tauto.
    repeat split; auto. simpl. lra. }
  destruct Hraw as [r1 [r2 [Hr1 [Hr2 Hle]]]].
  assert (Hf1 : Forall finite raw1)
    by (apply weighted_total_finite; auto using zeros_finite).
  assert (Hf2 : Forall finite raw2)
    by (apply weighted_total_finite; auto using zeros_finite).
  do 2 eexists. unfold clip, min_max_scale. rewrite !map_map.
  split; [| split].
  - apply (map_nth_error (fun r => clip_value _ _ (rescale _ _ r))), Hr1.
  - apply (map_nth_error (fun r => clip_value _ _ (rescale _ _ r))), Hr2.
  - now apply (min_max_scale_mono raw1 raw2 i).
Qed.

Lemma cell_same_le i s1 s2 : cell_same i s1 s2 -> cell_le i s1 s2.
Proof.
  intros [a [b [Ha [Hb [Hf Heq]]]]]. exists a, b. repeat split; auto.
  destruct a, b; simpl in *; try contradiction. lra.
Qed.

(** C7, amended.  Take two runs and a row whose [export_ratio_zscore] is
    not smaller in the second run, whose other eleven z-scores are the
    same in both, and let the minimum and the maximum raw score of the two
    runs be the same: the [governance_risk_score] of the row is not
    smaller in the second run (the weight 0.15 is positive). *)
Theorem export_zscore_monotone evs1 evs2 i :
  cell_le i (pipeline_column evs1 "export_ratio_zscore")
            (pipeline_column evs2 "export_ratio_zscore") ->
  (forall c, In c (map fst risk_weights) -> c <> "export_ratio_zscore" ->
     cell_same i (pipeline_column evs1 c) (pipeline_column evs2 c)) ->
  series_min (pipeline_column evs1 "raw_risk_score")
    =f= series_min (pipeline_column evs2 "raw_risk_score") ->
  series_max (pipeline_column evs1 "raw_risk_score")
    =f= series_max (pipeline_column evs2 "raw_risk_score") ->
  exists g1 g2,
    nth_error (pipeline_column evs1 "governance_risk_score") i = Some g1 /\
    nth_error (pipeline_column evs2 "governance_risk_score") i = Some g2 /\
    f64_ltb g2 g1 = false.
Proof.
  intros Hexp Hothers. apply score_monotone_in_zscores.
  intros c Hc. destruct (string_dec c "export_ratio_zscore") as [-> | Hne].
  - exact Hexp.
  - apply cell_same_le, Hothers; auto.
Qed.

Lemma export_zscore_monotone_witness :
  exists g1 g2,
    nth_error (pipeline_column (small_log "read") "governance_risk_score") 0
      = Some g1 /\
    nth_error (pipeline_column (small_log "export") "governance_risk_score") 0
      = Some g2 /\
    f64_ltb g2 g1 = false.
Proof.
  apply (export_zscore_monotone (small_log "read") (small_log "export") 0).
  - do 2 eexists. split; [vm_compute; reflexivity |].
    split; [vm_compute; reflexivity |]. vm_compute. discriminate.
  - intros c Hc Hne. simpl in Hc.
    repeat (destruct Hc as [<- | Hc]); try contradiction;
      try (exfalso; now apply Hne);
      (do 2 eexists; split; [vm_compute; reflexivity |];
       split; [vm_compute; reflexivity |]; split; [exact I |];
       vm_compute; reflexivity).
  - vm_compute. reflexivity.
  - vm_compute. reflexivity.
Defined.

(** C7, as stated, fails.  The two logs [log_with_exports 1] and
    [log_with_exports 4] have the same rows up to the actions of user "u";
    eleven of the twelve feature columns are the same in both runs and
    [export_ratio] differs only on the rows of "u", where it rises from 20
    to 80; yet the [governance_risk_score] of "u" falls from 4800/109
    (about 44.0) to 3200/79 (about 40.5).  The z-score of "u" rises from
    1/4 to 17/12, but the statistics of its role move with it, and the
    lowest raw score of the dataset, that of "a0", rises from -0.5625 to
    -0.1875. *)
Lemma export_increase_lowers_score :
  let before := log_with_exports 1 in
  let after := log_with_exports 4 in
  map user_id before = map user_id after /\
  map role before = map role after /\
  (forall c, In c features_to_normalize -> c <> "export_ratio"%string ->
     pipeline_column before c = pipeline_column after c) /\
  rows_not_of "u" before (pipeline_column before "export_ratio")
    = rows_not_of "u" after (pipeline_column after "export_ratio") /\
  length (rows_of "u" before (pipeline_column before "export_ratio")) = 5%nat /\
  forallb (fun v => f64_eqb v (Fin 20))
          (rows_of "u" before (pipeline_column before "export_ratio")) = true /\
  forallb (fun v => f64_eqb v (Fin 80))
          (rows_of "u" after (pipeline_column after "export_ratio")) = true /\
  forallb (fun v => f64_eqb v (Fin (4800 # 109)))
          (rows_of "u" before (pipeline_column before "governance_risk_score"))
    = true /\
  forallb (fun v => f64_eqb v (Fin (3200 # 79)))
          (rows_of "u" after (pipeline_column after "governance_risk_score"))
    = true /\
  f64_ltb (Fin (3200 # 79)) (Fin (4800 # 109)) = true.
Proof.
  cbv zeta.
  split; [vm_compute; reflexivity |]. split; [vm_compute; reflexivity |].
  split.
  { intros c Hc Hne. unfold features_to_normalize in Hc. simpl in Hc.
    repeat (destruct Hc as [<- | Hc]); try contradiction;
      try (exfalso; now apply Hne); vm_compute; reflexivity. }
  repeat (split; [vm_compute; reflexivity |]). vm_compute; reflexivity.
Qed.

(* ================================================================== *)
(** ** The weight table *)
(* ================================================================== *)

Lemma weights_ok_iff weights :
  weights_ok weights = true <-> Qabs (total_weight weights - 1) < 0.001.
Proof.
  unfold weights_ok. rewrite negb_true_iff. apply Qle_bool_false.
Qed.

Lemma weighted_sum_error df weights acc e :
  weighted_sum df weights acc = Err e ->
  exists c, e = KeyError c \/ e = TypeError c.
Proof.
  revert acc. induction weights as [| [feature w] ws IH]; intros acc;
    simpl; [discriminate |].
  unfold num_col at 1.
  destruct (get_assoc feature (derived df)) as [[xs | xs | xs] |]; simpl;
    eauto.
  - intros E. inversion E. eauto.
  - intros E. inversion E. eauto.
Qed.

Lemma get_set_assoc_same c v l : get_assoc c (set_assoc c v l) = Some v.
Proof.
  induction l as [| [c' v'] t IH]; simpl.
  - now rewrite String.eqb_refl.
  - destruct (String.eqb c' c) eqn:E; simpl.
    + now rewrite String.eqb_refl.
    + now rewrite E.
Qed.

Lemma num_col_set_col df c xs : num_col (set_col df c (NumCol xs)) c = Ok xs.
Proof. unfold num_col, set_col. simpl. now rewrite get_set_assoc_same. Qed.

(** C4.  The weights of the table sum to exactly 1 (so also within 1e-6
    of 1).  The scoring step tests the sum once, on the table alone and
    before any row is read; the guard of the code accepts a sum within
    0.001 of 1.  The guard passes for the table of the pipeline; for a
    table that fails it the whole step aborts with an assertion error
    whatever the rows are, even when there is none; and once the guard has
    passed no row can raise an assertion error. *)
Theorem weights_sum_to_one :
  total_weight risk_weights == 1 /\
  Qabs (total_weight risk_weights - 1) <= 0.000001 /\
  weights_ok risk_weights = true /\
  (forall weights,
     weights_ok weights = true <-> Qabs (total_weight weights - 1) < 0.001) /\
  (forall weights df,
     weights_ok weights = false ->
     score_with_weights weights df
     = Err (AssertionError "Weights must sum to 1.0")) /\
  (forall weights df e,
     weights_ok weights = true ->
     score_with_weights weights df = Err e ->
     exists c, e = KeyError c \/ e = TypeError c) /\
  (forall evs, exists out, run_feature_engineering evs = Ok out).
Proof.
  split; [vm_compute; reflexivity |].
  split; [vm_compute; discriminate |].
  split; [exact weights_ok_risk_weights |].
  split; [exact weights_ok_iff |].
  split; [| split].
  - intros weights df Hw. unfold score_with_weights. now rewrite Hw.
  - intros weights df e Hw. unfold score_with_weights. rewrite Hw.
    cbv beta iota delta [negb].
    destruct (weighted_sum df weights (zeros (length (rows df))))
      as [raw | e'] eqn:Es.
    + cbv beta iota delta [bind]. rewrite num_col_set_col.
      rewrite num_col_set_col. discriminate.
    + cbv beta iota delta [bind]. intros E. inversion E; subst.
      eapply weighted_sum_error; eauto.
  - intros evs. destruct (run_feature_engineering_total evs) as [out [H _]].
    eauto.
Qed.

(* ================================================================== *)
(** ** Worked runs *)
(* ================================================================== *)

(** The run on the log with a single event: the fallbacks of the single
    user, the missing concentration, the constant raw score and its
    NaN score. *)
Example one_event_run :
  pipeline_column one_event_log "access_time_variance" = [Fin 0] /\
  pipeline_column one_event_log "weekly_access_change" = [Fin 0] /\
  forallb (fun v => f64_eqb v (Fin 0))
          (pipeline_column one_event_log "access_spike_score") = true /\
  pipeline_column one_event_log "resource_access_concentration" = [NaN] /\
  pipeline_column one_event_log "resource_access_concentration_zscore"
    = [Fin 0] /\
  pipeline_column one_event_log "governance_risk_score" = [NaN].
Proof. repeat (split; [vm_compute; reflexivity |]). vm_compute. reflexivity. Qed.

(** The columns of that run: the 32 columns of the output contract, and
    the two working columns of the temporal features. *)
Example one_event_columns :
  match run_feature_engineering one_event_log with
  | Ok out =>
      (length (columns out) =? 34)%nat
      && forallb (fun c => existsb (String.eqb c) (columns out))
                 contract_columns
      && existsb (String.eqb "is_night") (columns out)
      && existsb (String.eqb "is_weekend") (columns out)
  | Err _ => false
  end = true.
Proof. vm_compute. reflexivity. Qed.

(** The scores of the eight users of [small_log "export"]. *)
Example small_log_scores :
  map (fun v => f64_eqb (fst v) (Fin (snd v)))
      (combine (pipeline_column (small_log "export") "governance_risk_score")
               [62.5; 12.5; 12.5; 12.5; 100; 0; 0; 0])
  = [true; true; true; true; true; true; true; true].
Proof. vm_compute. reflexivity. Qed.

(** In [small_log "read"] nobody of role "A" exports: the deviation of
    [export_ratio] over the role is 0 and the four z-scores are 0. *)
Example small_log_zero_std :
  f64_eqb (role_std (small_log "read")
             (pipeline_column (small_log "read") "export_ratio") "A")
          (Fin 0) = true /\
  rows_of "u" (small_log "read")
          (pipeline_column (small_log "read") "export_ratio_zscore")
  = [Fin 0].
Proof. split; vm_compute; reflexivity. Qed.

(* ================================================================== *)
(** * Further properties of the pipeline *)
(* ================================================================== *)

(** ** Broadcast of the user-level values *)

Lemma map_rows_broadcast_by_user evs (G : string -> f64) :
  broadcast_by_user evs (map (fun e => G (user_id e)) evs).
Proof.
  split; [apply length_map |].
  intros i j ei ej vi vj Hi Hj Hvi Hvj Hu.
  rewrite (map_nth_error (fun e => G (user_id e)) _ _ Hi) in Hvi.
  rewrite (map_nth_error (fun e => G (user_id e)) _ _ Hj) in Hvj.
  congruence.
Qed.

Lemma map_rows_broadcast_by_user_role evs (H : string -> string -> f64) :
  broadcast_by_user_role evs (map (fun e => H (user_id e) (role e)) evs).
Proof.
  split; [apply length_map |].
  intros i j ei ej vi vj Hi Hj Hvi Hvj Hu Hr.
  rewrite (map_nth_error (fun e => H (user_id e) (role e)) _ _ Hi) in Hvi.
  rewrite (map_nth_error (fun e => H (user_id e) (role e)) _ _ Hj) in Hvj.
  congruence.
Qed.

Lemma per_user_series_map evs (s : list (string * f64)) :
  per_user evs (series_map (map user_id evs) s).
Proof.
  exists (fun u => match assoc u s with Some v => v | None => NaN end).
  unfold series_map. now rewrite map_map.
Qed.

Lemma per_user_int_map evs (s : list (string * Z)) :
  per_user evs (map of_Z (int_map (map user_id evs) s)).
Proof.
  exists (fun u => of_Z (match assoc u s with Some v => v | None => 0%Z end)).
  unfold int_map. now rewrite !map_map.
Qed.

Lemma per_user_fillna evs v x : per_user evs x -> per_user evs (fillna v x).
Proof.
  intros [G ->]. exists (fun u => if is_nan (G u) then v else G u).
  unfold fillna. now rewrite map_map.
Qed.

Lemma per_user_broadcast evs x : per_user evs x -> broadcast_by_user evs x.
Proof. intros [G ->]. apply map_rows_broadcast_by_user. Qed.

Lemma per_user_role_broadcast evs x :
  per_user_role evs x -> broadcast_by_user_role evs x.
Proof. intros [H ->]. apply map_rows_broadcast_by_user_role. Qed.

Lemma per_user_role_zscore evs x :
  per_user evs x ->
  per_user_role evs
    (zscore_column x (role_mean_of (map role evs) x)
                   (role_std_of (map role evs) x)).
Proof.
  intros [G Hx]. rewrite zscore_column_rows.
  set (f := fun xi r => zscore_value xi _ _). rewrite Hx at 1.
  exists (fun u r => f (G u) r). apply zip_with_map.
Qed.

Lemma per_user_role_zeros evs : per_user_role evs (zeros (length evs)).
Proof.
  exists (fun _ _ => Fin 0). unfold zeros.
  induction evs as [| e t IH]; simpl; congruence.
Qed.

Lemma per_user_role_add_weighted evs acc w z :
  per_user_role evs acc -> per_user_role evs z ->
  per_user_role evs (zip_with f64_add acc (weighted w z)).
Proof.
  intros [A ->] [Z ->]. unfold weighted. rewrite map_map.
  exists (fun u r => f64_add (A u r) (f64_mul (Z u r) (Fin w))).
  apply (zip_with_map f64_add).
Qed.

Lemma per_user_role_map evs (f : f64 -> f64) x :
  per_user_role evs x -> per_user_role evs (map f x).
Proof.
  intros [H ->]. exists (fun u r => f (H u r)). now rewrite map_map.
Qed.

Create HintDb broadcast.

#[export] Hint Resolve per_user_series_map per_user_int_map per_user_fillna
  per_user_role_zscore per_user_role_zeros per_user_role_add_weighted
  : broadcast.

Ltac per_user_column :=
  unfold avg_daily_access_of, export_ratio_of, unique_resources_of,
    user_mean_of, user_pct_of, user_var_of, weekly_access_change_of,
    privilege_usage_gap_of, privilege_usage_ratio_of,
    resource_access_concentration_of;
  auto with broadcast.

Ltac per_user_role_column :=
  lazymatch goal with
  | |- per_user_role _ (zscore_column _ _ _) =>
      apply per_user_role_zscore; per_user_column
  | |- per_user_role _ (zeros _) => apply per_user_role_zeros
  | |- per_user_role _ (zip_with f64_add _ (weighted _ _)) =>
      apply per_user_role_add_weighted; per_user_role_column
  | |- per_user_role _ (clip _ _ _) =>
      apply per_user_role_map; per_user_role_column
  | |- per_user_role _ (min_max_scale _) =>
      apply per_user_role_map; per_user_role_column
  end.

(** X1.  Every feature column of a run has one cell per row, and the rows of
    the same user hold the same value: the twelve features are user-level
    values written on every event of the user. *)
Theorem features_broadcast evs :
  exists out,
    run_feature_engineering evs = Ok out /\
    forall feature, In feature features_to_normalize ->
      exists x, num_col out feature = Ok x /\ broadcast_by_user evs x.
Proof.
  run_pipeline. intros feature Hin.
  unfold features_to_normalize in Hin. simpl in Hin.
  repeat (destruct Hin as [<- | Hin]); try contradiction;
    read_columns; eexists; (split; [reflexivity |]);
    apply per_user_broadcast; per_user_column.
Qed.

(** X2.  Every z-score column, the raw score and the governance score of a run
    have one cell per row, and the rows that share the user and the role
    hold the same value. *)
Theorem scores_broadcast evs :
  exists out,
    run_feature_engineering evs = Ok out /\
    forall c, In c score_columns ->
      exists x, num_col out c = Ok x /\ broadcast_by_user_role evs x.
Proof.
  run_pipeline. intros c Hin.
  unfold score_columns, zscore_columns, features_to_normalize in Hin.
  simpl in Hin.
  repeat (destruct Hin as [<- | Hin]); try contradiction;
    read_columns; eexists; (split; [reflexivity |]);
    apply per_user_role_broadcast; per_user_role_column.
Qed.

(** ** The behavioral features, row by row *)

Lemma values_map_fin {E} (f : E -> Q) l :
  values (map (fun e => Fin (f e)) l) = map f l.
Proof. induction l as [| e t IH]; simpl; congruence. Qed.

Lemma values_map_of_Z {E} (f : E -> Z) l :
  values (map (fun e => of_Z (f e)) l) = map (fun e => inject_Z (f e)) l.
Proof. induction l as [| e t IH]; simpl; congruence. Qed.

(** The mean of a column without missing values. *)
Lemma series_mean_fin s :
  s <> [] -> Forall finite s ->
  series_mean s
  = Fin (Qsum (values s) / inject_Z (Z.of_nat (length s))).
Proof.
  intros Hs Hf. unfold series_mean. rewrite (dropna_finite _ Hf).
  destruct s as [| x xs]; [congruence |].
  rewrite (total_finite _ Hf). unfold of_nat. apply f64_div_fin.
  assert (Hlen : (0 < length (x :: xs))%nat) by (simpl; lia).
  pose proof (of_nat_pos _ Hlen). lra.
Qed.

Lemma user_events_nonempty e evs :
  In e evs -> user_events (user_id e) evs <> [].
Proof.
  intros He E. apply In_user_events in He. rewrite E in He. exact He.
Qed.

(** A per-user aggregate into an integer column, row by row. *)
Lemma user_int_agg_rows {V} (vf : AccessEvent -> V) (agg : list V -> Z) evs :
  int_map (map user_id evs) (groupby_agg (map user_id evs) (map vf evs) agg)
  = map (fun e => agg (map vf (user_events (user_id e) evs))) evs.
Proof.
  unfold int_map. rewrite map_map. apply map_ext_in. intros e He.
  rewrite assoc_groupby by (now apply in_map).
  now rewrite select_map.
Qed.

(** A per-user aggregate times 100, row by row. *)
Lemma user_scaled_agg_rows {V} (vf : AccessEvent -> V) (agg : list V -> f64)
    evs :
  series_map (map user_id evs)
    (scale100 (groupby_agg (map user_id evs) (map vf evs) agg))
  = map (fun e => f64_mul (agg (map vf (user_events (user_id e) evs)))
                          (Fin 100)) evs.
Proof.
  unfold scale100, series_map. rewrite map_map.
  apply map_ext_in. intros e He.
  rewrite (assoc_map_values (fun v => f64_mul v (Fin 100))).
  rewrite assoc_groupby by (now apply in_map).
  simpl. now rewrite select_map.
Qed.

(** X3.  Feature 4 of a row is the arithmetic mean of the session durations of
    the events of the row's user. *)
Theorem avg_session_duration_is_user_mean evs :
  exists out,
    run_feature_engineering evs = Ok out /\
    exists x,
      num_col out "avg_session_duration" = Ok x /\
      Forall2 (fun e v =>
                 v = Fin (Qsum (map session_duration
                                    (user_events (user_id e) evs))
                          / inject_Z (Z.of_nat
                               (length (user_events (user_id e) evs)))))
              evs x.
Proof.
  run_pipeline. eexists. split; [reflexivity |].
  unfold user_mean_of.
  rewrite (user_agg_rows (fun e => Fin (session_duration e))).
  apply Forall2_map_self. intros e He.
  rewrite series_mean_fin.
  - now rewrite values_map_fin, length_map.
  - intros E. apply map_eq_nil in E. now apply (user_events_nonempty e evs).
  - apply Forall_map, Forall_forall. intros; exact I.
Qed.

(** *** Export ratio *)

Lemma count_export_map evs :
  count_export (map action evs) = length (filter export_event evs).
Proof.
  unfold count_export. rewrite filter_map_keys, length_map. reflexivity.
Qed.

Lemma no_export_in_log evs u :
  existsb is_export (map action evs) = false ->
  filter export_event (user_events u evs) = [].
Proof.
  intros Hno. destruct (filter _ _) as [| a t] eqn:E; auto. exfalso.
  assert (Ha : In a (filter export_event (user_events u evs)))
    by (rewrite E; now left).
  apply filter_In in Ha. destruct Ha as [Ha Hx].
  apply filter_In in Ha. destruct Ha as [Ha _].
  apply not_true_iff_false in Hno. apply Hno.
  apply existsb_exists. exists (action a). split; auto. now apply in_map.
Qed.

(** X4.  The three paths of the export ratio (no export in the whole log, no
    export of the user, some export of the user) give one formula: 100
    times the share of the exports among the events of the user. *)
Theorem export_ratio_is_share evs :
  exists out,
    run_feature_engineering evs = Ok out /\
    exists x,
      num_col out "export_ratio" = Ok x /\
      Forall2 (fun e v =>
                 v =f= Fin (share (length (filter export_event
                                             (user_events (user_id e) evs)))
                                  (length (user_events (user_id e) evs))
                            * 100))
              evs x.
Proof.
  run_pipeline. eexists. split; [reflexivity |].
  unfold export_ratio_of.
  destruct (existsb is_export (map action evs)) eqn:Hex.
  - rewrite user_scaled_agg_rows.
    apply Forall2_map_self. intros e He.
    unfold export_share. rewrite count_export_map, length_map.
    pose proof (user_events_nonempty e evs He) as Hne.
    destruct (length (filter export_event (user_events (user_id e) evs)))
      as [| k] eqn:Ek.
    + cbn [Nat.eqb f64_mul f64_eq]. unfold share, Qdiv.
      change (inject_Z (Z.of_nat 0)) with 0. ring.
    + cbn [Nat.eqb]. unfold of_nat. rewrite f64_div_fin.
      * simpl. unfold share. reflexivity.
      * assert (Hlen : (0 < length (user_events (user_id e) evs))%nat).
        { destruct (user_events (user_id e) evs); [congruence | simpl; lia]. }
        pose proof (of_nat_pos _ Hlen). lra.
  - change (map (fun u => (u, Fin 0)) (group_index (map user_id evs)))
      with (groupby_agg (map user_id evs) (map action evs)
              (fun _ : list string => Fin 0)).
    rewrite user_scaled_agg_rows.
    apply Forall2_map_self. intros e He.
    rewrite (no_export_in_log evs (user_id e) Hex).
    cbn [f64_mul f64_eq length]. unfold share, Qdiv.
    change (inject_Z (Z.of_nat 0)) with 0. ring.
Qed.

(** *** Unique resources *)

Lemma NoDup_length_le_map {A} `{Key A} (l : list A) :
  (length (dedup l) <= length l)%nat.
Proof.
  induction l as [| a t IH]; simpl; auto.
  destruct (existsb (keqb a) t); simpl; lia.
Qed.

Lemma dedup_nonempty {A} `{Key A} (l : list A) : l <> [] -> dedup l <> [].
Proof.
  intros Hl E. destruct l as [| a t]; [congruence |].
  assert (Ha : In a (dedup (a :: t))) by (apply In_dedup; now left).
  rewrite E in Ha. exact Ha.
Qed.

(** X5.  Feature 3 of a row is the number of distinct resource types among the
    events of the row's user: at least 1, at most the number of events of
    the user. *)
Theorem unique_resources_counts_distinct evs :
  exists out,
    run_feature_engineering evs = Ok out /\
    exists n,
      int_col out "unique_resources" = Ok n /\
      Forall2 (fun e k =>
                 exists types,
                   NoDup types /\
                   (forall r, In r types <->
                      exists e', In e' evs /\ user_id e' = user_id e /\
                                 resource_type e' = r) /\
                   k = Z.of_nat (length types) /\
                   (1 <= k
                    <= Z.of_nat (length (user_events (user_id e) evs)))%Z)
              evs n.
Proof.
  run_pipeline. eexists. split; [reflexivity |].
  unfold unique_resources_of. rewrite user_int_agg_rows.
  apply Forall2_map_self. intros e He.
  exists (dedup (map resource_type (user_events (user_id e) evs))).
  split; [apply NoDup_dedup |]. split; [| split].
  - intros r. rewrite In_dedup, in_map_iff. split.
    + intros [e' [Er He']]. apply filter_In in He'. destruct He' as [He' Hu].
      apply String.eqb_eq in Hu. eauto.
    + intros [e' [He' [Hu Er]]]. exists e'. split; auto.
      apply filter_In. split; auto. now apply String.eqb_eq.
  - reflexivity.
  - unfold nunique.
    pose proof (NoDup_length_le_map
                  (map resource_type (user_events (user_id e) evs))) as Hle.
    rewrite length_map in Hle.
    assert (Hne : dedup (map resource_type (user_events (user_id e) evs))
                  <> []).
    { apply dedup_nonempty. intros E. apply map_eq_nil in E.
      now apply (user_events_nonempty e evs). }
    destruct (dedup _) as [| a t]; [congruence |]. simpl length in *. lia.
Qed.

(** ** Tables with one row per (user, value) *)

Lemma filter_false {A} (l : list A) : filter (fun _ => false) l = [].
Proof. induction l; simpl; auto. Qed.

Lemma Qsum_cons x l : Qsum (x :: l) = x + Qsum l.
Proof. reflexivity. Qed.

Lemma Qsum_app a b : Qsum (a ++ b) == Qsum a + Qsum b.
Proof.
  induction a as [| x t IH]; simpl; [lra |]. rewrite IH. lra.
Qed.

(** The sums of disjoint selections add up to the sum of their union. *)
Lemma Qsum_filter_disjoint {E} (v : E -> Q) (p q : E -> bool) l :
  (forall e, In e l -> p e = true -> q e = true -> False) ->
  Qsum (map v (filter (fun e => p e || q e) l))
  == Qsum (map v (filter p l)) + Qsum (map v (filter q l)).
Proof.
  induction l as [| e t IH]; intros Hd; simpl; [lra |].
  assert (IH' := IH (fun a Ha => Hd a (or_intror Ha))).
  pose proof (Hd e (or_introl eq_refl)) as He.
  destruct (p e), (q e); simpl; rewrite IH'; try lra; exfalso; auto.
Qed.

Section KeyedSums.
Context {K : Type} `{Key K}.

(** Summing a column group by group, over distinct group keys, gives the
    sum over the rows of these groups. *)
Lemma Qsum_groups {E} (kf : E -> K) (v : E -> Q) evs ks :
  NoDup ks ->
  Qsum (map (fun k => Qsum (map v (filter (fun e => keqb (kf e) k) evs))) ks)
  == Qsum (map v (filter (fun e => existsb (keqb (kf e)) ks) evs)).
Proof.
  induction ks as [| k t IH]; intros Hnd.
  - simpl. now rewrite filter_false.
  - inversion Hnd as [| ? ? Hk Ht]; subst. specialize (IH Ht).
    cbn [map existsb]. rewrite Qsum_cons.
    rewrite (Qsum_filter_disjoint v (fun e => keqb (kf e) k)
               (fun e => existsb (keqb (kf e)) t)).
    + rewrite IH. reflexivity.
    + intros e _ E1 E2. apply Hk. apply keqb_eq in E1. subst k.
      now apply existsb_keqb.
Qed.
End KeyedSums.

Section UserTable.
Context {K : Type} `{Key K}.
Variable g : AccessEvent -> K.
Variable evs : list AccessEvent.

Let pairs : list (string * K) := combine (map user_id evs) (map g evs).

Lemma In_user_keys u k :
  In k (user_keys g evs u) <->
  fst k = u /\ exists e, In e (user_events u evs) /\ g e = snd k.
Proof.
  unfold user_keys. fold pairs. rewrite filter_In, In_group_index.
  destruct k as [a b]. unfold pairs. rewrite In_combine_map. cbn [fst snd].
  change (keqb a u) with (String.eqb a u). rewrite String.eqb_eq. split.
  - intros [[e [He [Ea Eb]]] Eu]. split; auto. exists e. split; auto.
    apply filter_In. split; auto. apply String.eqb_eq. congruence.
  - intros [Eu [e [He Eb]]]. apply filter_In in He. destruct He as [He Hu].
    apply String.eqb_eq in Hu. split; auto. exists e. subst. auto.
Qed.

Lemma NoDup_user_keys u : NoDup (user_keys g evs u).
Proof. apply NoDup_filter, NoDup_group_index. Qed.

Lemma NoDup_map_snd_user_keys u : NoDup (map snd (user_keys g evs u)).
Proof.
  assert (Hfst : forall k, In k (user_keys g evs u) -> fst k = u).
  { intros k Hk. now apply In_user_keys in Hk. }
  pose proof (NoDup_user_keys u) as Hnd.
  induction (user_keys g evs u) as [| k t IH]; simpl; constructor.
  - inversion Hnd as [| ? ? Hk _]; subst. intros Hin.
    apply in_map_iff in Hin. destruct Hin as [k' [Es Hk']].
    apply Hk. replace k with k'; auto.
    destruct k as [a b], k' as [a' b']. simpl in Es. subst b'.
    f_equal. transitivity u.
    + apply (Hfst (a', b)). now right.
    + symmetry. apply (Hfst (a, b)). now left.
  - apply IH.
    + intros k' Hk'. apply Hfst. now right.
    + now inversion Hnd.
Qed.

(** The table has one row per distinct value of the user. *)
Lemma length_user_keys u :
  length (user_keys g evs u) = length (dedup (map g (user_events u evs))).
Proof.
  rewrite <- (length_map snd (user_keys g evs u)).
  assert (Hin : forall b, In b (map snd (user_keys g evs u)) <->
                          In b (dedup (map g (user_events u evs)))).
  { intros b. rewrite In_dedup, !in_map_iff. split.
    - intros [k [Eb Hk]]. apply In_user_keys in Hk.
      destruct Hk as [_ [e [He Eg]]]. exists e. split; congruence.
    - intros [e [Eg He]]. exists (u, b). split; auto.
      apply In_user_keys. split; auto. exists e. auto. }
  apply Nat.le_antisymm; apply NoDup_incl_length.
  - apply NoDup_map_snd_user_keys.
  - intros b Hb. now apply Hin.
  - apply NoDup_dedup.
  - intros b Hb. now apply Hin.
Qed.

(** The rows of the table of user [u] cover exactly the events of [u]. *)
Lemma user_keys_cover u :
  filter (fun e => existsb (keqb (user_id e, g e)) (user_keys g evs u)) evs
  = user_events u evs.
Proof.
  unfold user_events. apply filter_ext_in. intros e He.
  apply eq_true_iff_eq. rewrite existsb_keqb, In_user_keys, String.eqb_eq.
  cbn [fst snd]. split.
  - tauto.
  - intros Eu. split; auto. exists e. split; auto.
    apply filter_In. split; auto. now apply String.eqb_eq.
Qed.
End UserTable.

Lemma Qsum_volume l :
  Qsum (map (fun e => inject_Z (access_volume e)) l)
  == inject_Z (total_volume l).
Proof.
  unfold total_volume. induction l as [| e t IH]; simpl; [reflexivity |].
  rewrite IH, inject_Z_plus. reflexivity.
Qed.

Lemma series_sum_of_Z {E} (f : E -> Z) l :
  series_sum (map (fun e => of_Z (f e)) l)
  = Fin (Qsum (map (fun e => inject_Z (f e)) l)).
Proof.
  unfold series_sum.
  assert (Hf : Forall finite (map (fun e => of_Z (f e)) l)).
  { apply Forall_map, Forall_forall. intros; exact I. }
  rewrite (dropna_finite _ Hf), (total_finite _ Hf).
  now rewrite values_map_of_Z.
Qed.

(** The daily totals of a user, and their mean. *)
Lemma avg_daily_access_rows (gd : AccessEvent -> Z) evs :
  avg_daily_access_of (map user_id evs) (map gd evs)
    (map (fun e => of_Z (access_volume e)) evs)
  = map (fun e =>
           series_mean
             (map (fun k =>
                     Fin (Qsum (map (fun a => inject_Z (access_volume a))
                                    (filter (fun a =>
                                               keqb (user_id a, gd a) k)
                                            evs))))
                  (user_keys gd evs (user_id e))))
        evs.
Proof.
  unfold avg_daily_access_of, series_map. rewrite map_map.
  apply map_ext_in. intros e He.
  rewrite assoc_groupby by (now apply In_pair_users).
  rewrite select_pair_table. f_equal. apply map_ext. intros k.
  assert (Ec : combine (map user_id evs) (map gd evs)
               = map (fun a => (user_id a, gd a)) evs).
  { clear. induction evs as [| a t IH]; simpl; congruence. }
  rewrite Ec, select_map. apply series_sum_of_Z.
Qed.

(** X6.  Feature 1 of a row is the total access volume of the row's user
    divided by the number of distinct days on which the user has an
    event: days without events do not count. *)
Theorem avg_daily_access_is_volume_per_active_day evs :
  exists out,
    run_feature_engineering evs = Ok out /\
    exists x,
      num_col out "avg_daily_access" = Ok x /\
      Forall2 (fun e v =>
                 v =f= Fin (inject_Z (total_volume
                                        (user_events (user_id e) evs))
                            / inject_Z (Z.of_nat
                                 (length (active_days (user_id e) evs)))))
              evs x.
Proof.
  run_pipeline. eexists. split; [reflexivity |].
  rewrite !map_map.
  rewrite (avg_daily_access_rows (fun e => dt_date (timestamp e))).
  apply Forall2_map_self. intros e He.
  assert (Hne : user_keys (fun a => dt_date (timestamp a)) evs (user_id e)
                <> []).
  { intros E.
    assert (Hin : In (user_id e, dt_date (timestamp e))
                     (user_keys (fun a => dt_date (timestamp a)) evs
                        (user_id e))).
    { apply In_user_keys. split; auto. exists e. split; auto.
      now apply In_user_events. }
    rewrite E in Hin. exact Hin. }
  rewrite series_mean_fin.
  - rewrite values_map_fin, length_map. cbn [f64_eq].
    rewrite (Qsum_groups
               (fun a : AccessEvent => (user_id a, dt_date (timestamp a))) _
               evs _ (NoDup_user_keys _ evs (user_id e))).
    rewrite user_keys_cover, Qsum_volume, length_user_keys.
    reflexivity.
  - intros E. apply map_eq_nil in E. auto.
  - apply Forall_map, Forall_forall. intros; exact I.
Qed.

(** ** Percentages of flagged events *)

Lemma share_bounds k n :
  (k <= n)%nat -> (0 < n)%nat -> 0 <= share k n * 100 <= 100.
Proof.
  intros Hk Hn. unfold share.
  assert (Hn' : 0 < inject_Z (Z.of_nat n)) by now apply of_nat_pos.
  assert (Hk0 : 0 <= inject_Z (Z.of_nat k)).
  { change 0 with (inject_Z 0). rewrite <- Zle_Qle. lia. }
  assert (Hkn : inject_Z (Z.of_nat k) <= inject_Z (Z.of_nat n)).
  { rewrite <- Zle_Qle. lia. }
  split.
  - apply Qmult_le_0_compat; [| lra].
    apply Qle_shift_div_l; [assumption | lra].
  - assert (inject_Z (Z.of_nat k) / inject_Z (Z.of_nat n) <= 1).
    { apply Qle_shift_div_r; [assumption | lra]. }
    lra.
Qed.

(** The percentage of the events of a user that carry a flag. *)
Lemma user_pct_flags (b : AccessEvent -> bool) evs :
  Forall2 (fun e v =>
             v =f= Fin (share (length (filter b (user_events (user_id e) evs)))
                              (length (user_events (user_id e) evs))
                        * 100))
          evs
          (user_pct_of (map user_id evs)
                       (map (fun e => of_Z (flag_of (b e))) evs)).
Proof.
  rewrite (user_pct_of_rows (fun e => of_Z (flag_of (b e)))).
  apply Forall2_map_self. intros e He.
  pose proof (series_mean_flags b _ (user_events_nonempty e evs He)) as Hm.
  destruct (series_mean _); simpl in Hm |- *; try contradiction.
  now rewrite Hm.
Qed.

Lemma Forall2_Forall_r {A B} (P : A -> B -> Prop) (Q : B -> Prop) l l' :
  Forall2 P l l' -> (forall a b, In a l -> P a b -> Q b) -> Forall Q l'.
Proof.
  induction 1 as [| a b l l' Hab _ IH]; intros HPQ; constructor.
  - apply (HPQ a b); simpl; auto.
  - apply IH. intros a' b' Ha'. apply HPQ. now right.
Qed.

Lemma user_pct_flags_range (b : AccessEvent -> bool) evs :
  Forall in_0_100
    (user_pct_of (map user_id evs) (map (fun e => of_Z (flag_of (b e))) evs)).
Proof.
  apply (Forall2_Forall_r _ _ _ _ (user_pct_flags b evs)).
  intros e v He Hv.
  assert (Hn : (0 < length (user_events (user_id e) evs))%nat).
  { pose proof (user_events_nonempty e evs He).
    destruct (user_events (user_id e) evs); [congruence | simpl; lia]. }
  pose proof (share_bounds _ _ (filter_length_le b _) Hn) as Hb.
  destruct v as [q | | |]; simpl in Hv |- *; try contradiction.
  rewrite Hv. exact Hb.
Qed.

Lemma is_weekend_day_flag d : is_weekend_day d = flag_of (5 <=? d)%Z.
Proof. unfold is_weekend_day, flag_of. now rewrite Z.geb_leb. Qed.

Lemma spike_flag_flag v t : spike_flag v t = flag_of (f64_gtb v t).
Proof. reflexivity. Qed.

(** The spike flags of a run, as flags of the events. *)
Lemma spike_flags_rows evs :
  map of_Z
    (zip_with spike_flag (map (fun e => of_Z (access_volume e)) evs)
       (spike_threshold_of (map user_id evs)
          (map (fun e => of_Z (access_volume e)) evs)))
  = map (fun e => of_Z (flag_of (spike_event evs e))) evs.
Proof.
  rewrite spike_threshold_rows, zip_with_map, map_map. reflexivity.
Qed.

(** X7.  An event is flagged as weekend activity exactly when its day of the
    week is 5 or 6 (Saturday, Sunday) or more; the [is_weekend] column of a
    run holds these flags and the [weekend_activity_ratio] of a row is 100
    times the share of the flagged events among the events of the row's
    user. *)
Theorem weekend_activity_ratio_is_share :
  (forall d, is_weekend_day d = 1%Z <-> (5 <= d)%Z) /\
  (forall d, is_weekend_day d = 0%Z <-> (d < 5)%Z) /\
  forall evs, exists out,
    run_feature_engineering evs = Ok out /\
    int_col out "is_weekend"
      = Ok (map (fun e => is_weekend_day (dt_dayofweek (timestamp e))) evs) /\
    exists ratio,
      num_col out "weekend_activity_ratio" = Ok ratio /\
      Forall2 (fun e v =>
                 v =f= Fin (share (length (filter weekend_event
                                             (user_events (user_id e) evs)))
                                  (length (user_events (user_id e) evs))
                            * 100))
              evs ratio.
Proof.
  split; [| split].
  - intros d. rewrite is_weekend_day_flag.
    destruct (5 <=? d)%Z eqn:E; simpl.
    + apply Z.leb_le in E. tauto.
    + apply Z.leb_gt in E. split; [discriminate | lia].
  - intros d. rewrite is_weekend_day_flag.
    destruct (5 <=? d)%Z eqn:E; simpl.
    + apply Z.leb_le in E. split; [discriminate | lia].
    + apply Z.leb_gt in E. tauto.
  - intros evs. run_pipeline. split.
    + now rewrite !map_map.
    + eexists. split; [reflexivity |]. rewrite !map_map.
      rewrite (map_ext _ (fun a => of_Z (flag_of (weekend_event a))))
        by (intros a; now rewrite is_weekend_day_flag).
      apply (user_pct_flags weekend_event).
Qed.

(** X8.  The four percentage features of a run (export ratio, night access,
    weekend activity, spike score) have one cell per row and every cell
    is a number between 0 and 100: never missing, never out of range. *)
Theorem percentage_features_range evs :
  exists out,
    run_feature_engineering evs = Ok out /\
    forall c,
      In c ["export_ratio"; "night_access_pct"; "weekend_activity_ratio";
            "access_spike_score"] ->
      exists x, num_col out c = Ok x /\ length x = length evs /\
                Forall in_0_100 x.
Proof.
  run_pipeline. intros c Hin. simpl in Hin.
  repeat (destruct Hin as [<- | Hin]); try contradiction;
    read_columns; eexists; (split; [reflexivity |]);
    (split; [column_length |]).
  - unfold export_ratio_of.
    assert (Hagg : forall agg : list string -> f64,
               (forall g, g <> [] -> exists q, agg g = Fin q /\ 0 <= q <= 1) ->
               Forall in_0_100
                 (series_map (map user_id evs)
                    (scale100 (groupby_agg (map user_id evs)
                                 (map action evs) agg)))).
    { intros agg Hagg. rewrite user_scaled_agg_rows.
      apply Forall_map, Forall_forall. intros e He.
      destruct (Hagg (map action (user_events (user_id e) evs)))
        as [q [-> Hq]].
      - intros E. apply map_eq_nil in E.
        now apply (user_events_nonempty e evs).
      - simpl. lra. }
    destruct (existsb is_export (map action evs)).
    + apply Hagg. intros g Hg. unfold export_share.
      assert (Hlen : (0 < length g)%nat)
        by (destruct g; [congruence | simpl; lia]).
      destruct (count_export g) as [| k] eqn:Ek.
      * exists 0. split; [reflexivity | lra].
      * cbn [Nat.eqb]. unfold of_nat. rewrite f64_div_fin.
        -- eexists. split; [reflexivity |].
           assert (Hle : (S k <= length g)%nat).
           { rewrite <- Ek. apply filter_length_le. }
           pose proof (share_bounds _ _ Hle Hlen) as Hb.
           unfold share in Hb. lra.
        -- pose proof (of_nat_pos _ Hlen). lra.
    + change (map (fun u => (u, Fin 0)) (group_index (map user_id evs)))
        with (groupby_agg (map user_id evs) (map action evs)
                (fun _ : list string => Fin 0)).
      apply Hagg. intros g _. exists 0. split; [reflexivity | lra].
  - rewrite !map_map.
    rewrite (map_ext _ (fun a => of_Z (flag_of (night_event a))))
      by (intros a; now rewrite is_night_hour_flag).
    apply (user_pct_flags_range night_event).
  - rewrite !map_map.
    rewrite (map_ext _ (fun a => of_Z (flag_of (weekend_event a))))
      by (intros a; now rewrite is_weekend_day_flag).
    apply (user_pct_flags_range weekend_event).
  - rewrite spike_flags_rows. apply user_pct_flags_range.
Qed.

(** ** Variances and deviations *)

Lemma Qsum_squares_nonneg (m : Q) l :
  0 <= Qsum (map (fun a => (a + - m) * (a + - m)) l).
Proof.
  induction l as [| a t IH]; simpl; [lra |].
  assert (0 <= (a + - m) * (a + - m)).
  { destruct (Qlt_le_dec (a + - m) 0); nra. }
  lra.
Qed.

Lemma series_var_nonneg s v : series_var s = Fin v -> 0 <= v.
Proof.
  intros Hv. destruct (series_var_fin_inv s v Hv) as [m [_ [_ [Hn Hq]]]].
  rewrite Hq. apply Qle_shift_div_l.
  - apply of_nat_pos. lia.
  - rewrite Qmult_0_l. apply Qsum_squares_nonneg.
Qed.

Lemma series_std_nonneg s q : series_std s = Fin q -> 0 <= q.
Proof.
  unfold series_std. destruct (series_var s) as [v | | |]; simpl;
    try discriminate.
  destruct (Qsgn v); try discriminate; intros E; inversion E;
    apply Qsqrt_nonneg.
Qed.

Lemma fill_regular_nonneg x :
  regular x -> (forall q, x = Fin q -> 0 <= q) ->
  nonneg (if is_nan x then Fin 0 else x).
Proof.
  destruct x as [q | | |]; simpl; intros Hr Hq; try contradiction.
  - now apply Hq.
  - lra.
Qed.

(** X9.  Feature 7 is never missing and never negative. *)
Theorem access_time_variance_nonneg evs :
  exists out,
    run_feature_engineering evs = Ok out /\
    exists x,
      num_col out "access_time_variance" = Ok x /\
      length x = length evs /\ Forall nonneg x.
Proof.
  run_pipeline. eexists. split; [reflexivity |].
  split; [column_length |].
  rewrite !map_map. unfold user_var_of.
  rewrite (user_agg_rows (fun e => of_Z (dt_hour (timestamp e)))).
  rewrite fillna_map. apply Forall_map, Forall_forall. intros e He.
  apply fill_regular_nonneg.
  - apply series_var_regular. auto with regular.
  - apply series_var_nonneg.
Qed.

(** *** Weekly change *)

Lemma series_std_short_valid s :
  (length (dropna s) <= 1)%nat -> series_std s = NaN.
Proof.
  intros Hd. unfold series_std, series_var.
  apply Nat.leb_le in Hd. now rewrite Hd.
Qed.

(** In a column of differences to the previous row of the group, a group
    that was not seen before has a missing first difference. *)
Lemma group_diff_from_count {K} `{Key K} (u : K) prev keys vals :
  assoc u prev = None ->
  (length (dropna (select u keys (group_diff_from prev keys vals)))
   <= pred (length (filter (fun k => keqb k u) keys)))%nat.
Proof.
  revert prev vals. induction keys as [| k ks IH]; intros prev vals Hp.
  - destruct vals; simpl; lia.
  - destruct vals as [| v vs]; [simpl; lia |].
    cbn [group_diff_from select filter].
    destruct (keqb k u) eqn:Ek.
    + apply keqb_eq in Ek. subst k. rewrite Hp.
      cbn [dropna filter is_nan negb length pred].
      etransitivity; [apply filter_length_le |].
      apply length_select_le.
    + apply IH. cbn [assoc]. now rewrite Ek.
Qed.

(** The weekly change of a user: the deviation of the differences between
    the consecutive rows of the user in the weekly table, 0 when it is
    missing. *)
Lemma weekly_access_change_rows (gw : AccessEvent -> Z) volume evs :
  weekly_access_change_of (map user_id evs) (map gw evs) volume
  = map (fun e =>
           let weekly_usage :=
             groupby_agg (combine (map user_id evs) (map gw evs)) volume
                         series_sum in
           let wu_user :=
             map (fun r : string * Z * f64 => fst (fst r)) weekly_usage in
           let s :=
             series_std
               (select (user_id e) wu_user
                  (group_diff wu_user (map snd weekly_usage))) in
           if is_nan s then Fin 0 else s)
        evs.
Proof.
  unfold weekly_access_change_of, series_map. rewrite map_map.
  apply map_ext_in. intros e He. unfold fillna_entries.
  rewrite (assoc_map_values (fun v => if is_nan v then Fin 0 else v)).
  rewrite assoc_groupby by (now apply In_pair_users).
  reflexivity.
Qed.

Lemma weekly_table_users (gw : AccessEvent -> Z) volume evs u :
  length (filter (fun k => keqb k u)
            (map (fun r : string * Z * f64 => fst (fst r))
               (groupby_agg (combine (map user_id evs) (map gw evs)) volume
                  series_sum)))
  = length (dedup (map gw (user_events u evs))).
Proof.
  unfold groupby_agg. rewrite map_map. cbn [fst].
  rewrite filter_map_keys, length_map.
  apply (length_user_keys gw evs u).
Qed.

(** X10.  Feature 8 is never missing and never negative, and it is 0 for every
    user with events in at most two distinct weeks: such a user has at most
    one week-over-week difference, whose sample deviation is missing. *)
Theorem weekly_access_change_nonneg evs :
  exists out,
    run_feature_engineering evs = Ok out /\
    exists x,
      num_col out "weekly_access_change" = Ok x /\
      Forall nonneg x /\
      Forall2 (fun e v =>
                 (length (active_weeks (user_id e) evs) <= 2)%nat ->
                 v = Fin 0)
              evs x.
Proof.
  run_pipeline. eexists. split; [reflexivity |].
  rewrite !map_map.
  rewrite (weekly_access_change_rows (fun e => dt_week (timestamp e))).
  cbv zeta. split.
  - apply Forall_map, Forall_forall. intros e He.
    apply fill_regular_nonneg.
    + apply series_std_regular, Forall_select.
      apply group_diff_from_regular; [constructor |].
      apply (Forall_groupby regular finite); [auto with regular |].
      intros g Hg. apply series_sum_finite, Hg.
    + apply series_std_nonneg.
  - apply Forall2_map_self. intros e He Hw.
    rewrite series_std_short_valid; [reflexivity |].
    etransitivity; [apply group_diff_from_count; reflexivity |].
    rewrite (weekly_table_users (fun e => dt_week (timestamp e))).
    unfold active_weeks in Hw. lia.
Qed.

(** *** Spike score *)

Lemma Qsum_constant (c : Q) l :
  Forall (fun a => a == c) l ->
  Qsum l == inject_Z (Z.of_nat (length l)) * c.
Proof.
  induction 1 as [| a t Ha _ IH].
  - cbn [Qsum fold_right length Z.of_nat]. change (inject_Z 0) with 0. ring.
  - cbv beta in Ha. cbn [length]. rewrite Qsum_cons, IH, Ha.
    rewrite Nat2Z.inj_succ, <- Z.add_1_l, inject_Z_plus.
    change (inject_Z 1) with 1. ring.
Qed.

Lemma Qsum_zero l : Forall (fun a => a == 0) l -> Qsum l == 0.
Proof. intros Hl. rewrite (Qsum_constant 0 l Hl). ring. Qed.

Lemma Qsqrt_zero q : q == 0 -> Qsqrt q == 0.
Proof.
  intros Hq. unfold Qsqrt.
  rewrite (Qred_complete q 0 Hq). reflexivity.
Qed.

(** The mean of a column whose cells all hold [c] is [c]. *)
Lemma series_mean_constant (c : Q) s :
  s <> [] -> Forall (fun x => x =f= Fin c) s ->
  series_mean s =f= Fin c.
Proof.
  intros Hs Hc.
  assert (Hf : Forall finite s).
  { eapply Forall_impl; [| exact Hc]. intros [q | | |]; simpl; tauto. }
  assert (Hv : Forall (fun a => a == c) (values s)).
  { clear Hs Hf. induction Hc as [| x t Hx _ IH]; simpl; [constructor |].
    destruct x as [q | | |]; simpl in Hx; try contradiction.
    constructor; auto. }
  rewrite (series_mean_fin s Hs Hf). cbn [f64_eq].
  rewrite (Qsum_constant c _ Hv), (length_values s Hf).
  assert (Hn : 0 < inject_Z (Z.of_nat (length s))).
  { apply of_nat_pos. destruct s; [congruence | simpl; lia]. }
  field. lra.
Qed.

(** The deviation of a column whose cells all hold one number is missing
    (a single cell) or 0. *)
Lemma series_std_constant (c : Q) s :
  Forall (fun x => x =f= Fin c) s ->
  series_std s = NaN \/ series_std s =f= Fin 0.
Proof.
  intros Hc. unfold series_std.
  destruct (series_var s) as [v | | |] eqn:Ev; cbn [f64_sqrt]; auto.
  - right.
    destruct (series_var_fin_inv s v Ev) as [m [Hm [Hf [Hn Hq]]]].
    assert (Hf' : Forall finite s).
    { eapply Forall_impl; [| exact Hc]. intros [q | | |]; simpl; tauto. }
    rewrite (dropna_finite _ Hf') in Hq, Hn.
    assert (Hs : s <> []) by (destruct s; [simpl in Hn; lia | discriminate]).
    pose proof (series_mean_constant c s Hs Hc) as Hmc.
    rewrite Hm in Hmc. cbn [f64_eq] in Hmc.
    assert (Hv0 : v == 0).
    { rewrite Hq. rewrite Qsum_zero; [unfold Qdiv; ring |].
      apply Forall_map.
      assert (Hv : Forall (fun a => a == c) (values s)).
      { clear - Hc. induction Hc as [| x t Hx _ IH]; simpl; [constructor |].
        destruct x as [q | | |]; simpl in Hx; try contradiction.
        constructor; auto. }
      eapply Forall_impl; [| exact Hv]. cbv beta. intros a Ha.
      rewrite Ha, Hmc. ring. }
    case_sgn v; cbn [f64_eq]; try (now apply Qsqrt_zero); lra.
  - pose proof (series_var_regular s) as Hr. rewrite Ev in Hr.
    exfalso. apply Hr. eapply Forall_impl; [| exact Hc].
    intros [q | | |]; simpl; tauto.
Qed.

(** No event of a user with a constant access volume is above the spike
    threshold of the user. *)
Lemma constant_volume_no_spike evs e e' :
  constant_volume_user evs e -> In e' (user_events (user_id e) evs) ->
  spike_event evs e' = false.
Proof.
  intros Hc He'.
  assert (Hu : user_id e' = user_id e).
  { apply filter_In in He'. now apply String.eqb_eq. }
  unfold spike_event, user_threshold. rewrite Hu, (Hc e' He').
  set (s := map (fun a => of_Z (access_volume a))
                (user_events (user_id e) evs)).
  assert (Hs : Forall (fun x => x =f= Fin (inject_Z (access_volume e))) s).
  { apply Forall_map, Forall_forall. intros a Ha. rewrite (Hc a Ha).
    simpl. reflexivity. }
  assert (Hne : s <> []).
  { intros E. apply map_eq_nil in E. rewrite E in He'. exact He'. }
  pose proof (series_mean_constant _ s Hne Hs) as Hm.
  destruct (series_std_constant _ s Hs) as [-> | Hz].
  - simpl f64_mul. rewrite f64_add_nan_r. reflexivity.
  - destruct (series_mean s) as [m | | |]; simpl in Hm; try contradiction.
    destruct (series_std s) as [d | | |]; simpl in Hz; try contradiction.
    unfold f64_gtb, of_Z. cbn [f64_mul f64_add].
    apply f64_ltb_fin_false. rewrite Hm, Hz. lra.
Qed.


(** ** Privilege gap and ratio *)

(** The privilege counts of a user are those of the first event of the
    user. *)
Lemma user_privilege_rows evs e :
  In e evs ->
  assoc (user_id e)
    (user_privilege (map user_id evs) (map assigned_resource_count evs)
       (map actively_used_resource_count evs))
  = Some (first_or 0%Z (map assigned_resource_count
                            (user_events (user_id e) evs)),
          first_or 0%Z (map actively_used_resource_count
                            (user_events (user_id e) evs))).
Proof.
  intros He. unfold user_privilege, groupby_agg. rewrite zip_with_map.
  cbn [fst snd].
  rewrite (assoc_tabulate
             (fun k => (first_or 0%Z (select k (map user_id evs)
                                        (map assigned_resource_count evs)),
                        first_or 0%Z (select k (map user_id evs)
                                        (map actively_used_resource_count
                                           evs))))).
  - now rewrite !select_map.
  - apply In_group_index. now apply in_map.
Qed.

Lemma first_event_exists evs e :
  In e evs ->
  exists f, first_event (user_id e) evs = Some f /\
            user_id f = user_id e /\ In f evs.
Proof.
  intros He. unfold first_event.
  pose proof (user_events_nonempty e evs He) as Hne.
  destruct (user_events (user_id e) evs) as [| f t] eqn:E; [congruence |].
  exists f. split; [reflexivity |].
  assert (Hf : In f (user_events (user_id e) evs)) by (rewrite E; now left).
  apply filter_In in Hf. destruct Hf as [Hf Hu].
  apply String.eqb_eq in Hu. auto.
Qed.

Lemma first_or_map {E} (g : E -> Z) (l : list E) f d :
  hd_error l = Some f -> first_or d (map g l) = g f.
Proof. destruct l; simpl; intros Hf; inversion Hf; reflexivity. Qed.

(** X12.  Feature 10 of a row is the assigned count minus the used count of the
    first event of the row's user in the log: the counts that later events
    of the user carry are not read. *)
Theorem privilege_usage_gap_of_first_event evs :
  exists out,
    run_feature_engineering evs = Ok out /\
    exists gap,
      int_col out "privilege_usage_gap" = Ok gap /\
      Forall2 (fun e v =>
                 exists f,
                   first_event (user_id e) evs = Some f /\
                   v = (assigned_resource_count f
                        - actively_used_resource_count f)%Z)
              evs gap.
Proof.
  run_pipeline. eexists. split; [reflexivity |].
  unfold privilege_usage_gap_of, int_map. rewrite map_map.
  apply Forall2_map_self. intros e He.
  destruct (first_event_exists evs e He) as [f [Hf _]].
  exists f. split; [exact Hf |].
  rewrite (assoc_map_values (fun p : Z * Z => (fst p - snd p)%Z)).
  rewrite (user_privilege_rows evs e He). cbn [option_map fst snd].
  unfold first_event in Hf.
  now rewrite (first_or_map assigned_resource_count _ f),
              (first_or_map actively_used_resource_count _ f).
Qed.

(** X13.  Feature 11 of a row is 100 times the used count over the assigned
    count of the first event of the row's user; when the assigned count is
    0 the division is by 1, so the value is 100 times the used count and
    never an infinity or missing. *)
Theorem privilege_usage_ratio_of_first_event evs :
  exists out,
    run_feature_engineering evs = Ok out /\
    exists ratio,
      num_col out "privilege_usage_ratio" = Ok ratio /\
      Forall2 (fun e v =>
                 exists f,
                   first_event (user_id e) evs = Some f /\
                   v =f= Fin (if (assigned_resource_count f =? 0)%Z
                              then inject_Z (actively_used_resource_count f)
                                   * 100
                              else inject_Z (actively_used_resource_count f)
                                   / inject_Z (assigned_resource_count f)
                                   * 100))
              evs ratio.
Proof.
  run_pipeline. eexists. split; [reflexivity |].
  unfold privilege_usage_ratio_of, series_map. rewrite map_map.
  apply Forall2_map_self. intros e He.
  destruct (first_event_exists evs e He) as [f [Hf _]].
  exists f. split; [exact Hf |].
  rewrite (assoc_map_values
             (fun p : Z * Z =>
                f64_mul (f64_div (of_Z (snd p))
                                 (of_Z (replace_zero_by_one (fst p))))
                        (Fin 100))).
  rewrite (user_privilege_rows evs e He). cbn [option_map fst snd].
  unfold first_event in Hf.
  rewrite (first_or_map assigned_resource_count _ f),
          (first_or_map actively_used_resource_count _ f) by assumption.
  unfold of_Z. rewrite f64_div_fin by apply replace_zero_by_one_nonzero.
  cbn [f64_mul f64_eq]. unfold replace_zero_by_one.
  destruct (assigned_resource_count f =? 0)%Z.
  - change (inject_Z 1) with 1. field.
  - reflexivity.
Qed.

(** ** Resource access concentration *)

(** The sample variance of at least two numbers is a number. *)
Lemma series_var_defined s :
  Forall finite s -> (1 < length s)%nat -> exists v, series_var s = Fin v.
Proof.
  intros Hf Hn. unfold series_var. rewrite (dropna_finite _ Hf).
  destruct (length s <=? 1)%nat eqn:E; [apply Nat.leb_le in E; lia |].
  rewrite (total_finite _ Hf). unfold of_nat.
  rewrite f64_div_fin.
  2:{ assert (Hp : (0 < length s)%nat) by lia.
      pose proof (of_nat_pos _ Hp). lra. }
  rewrite total_finite.
  2:{ apply Forall_map. eapply Forall_impl; [| exact Hf].
      intros x Hx. now apply sq_dev_finite. }
  rewrite f64_div_fin.
  2:{ assert (Hp : (0 < length s - 1)%nat) by lia.
      pose proof (of_nat_pos _ Hp). lra. }
  eauto.
Qed.

Lemma series_std_defined s :
  Forall finite s -> (1 < length s)%nat ->
  exists d, series_std s = Fin d /\ 0 <= d.
Proof.
  intros Hf Hn. destruct (series_var_defined s Hf Hn) as [v Hv].
  pose proof (series_var_nonneg s v Hv) as Hv0.
  unfold series_std. rewrite Hv. cbn [f64_sqrt].
  case_sgn v; try (eexists; split; [reflexivity | apply Qsqrt_nonneg]).
  lra.
Qed.

(** The coefficient of variation of at least two counts is a number that
    is not negative. *)
Lemma coefficient_of_variation_nonneg x :
  Forall finite x -> (1 < length x)%nat ->
  nonneg (coefficient_of_variation x).
Proof.
  intros Hf Hn. unfold coefficient_of_variation.
  destruct (series_std_defined x Hf Hn) as [d [Hd Hd0]].
  assert (Hne : x <> []) by (destruct x; [simpl in Hn; lia | discriminate]).
  rewrite (series_mean_fin x Hne Hf), Hd.
  set (m := Qsum (values x) / inject_Z (Z.of_nat (length x))).
  unfold f64_gtb. destruct (f64_ltb (Fin 0) (Fin m)) eqn:E.
  - apply f64_ltb_fin in E. rewrite f64_div_fin by lra.
    simpl. apply Qle_shift_div_l; [assumption | lra].
  - simpl. lra.
Qed.

(** X14.  Feature 12 is a number that is not negative on every row of a user
    who touches at least two resource types. *)
Theorem resource_access_concentration_nonneg evs :
  exists out,
    run_feature_engineering evs = Ok out /\
    exists rac,
      num_col out "resource_access_concentration" = Ok rac /\
      Forall2 (fun e v =>
                 (2 <= length (resource_types (user_id e) evs))%nat ->
                 nonneg v)
              evs rac.
Proof.
  run_pipeline. eexists. split; [reflexivity |].
  unfold resource_access_concentration_of, series_map. rewrite map_map.
  apply Forall2_map_self. intros e He Hn.
  rewrite assoc_groupby by (now apply (In_pair_users resource_type)).
  rewrite (select_pair_table resource_type).
  apply coefficient_of_variation_nonneg.
  - apply Forall_map, Forall_forall. intros k _. exact I.
  - rewrite length_map.
    change (filter _ _) with (user_keys resource_type evs (user_id e)).
    rewrite length_user_keys. exact Hn.
Qed.

(** ** The z-scores of a role are centred *)

Lemma select_zip_with_keys {K} `{Key K} {A B} (F : A -> K -> B) (k : K)
    keys xs :
  select k keys (zip_with F xs keys)
  = map (fun x => F x k) (select k keys xs).
Proof.
  revert xs. induction keys as [| k' ks IH]; intros [| x xs]; simpl; auto.
  destruct (keqb k' k) eqn:E; simpl; rewrite IH; auto.
  apply keqb_eq in E. now subst.
Qed.

Lemma zscore_value_nan_std x m : zscore_value x m NaN = Fin 0.
Proof.
  unfold zscore_value. destruct (f64_sub x m); reflexivity.
Qed.

Lemma zscore_value_nan m s : zscore_value NaN m s = Fin 0.
Proof. reflexivity. Qed.

Lemma zscore_value_fin a m d :
  0 < d -> zscore_value (Fin a) (Fin m) (Fin d) = Fin ((a + - m) / d).
Proof.
  intros Hd. unfold zscore_value, f64_sub. cbn [f64_neg f64_add].
  rewrite f64_div_fin by lra. reflexivity.
Qed.

Lemma values_dropna s : values (dropna s) = values s.
Proof.
  induction s as [| x t IH]; simpl; auto.
  destruct x; simpl; congruence.
Qed.

Lemma dropna_idem s : dropna (dropna s) = dropna s.
Proof.
  induction s as [| x t IH]; simpl; auto.
  destruct x; simpl; congruence.
Qed.

Lemma length_values_dropna s :
  Forall regular s -> length (values s) = length (dropna s).
Proof.
  induction 1 as [| x t Hx _ IH]; simpl; auto.
  destruct x; simpl in *; try contradiction; congruence.
Qed.

(** The sum of the deviations from a value, scaled. *)
Lemma Qsum_scaled_deviations (m d : Q) l :
  Qsum (map (fun a => (a + - m) / d) l)
  == (Qsum l - inject_Z (Z.of_nat (length l)) * m) / d.
Proof.
  induction l as [| a t IH].
  - cbn [map Qsum fold_right length Z.of_nat]. change (inject_Z 0) with 0.
    unfold Qdiv. ring.
  - cbn [map length]. rewrite !Qsum_cons, IH.
    rewrite Nat2Z.inj_succ, <- Z.add_1_l, inject_Z_plus.
    change (inject_Z 1) with 1. unfold Qdiv. ring.
Qed.

(** The z-scores of the cells of a role, computed against the mean and the
    deviation of these cells, sum to zero. *)
Lemma zscore_group_sum g :
  Forall regular g ->
  Qsum (values (map (fun x => zscore_value x (series_mean g) (series_std g))
                    g)) == 0.
Proof.
  intros Hg.
  assert (Hzero : forall m s,
             (forall x, In x g -> zscore_value x m s = Fin 0) ->
             Qsum (values (map (fun x => zscore_value x m s) g)) == 0).
  { intros m s Hz. apply Qsum_zero.
    clear Hg. induction g as [| x t IH]; simpl; [constructor |].
    rewrite (Hz x (or_introl eq_refl)). constructor; [reflexivity |].
    apply IH. intros y Hy. apply Hz. now right. }
  pose proof (series_std_regular g Hg) as Hr.
  destruct (series_std g) as [d | | |] eqn:Ed; simpl in Hr;
    try contradiction.
  2:{ apply Hzero. intros x _. apply zscore_value_nan_std. }
  pose proof (series_std_nonneg g d Ed) as Hd.
  destruct (Qeq_dec d 0) as [Hd0 | Hd0].
  { apply Hzero. intros x Hx.
    apply (zscore_value_zero_std x _ (Fin d) g Hx eq_refl (eq_sym Ed)).
    exact Hd0. }
  assert (Hdpos : 0 < d) by lra.
  assert (Hvar : exists v, series_var g = Fin v).
  { unfold series_std in Ed. destruct (series_var g) as [v | | |];
      simpl in Ed; try discriminate. eauto. }
  destruct Hvar as [v Hv].
  destruct (series_var_fin_inv g v Hv) as [m [Hm [Hf [Hn _]]]].
  rewrite Hm.
  assert (Hmq : m == Qsum (values g) / inject_Z (Z.of_nat (length (values g)))).
  { assert (Hne : dropna g <> [])
      by (destruct (dropna g); [simpl in Hn; lia | discriminate]).
    pose proof (series_mean_fin (dropna g) Hne Hf) as Hm'.
    assert (Hmm : series_mean (dropna g) = series_mean g).
    { unfold series_mean. now rewrite dropna_idem. }
    rewrite Hmm, Hm in Hm'. inversion Hm' as [Hm''].
    rewrite values_dropna, (length_values_dropna g Hg). reflexivity. }
  assert (Hsum : Qsum (values (map (fun x => zscore_value x (Fin m) (Fin d)) g))
                 == Qsum (map (fun a => (a + - m) / d) (values g))).
  { clear - Hg Hdpos. induction Hg as [| x t Hx _ IH]; [reflexivity |].
    destruct x as [a | | |]; simpl in Hx; try contradiction.
    - cbn [map]. rewrite zscore_value_fin by assumption.
      cbn [values map]. rewrite !Qsum_cons, IH. reflexivity.
    - cbn [map]. rewrite zscore_value_nan. cbn [values].
      rewrite Qsum_cons, IH. ring. }
  rewrite Hsum, Qsum_scaled_deviations.
  assert (Hlen : 0 < inject_Z (Z.of_nat (length (values g)))).
  { apply of_nat_pos. rewrite (length_values_dropna g Hg). lia. }
  rewrite Hmq. field. split; lra.
Qed.

(** The z-scores of a feature over the rows of one role. *)
Lemma zscore_rows_centred evs x r :
  Forall regular x ->
  Forall finite
    (select r (map role evs)
       (zscore_column x (role_mean_of (map role evs) x)
                      (role_std_of (map role evs) x))) /\
  Qsum (values
          (select r (map role evs)
             (zscore_column x (role_mean_of (map role evs) x)
                            (role_std_of (map role evs) x)))) == 0.
Proof.
  intros Hx. split.
  - apply Forall_select. now apply zscore_column_finite.
  - rewrite zscore_column_rows, select_zip_with_keys.
    apply zscore_group_sum. now apply Forall_select.
Qed.


(** In [small_log "export"] the deviation of [export_ratio] over role "A"
    is not 0 (only "u" exports); the four z-scores of the role are 3/2 and
    three times -1/2. *)
Example small_log_centred :
  f64_eqb (role_std (small_log "export")
             (pipeline_column (small_log "export") "export_ratio") "A")
          (Fin 0) = false /\
  map (f64_eqb (Fin (3 # 2)))
      (select "A" (map role (small_log "export"))
              (pipeline_column (small_log "export") "export_ratio_zscore"))
  = [true; false; false; false] /\
  map (f64_eqb (Fin (- (1 # 2))))
      (select "A" (map role (small_log "export"))
              (pipeline_column (small_log "export") "export_ratio_zscore"))
  = [false; true; true; true].
Proof.
  repeat (split; [vm_compute; reflexivity |]). vm_compute. reflexivity.
Qed.

(** ** The governance score as a position between the extremes *)

Lemma Forall2_nth_error {A B} (P : A -> B -> Prop) l l' i a b :
  Forall2 P l l' -> nth_error l i = Some a -> nth_error l' i = Some b ->
  P a b.
Proof.
  intros H. revert i. induction H as [| x y l l' Hxy _ IH]; intros [| i];
    simpl; try discriminate.
  - intros Ha Hb. inversion Ha; inversion Hb; subst. exact Hxy.
  - apply IH.
Qed.

Lemma scaled_order (lo hi p q : Q) :
  lo < hi ->
  (p <= q <->
   (p + - lo) / (hi + - lo) * 100 <= (q + - lo) / (hi + - lo) * 100).
Proof.
  intros Hlt. unfold Qdiv.
  assert (Hk : 0 < / (hi + - lo)) by (apply Qinv_lt_0_compat; lra).
  generalize dependent (/ (hi + - lo)). intros k Hk. split; intros H; nra.
Qed.

(** The scores of a column that is not constant: the position of each raw
    score between the smallest and the largest, times 100; the clip
    changes nothing, and the order of the raw scores is kept. *)
Lemma min_max_scale_formula raw :
  Forall finite raw -> ~ all_identical raw ->
  exists lo hi,
    lo < hi /\ In (Fin lo) raw /\ In (Fin hi) raw /\
    Forall2 (fun r g =>
               exists q, r = Fin q /\ lo <= q <= hi /\
                         g = Fin ((q + - lo) / (hi + - lo) * 100))
            raw (clip (Fin 0) (Fin 100) (min_max_scale raw)).
Proof.
  intros Hfin Hnot.
  assert (Hne : raw <> []).
  { intros ->. apply Hnot. intros a b []. }
  destruct (series_min_max_spec raw Hfin Hne)
    as [lo [hi [Hmin [Hmax [Hinlo [Hinhi Hbounds]]]]]].
  assert (Hlt : lo < hi).
  { destruct (Qlt_le_dec lo hi) as [Hlt | Hge]; auto.
    exfalso. apply Hnot. intros a b Ha Hb.
    rewrite Forall_forall in Hfin.
    pose proof (Hfin a Ha) as Hfa. pose proof (Hfin b Hb) as Hfb.
    destruct a as [p | | |], b as [q | | |]; try contradiction.
    simpl. pose proof (Hbounds p Ha). pose proof (Hbounds q Hb). lra. }
  exists lo, hi. repeat (split; [assumption |]).
  unfold clip, min_max_scale. rewrite map_map.
  apply Forall2_map_self. intros x Hx.
  rewrite Forall_forall in Hfin. pose proof (Hfin x Hx) as Hfx.
  destruct x as [q | | |]; try contradiction.
  exists q. split; [reflexivity |]. split; [now apply Hbounds |].
  rewrite Hmin, Hmax. apply scaled_value; auto.
Qed.

(** ** Risk categories *)

Lemma categorize_risk_spec g : category_of g (categorize_risk g).
Proof.
  unfold categorize_risk, category_of.
  destruct g as [q | | |]; try reflexivity. cbn [f64_leb].
  destruct (Qle_bool q 30) eqn:E30.
  - apply Qle_bool_iff in E30. auto.
  - apply Qle_bool_false in E30.
    destruct (Qle_bool q 60) eqn:E60.
    + apply Qle_bool_iff in E60. auto.
    + apply Qle_bool_false in E60. auto.
Qed.

Lemma categorize_risk_mono a b :
  f64_le a b ->
  (severity (categorize_risk a) <= severity (categorize_risk b))%nat.
Proof.
  destruct a as [p | | |], b as [q | | |]; simpl; try contradiction.
  intros Hle. unfold categorize_risk. cbn [f64_leb].
  destruct (Qle_bool p 30) eqn:P30; [cbn; lia |].
  apply Qle_bool_false in P30.
  assert (Q30 : Qle_bool q 30 = false) by (apply Qle_bool_false; lra).
  rewrite Q30.
  destruct (Qle_bool p 60) eqn:P60.
  - destruct (Qle_bool q 60); cbn; lia.
  - apply Qle_bool_false in P60.
    assert (Q60 : Qle_bool q 60 = false) by (apply Qle_bool_false; lra).
    rewrite Q60. cbn. lia.
Qed.

(** X17.  The category of every row of a run follows the thresholds of its
    governance score: "Low" up to 30 included, "Medium" above 30 and up to
    60 included, "High" above 60, and "High" for a missing score; a row
    with a higher score never has a less severe category. *)
Theorem risk_category_thresholds evs :
  exists out gov cat,
    run_feature_engineering evs = Ok out /\
    num_col out "governance_risk_score" = Ok gov /\
    str_col out "risk_category" = Ok cat /\
    Forall2 category_of gov cat /\
    forall i j gi gj ci cj,
      nth_error gov i = Some gi -> nth_error gov j = Some gj ->
      nth_error cat i = Some ci -> nth_error cat j = Some cj ->
      f64_le gi gj -> (severity ci <= severity cj)%nat.
Proof.
  destruct (scoring_columns evs)
    as [out [Hrun [raw [Hraw [Hfin [Hlen [Hgov Hcat]]]]]]].
  exists out. do 2 eexists.
  split; [exact Hrun |]. split; [exact Hgov |]. split; [exact Hcat |].
  split.
  - apply Forall2_map_self. intros g _. apply categorize_risk_spec.
  - intros i j gi gj ci cj Hgi Hgj Hci Hcj Hle.
    rewrite (map_nth_error categorize_risk _ _ Hgi) in Hci.
    rewrite (map_nth_error categorize_risk _ _ Hgj) in Hcj.
    inversion Hci; inversion Hcj; subst.
    now apply categorize_risk_mono.
Qed.

(** ** The validation of a run *)

(** The frame of a run: its rows and the names of its columns. *)
Lemma run_frame evs :
  exists out,
    run_feature_engineering evs = Ok out /\
    rows out = evs /\
    columns out =
      [ "hour"; "day_of_week"; "week"; "month"; "date";
        "avg_daily_access"; "export_ratio"; "unique_resources";
        "avg_session_duration";
        "is_night"; "night_access_pct";
        "is_weekend"; "weekend_activity_ratio";
        "access_time_variance"; "weekly_access_change"; "access_spike_score";
        "privilege_usage_gap"; "privilege_usage_ratio";
        "resource_access_concentration";
        "avg_daily_access_zscore"; "export_ratio_zscore";
        "unique_resources_zscore"; "avg_session_duration_zscore";
        "night_access_pct_zscore"; "weekend_activity_ratio_zscore";
        "access_time_variance_zscore"; "weekly_access_change_zscore";
        "access_spike_score_zscore"; "privilege_usage_gap_zscore";
        "privilege_usage_ratio_zscore";
        "resource_access_concentration_zscore";
        "raw_risk_score"; "governance_risk_score"; "risk_category" ].
Proof.
  run_pipeline. split; reflexivity.
Qed.

Lemma check_features_complete df features issues :
  (forall f, In f features ->
     has_column df f = true /\ has_column df (f ++ "_zscore") = true) ->
  check_features df features issues = issues.
Proof.
  revert issues. induction features as [| f fs IH]; intros issues Hall;
    [reflexivity |].
  cbn [check_features].
  destruct (Hall f (or_introl eq_refl)) as [-> ->].
  apply IH. intros g Hg. apply Hall. now right.
Qed.

(** A run passes the checks on the presence of its columns. *)
Lemma run_has_columns evs out :
  run_feature_engineering evs = Ok out ->
  check_features out required_features [] = [] /\
  has_column out "governance_risk_score" = true /\
  has_column out "risk_category" = true.
Proof.
  intros Hrun. destruct (run_frame evs) as [out' [Hrun' [_ Hcols]]].
  rewrite Hrun in Hrun'. inversion Hrun'; subst out'.
  assert (Hhas : forall c,
             existsb (String.eqb c)
               (raw_columns ++
                [ "hour"; "day_of_week"; "week"; "month"; "date";
                  "avg_daily_access"; "export_ratio"; "unique_resources";
                  "avg_session_duration";
                  "is_night"; "night_access_pct";
                  "is_weekend"; "weekend_activity_ratio";
                  "access_time_variance"; "weekly_access_change";
                  "access_spike_score";
                  "privilege_usage_gap"; "privilege_usage_ratio";
                  "resource_access_concentration";
                  "avg_daily_access_zscore"; "export_ratio_zscore";
                  "unique_resources_zscore"; "avg_session_duration_zscore";
                  "night_access_pct_zscore"; "weekend_activity_ratio_zscore";
                  "access_time_variance_zscore"; "weekly_access_change_zscore";
                  "access_spike_score_zscore"; "privilege_usage_gap_zscore";
                  "privilege_usage_ratio_zscore";
                  "resource_access_concentration_zscore";
                  "raw_risk_score"; "governance_risk_score";
                  "risk_category" ])%list = true ->
             has_column out c = true).
  { intros c Hc. unfold has_column. now rewrite Hcols. }
  split; [| split]; try (apply Hhas; reflexivity).
  apply check_features_complete. intros f Hf.
  unfold required_features in Hf. simpl in Hf.
  repeat (destruct Hf as [<- | Hf]); try contradiction;
    split; apply Hhas; reflexivity.
Qed.

Lemma select_nonempty {K} `{Key K} {V} (k : K) keys (vals : list V) :
  In k keys -> length vals = length keys -> select k keys vals <> [].
Proof.
  intros Hk Hlen E.
  destruct (In_nth_error _ _ Hk) as [i Hi].
  assert (Hv : exists v, nth_error vals i = Some v).
  { destruct (nth_error vals i) as [v |] eqn:Ev; [eauto |].
    apply nth_error_None in Ev.
    assert (i < length keys)%nat by (apply nth_error_Some; congruence).
    lia. }
  destruct Hv as [v Hv].
  pose proof (In_select k keys vals i v Hi Hv) as Hin.
  rewrite E in Hin. exact Hin.
Qed.

(** The smallest of a non-empty list of counts. *)
Lemma series_min_counts (counts : list nat) :
  counts <> [] ->
  exists n, series_min (map of_nat counts) = of_nat n /\ In n counts.
Proof.
  intros Hne.
  assert (Hf : Forall finite (map of_nat counts)).
  { apply Forall_map, Forall_forall. intros; exact I. }
  assert (Hne' : map of_nat counts <> []).
  { intros E. apply map_eq_nil in E. auto. }
  destruct (series_min_max_spec _ Hf Hne') as [lo [hi [Hmin [_ [Hin _]]]]].
  apply in_map_iff in Hin. destruct Hin as [n [En Hn]].
  exists n. split; auto. now rewrite Hmin, En.
Qed.

Lemma f64_eqb_of_nat_zero n : f64_eqb (of_nat n) (Fin 0) = (n =? 0)%nat.
Proof.
  unfold of_nat. cbn [f64_eqb]. destruct n as [| n]; [reflexivity |].
  cbn [Nat.eqb]. apply not_true_iff_false. rewrite Qeq_bool_iff.
  pose proof (of_nat_pos (S n)). assert (0 < S n)%nat by lia.
  intros E. rewrite E in H. specialize (H H0). lra.
Qed.

(** The number of valid scores of every user of a frame. *)
Lemma user_risk_counts (users : list string) (g : Series) :
  map snd (groupby_agg users g count_valid)
  = map of_nat
      (map (fun u => length (dropna (select u users g))) (group_index users)).
Proof.
  unfold groupby_agg, count_valid. now rewrite !map_map.
Qed.

Lemma all_nan_dropna s : Forall (fun v => v = NaN) s -> dropna s = [].
Proof.
  induction 1 as [| x t Hx _ IH]; simpl; auto. subst x. exact IH.
Qed.

Lemma in_0_100_finite v : in_0_100 v -> finite v.
Proof. destruct v; simpl; tauto. Qed.

(** The last check of the validation on a frame whose scores are all
    numbers: no user lacks a score. *)
Lemma min_count_positive (users : list string) g :
  Forall finite g -> length g = length users ->
  f64_eqb (series_min (map snd (groupby_agg users g count_valid))) (Fin 0)
  = false.
Proof.
  intros Hf Hlen. rewrite user_risk_counts.
  destruct (group_index users) as [| u us] eqn:Eu.
  - reflexivity.
  - rewrite <- Eu.
    destruct (series_min_counts
                (map (fun u => length (dropna (select u users g)))
                     (group_index users)))
      as [n [-> Hn]].
    { rewrite Eu. discriminate. }
    rewrite f64_eqb_of_nat_zero. apply Nat.eqb_neq. intros ->.
    apply in_map_iff in Hn. destruct Hn as [k [Ek Hk]].
    apply (proj1 (In_group_index _ _)) in Hk.
    rewrite dropna_finite in Ek by (now apply Forall_select).
    apply (select_nonempty k users g Hk Hlen).
    now apply length_zero_iff_nil.
Qed.

(** The last check on a non-empty frame whose scores are all missing. *)
Lemma min_count_zero (users : list string) g :
  users <> [] -> Forall (fun v => v = NaN) g ->
  f64_eqb (series_min (map snd (groupby_agg users g count_valid))) (Fin 0)
  = true.
Proof.
  intros Hne Hnan. rewrite user_risk_counts.
  destruct (series_min_counts
              (map (fun u => length (dropna (select u users g)))
                   (group_index users)))
    as [n [-> Hn]].
  { intros E. apply map_eq_nil in E. destruct users as [| u us]; [congruence |].
    assert (Hu : In u (group_index (u :: us)))
      by (apply In_group_index; now left).
    rewrite E in Hu. exact Hu. }
  rewrite f64_eqb_of_nat_zero. apply Nat.eqb_eq.
  apply in_map_iff in Hn. destruct Hn as [k [Ek _]].
  rewrite all_nan_dropna in Ek by (now apply Forall_select).
  now subst n.
Qed.

Lemma series_min_max_bounds g :
  Forall in_0_100 g ->
  f64_ltb (series_min g) (Fin 0) || f64_gtb (series_max g) (Fin 100) = false.
Proof.
  intros Hg.
  assert (Hf : Forall finite g).
  { eapply Forall_impl; [| exact Hg]. apply in_0_100_finite. }
  destruct g as [| x xs] eqn:Eg; [reflexivity |]. rewrite <- Eg in *.
  assert (Hne : g <> []) by (rewrite Eg; discriminate).
  destruct (series_min_max_spec g Hf Hne)
    as [lo [hi [-> [-> [Hlo [Hhi _]]]]]].
  rewrite Forall_forall in Hg.
  pose proof (Hg _ Hlo) as Hl. pose proof (Hg _ Hhi) as Hh.
  simpl in Hl, Hh. apply orb_false_iff. split.
  - apply f64_ltb_fin_false. lra.
  - unfold f64_gtb. apply f64_ltb_fin_false. lra.
Qed.

Lemma series_min_max_all_nan g :
  Forall (fun v => v = NaN) g ->
  f64_ltb (series_min g) (Fin 0) || f64_gtb (series_max g) (Fin 100) = false.
Proof.
  intros Hg. unfold series_min, series_max.
  now rewrite (all_nan_dropna g Hg).
Qed.

(** The validation of a frame that has all the columns, from the three
    checks that read the scores. *)
Lemma validation_issues_of_frame df g :
  check_features df required_features [] = [] ->
  has_column df "governance_risk_score" = true ->
  has_column df "risk_category" = true ->
  num_col df "governance_risk_score" = Ok g ->
  f64_ltb (series_min g) (Fin 0) || f64_gtb (series_max g) (Fin 100) = false ->
  validation_issues df
  = Ok (if f64_eqb (series_min
                      (map snd (groupby_agg (col_user_id df) g count_valid)))
                   (Fin 0)
        then [UsersMissingRiskScores] else []).
Proof.
  intros Hc Hg Hr Hnum Hrange. unfold validation_issues.
  rewrite Hc, Hg, Hr, Hnum. cbn [negb bind]. rewrite Hrange.
  reflexivity.
Qed.

(** X19.  On a run of a non-empty log whose raw scores are all the same, every
    governance score is missing; the range check does not see it (the
    comparisons with a missing minimum and maximum are false), the count
    of valid scores per user does, and the validation fails with the single
    issue that some users miss their risk score. *)
Theorem validate_features_constant_scores evs :
  evs <> [] ->
  all_identical (pipeline_column evs "raw_risk_score") ->
  exists out,
    run_feature_engineering evs = Ok out /\
    validation_issues out = Ok [UsersMissingRiskScores] /\
    validate_features out = Ok false.
Proof.
  intros Hne Hall.
  destruct (scoring_columns evs)
    as [out [Hrun [raw [Hraw [Hfin [Hlen [Hgov _]]]]]]].
  rewrite (pipeline_column_eq evs out _ raw Hrun Hraw) in Hall.
  destruct (run_has_columns evs out Hrun) as [Hc [Hg Hr]].
  destruct (run_feature_engineering_total evs) as [out' [Hrun' Hrows]].
  rewrite Hrun in Hrun'. inversion Hrun'; subst out'.
  pose proof (min_max_scale_constant raw Hfin Hall) as Hnan.
  assert (Hissues : validation_issues out = Ok [UsersMissingRiskScores]).
  { rewrite (validation_issues_of_frame out _ Hc Hg Hr Hgov)
      by (now apply series_min_max_all_nan).
    rewrite min_count_zero; [reflexivity | | exact Hnan].
    unfold col_user_id. rewrite Hrows. intros E. apply map_eq_nil in E.
    auto. }
  exists out. split; [exact Hrun |]. split; [exact Hissues |].
  unfold validate_features. now rewrite Hissues.
Qed.

Lemma validate_features_constant_scores_witness :
  one_event_log <> [] /\
  all_identical (pipeline_column one_event_log "raw_risk_score") /\
  exists out,
    run_feature_engineering one_event_log = Ok out /\
    validation_issues out = Ok [UsersMissingRiskScores] /\
    validate_features out = Ok false.
Proof.
  assert (Hne : one_event_log <> []) by discriminate.
  assert (Hall : all_identical
                   (pipeline_column one_event_log "raw_risk_score")).
  { apply (all_identical_cells _ 0). vm_compute. reflexivity. }
  split; [exact Hne |]. split; [exact Hall |].
  exact (validate_features_constant_scores one_event_log Hne Hall).
Defined.

(** *** A frame without scores *)

Lemma get_assoc_none c l :
  existsb (String.eqb c) (map fst l) = false -> get_assoc c l = None.
Proof.
  induction l as [| [c' v] t IH]; simpl; auto.
  intros E. apply orb_false_iff in E. destruct E as [E1 E2].
  rewrite String.eqb_sym, E1. auto.
Qed.

Lemma has_column_false df c :
  has_column df c = false -> get_assoc c (derived df) = None.
Proof.
  unfold has_column, columns. rewrite existsb_app. intros E.
  apply orb_false_iff in E. now apply get_assoc_none.
Qed.

(** X20.  On a frame without the column [governance_risk_score] the validation
    does not return: the issue is recorded, but the last check reads the
    column all the same and the lookup raises a [KeyError]. *)
Theorem validate_features_without_scores df :
  has_column df "governance_risk_score" = false ->
  validate_features df = Err (KeyError "governance_risk_score").
Proof.
  intros Hno. unfold validate_features, validation_issues.
  rewrite Hno. cbn [negb bind]. unfold num_col.
  now rewrite (has_column_false df _ Hno).
Qed.

Lemma validate_features_without_scores_witness :
  has_column (load_and_prepare_data one_event_log) "governance_risk_score"
  = false /\
  validate_features (load_and_prepare_data one_event_log)
  = Err (KeyError "governance_risk_score").
Proof.
  split; [vm_compute; reflexivity |].
  apply (validate_features_without_scores
           (load_and_prepare_data one_event_log)).
  vm_compute. reflexivity.
Defined.

(** ** The scoring step on any frame *)

Lemma get_set_assoc_other c c' v l :
  c <> c' -> get_assoc c (set_assoc c' v l) = get_assoc c l.
Proof.
  intros Hne. induction l as [| [k w] t IH]; simpl.
  - destruct (String.eqb c' c) eqn:E; auto.
    apply String.eqb_eq in E. congruence.
  - destruct (String.eqb k c') eqn:E1; simpl.
    + apply String.eqb_eq in E1. subst k.
      destruct (String.eqb c' c) eqn:E2; auto.
      apply String.eqb_eq in E2. congruence.
    + destruct (String.eqb k c); auto.
Qed.

(** The weighted sum reads the columns of the table in order and stops at
    the first one that is not a numeric column. *)
Lemma weighted_sum_outcome df ws acc :
  match weighted_sum df ws acc with
  | Ok _ => forall c, In c (map fst ws) -> exists z, num_col df c = Ok z
  | Err e =>
      exists pre c post,
        map fst ws = (pre ++ c :: post)%list /\
        (forall c', In c' pre -> exists z, num_col df c' = Ok z) /\
        num_col df c = Err e
  end.
Proof.
  revert acc. induction ws as [| [feature w] ws IH]; intros acc.
  - simpl. intros c [].
  - cbn [weighted_sum map fst].
    destruct (num_col df feature) as [z | e] eqn:Ez; cbn [bind].
    + specialize (IH (zip_with f64_add acc (weighted w z))).
      destruct (weighted_sum df ws _) as [s | e].
      * intros c [<- | Hc]; eauto.
      * destruct IH as [pre [c [post [Ews [Hpre Hc]]]]].
        exists (feature :: pre), c, post. split; [| split]; auto.
        -- simpl. now rewrite Ews.
        -- intros c' [<- | Hc']; eauto.
    + exists [], feature, (map fst ws). split; [| split]; auto.
      intros c' [].
Qed.

(** X21.  The scoring step on any frame.  It succeeds exactly when the twelve
    z-score columns of the weight table are numeric columns of the frame;
    it then keeps the rows and every other column, and the two columns it
    writes are the weighted sum and its clipped min-max rescaling.
    Otherwise it fails with the error of the first column of the table, in
    the order of the table, that cannot be read. *)
Theorem scoring_outcome df :
  match calculate_governance_risk_score df with
  | Ok out =>
      (forall c, In c (map fst risk_weights) ->
                 exists z, num_col df c = Ok z) /\
      rows out = rows df /\
      (forall c, c <> "raw_risk_score" -> c <> "governance_risk_score" ->
                 get_assoc c (derived out) = get_assoc c (derived df)) /\
      exists raw,
        weighted_sum df risk_weights (zeros (length (rows df))) = Ok raw /\
        num_col out "raw_risk_score" = Ok raw /\
        num_col out "governance_risk_score"
          = Ok (clip (Fin 0) (Fin 100) (min_max_scale raw))
  | Err e =>
      exists pre c post,
        map fst risk_weights = (pre ++ c :: post)%list /\
        (forall c', In c' pre -> exists z, num_col df c' = Ok z) /\
        num_col df c = Err e
  end.
Proof.
  unfold calculate_governance_risk_score, score_with_weights.
  rewrite weights_ok_risk_weights. cbn [negb].
  pose proof (weighted_sum_outcome df risk_weights
                (zeros (length (rows df)))) as Hw.
  destruct (weighted_sum df risk_weights _) as [raw | e]; cbn [bind];
    [| exact Hw].
  rewrite num_col_set_col. cbn [bind]. rewrite num_col_set_col. cbn [bind].
  split; [exact Hw |]. split; [reflexivity |]. split.
  - intros c H1 H2. unfold set_col. cbn [derived].
    now rewrite !get_set_assoc_other by congruence.
  - exists raw. split; [reflexivity |]. split.
    + unfold num_col, set_col. cbn [derived].
      rewrite !get_set_assoc_other by discriminate.
      now rewrite get_set_assoc_same.
    + apply num_col_set_col.
Qed.

(** ** Running a step again *)

Ltac rerun_step :=
  unfold calculate_governance_risk_score, score_with_weights;
  rewrite ?weights_ok_risk_weights; cbv beta iota delta [negb];
  run_plumbing; reflexivity.

(** X22.  Every step of the pipeline leaves the frame of a finished run as it
    is: the columns it writes are replaced in place by the same values and
    its working columns are dropped again. *)
Theorem steps_idempotent evs :
  exists out,
    run_feature_engineering evs = Ok out /\
    build_all_behavioral_features out = Ok out /\
    build_all_temporal_features out = Ok out /\
    build_all_stability_features out = Ok out /\
    build_all_privilege_intelligence_features out = Ok out /\
    calculate_role_based_zscores out = Ok out /\
    calculate_governance_risk_score out = Ok out /\
    add_risk_categories out = Ok out.
Proof.
  run_pipeline.
  split; [rerun_step |]. split; [rerun_step |]. split; [rerun_step |].
  split; [rerun_step |]. split; [rerun_step |]. split; rerun_step.
Qed.
(** ** Roles with a single event *)

Lemma length_select_role evs (x : Series) r :
  length x = length evs ->
  length (select r (map role evs) x) = length (role_events r evs).
Proof.
  revert x. induction evs as [| e t IH]; intros [| v vs] Hlen;
    try discriminate; [reflexivity |].
  simpl in Hlen. injection Hlen as Hlen.
  cbn [map select role_events filter]. fold (role_events r t).
  change (keqb (role e) r) with (String.eqb (role e) r).
  destruct (String.eqb (role e) r); cbn [length]; now rewrite IH.
Qed.

Lemma Forall2_zip_with_map {E A C} (P : E -> C -> Prop) (f : A -> string -> C)
    (rf : E -> string) evs xs :
  length xs = length evs ->
  (forall i a e, nth_error xs i = Some a -> nth_error evs i = Some e ->
                 P e (f a (rf e))) ->
  Forall2 P evs (zip_with f xs (map rf evs)).
Proof.
  revert xs. induction evs as [| e evs IH]; intros [| a xs] Hlen Hall;
    simpl in *; try discriminate; constructor.
  - apply (Hall 0%nat); reflexivity.
  - apply IH; [lia |]. intros i a' e' Ha He. apply (Hall (S i)); auto.
Qed.

(** The only row of a role is divided by a missing deviation. *)
Lemma zero_on_single_zscore evs x :
  length x = length evs ->
  zero_on (single_event_role evs) evs
    (zscore_column x (role_mean_of (map role evs) x)
                   (role_std_of (map role evs) x)).
Proof.
  intros Hlen. unfold zero_on. rewrite zscore_column_rows.
  apply Forall2_zip_with_map; [exact Hlen |].
  intros i a e _ _ Hone.
  rewrite series_std_short.
  - rewrite zscore_value_nan_std. reflexivity.
  - rewrite (length_select_role evs x (role e) Hlen).
    unfold single_event_role in Hone. lia.
Qed.

Lemma zero_on_zeros P evs : zero_on P evs (zeros (length evs)).
Proof.
  unfold zero_on, zeros.
  induction evs as [| e t IH]; simpl; constructor; auto.
  intros _. simpl. reflexivity.
Qed.

Lemma zero_on_add_weighted P evs acc w z :
  zero_on P evs acc -> zero_on P evs z ->
  zero_on P evs (zip_with f64_add acc (weighted w z)).
Proof.
  unfold zero_on. intros Ha.
  revert z. induction Ha as [| e a evs' acc Hea _ IH]; intros z Hz;
    inversion Hz as [| ? b ? z' Heb Hz']; subst; simpl; constructor.
  - intros HP. specialize (Hea HP). specialize (Heb HP).
    destruct a as [p | | |], b as [q | | |]; simpl in *; try contradiction.
    rewrite Hea, Heb. ring.
  - apply IH. exact Hz'.
Qed.

(** X23.  An event that is the only row of its role scores 0: the deviation
    of a single value is missing, so each of the twelve z-scores of the row
    is a missing quotient filled with 0, and the raw risk score of the row
    is 0, whatever the user does. *)
Theorem single_event_role_scores_zero evs :
  exists out,
    run_feature_engineering evs = Ok out /\
    forall c, In c (zscore_columns ++ ["raw_risk_score"])%list ->
      exists x, num_col out c = Ok x /\
                Forall2 (fun e v => single_event_role evs e -> v =f= Fin 0)
                        evs x.
Proof.
  run_pipeline. intros c Hin.
  unfold zscore_columns, features_to_normalize in Hin. simpl in Hin.
  repeat (destruct Hin as [<- | Hin]); try contradiction;
    read_columns; eexists; (split; [reflexivity |]);
    change (Forall2 (fun e v => single_event_role evs e -> v =f= Fin 0)
                    evs ?x)
      with (zero_on (single_event_role evs) evs x);
    repeat (apply zero_on_add_weighted; [| shelve]);
    try apply zero_on_zeros;
    try (apply zero_on_single_zscore; column_length).
  Unshelve.
  all: apply zero_on_single_zscore; column_length.
Qed.

(** ** What a passed validation guarantees *)

Lemma check_features_grows df features issues :
  exists more,
    check_features df features issues = (issues ++ more)%list /\
    (more = [] ->
     forall f, In f features ->
       has_column df f = true /\ has_column df (f ++ "_zscore") = true).
Proof.
  revert issues. induction features as [| f fs IH]; intros issues.
  - exists []. split; [now rewrite app_nil_r | intros _ g []].
  - cbn [check_features].
    destruct (has_column df f) eqn:E1;
      destruct (has_column df (f ++ "_zscore")) eqn:E2.
    + destruct (IH issues) as [more [-> Hm]]. exists more. split; auto.
      intros Hnil g [<- | Hg]; auto.
    + destruct (IH (issues ++ [MissingZscore (f ++ "_zscore")])%list)
        as [more [-> Hm]].
      exists (MissingZscore (f ++ "_zscore") :: more).
      split; [now rewrite <- app_assoc | discriminate].
    + destruct (IH (issues ++ [MissingFeature f])%list) as [more [-> Hm]].
      exists (MissingFeature f :: more).
      split; [now rewrite <- app_assoc | discriminate].
    + destruct (IH ((issues ++ [MissingFeature f])
                      ++ [MissingZscore (f ++ "_zscore")])%list)
        as [more [-> Hm]].
      exists (MissingFeature f :: MissingZscore (f ++ "_zscore") :: more).
      split; [now rewrite <- !app_assoc | discriminate].
Qed.

Lemma app_singleton_not_nil {A} (l : list A) x : (l ++ [x])%list <> [].
Proof. destruct l; discriminate. Qed.

(** The smallest of a list of values without NaN is one of them and none
    is below it. *)
Lemma fold_min_lower x xs :
  Forall (fun v => is_nan v = false) (x :: xs) ->
  is_nan (fold_left f64_min xs x) = false /\
  forall y, In y (x :: xs) -> f64_ltb y (fold_left f64_min xs x) = false.
Proof.
  revert x. induction xs as [| z zs IH]; intros x Hall.
  - inversion Hall; subst. split; auto. intros y [<- | []].
    destruct x as [q | | |]; try discriminate; try reflexivity.
    apply f64_ltb_fin_false. lra.
  - inversion Hall as [| ? ? Hx Hrest]; subst.
    inversion Hrest as [| ? ? Hz Hzs]; subst.
    cbn [fold_left].
    assert (Hm : is_nan (f64_min x z) = false).
    { unfold f64_min. destruct (f64_ltb z x); auto. }
    destruct (IH (f64_min x z) (Forall_cons _ Hm Hzs)) as [Hn Hlow].
    split; [exact Hn |].
    assert (Htrans : forall a b m,
               is_nan a = false -> is_nan b = false -> is_nan m = false ->
               f64_ltb b m = false -> f64_ltb a b = false ->
               f64_ltb a m = false).
    { clear. intros a b m Ha Hb Hm H1 H2.
      destruct a as [p | | |], b as [q | | |], m as [r | | |];
        try discriminate; try reflexivity;
        rewrite ?f64_ltb_fin_false in *; try lra. }
    intros y [<- | [<- | Hy]].
    + pose proof (Hlow (f64_min x z) (or_introl eq_refl)) as H1.
      apply (Htrans x (f64_min x z)); auto.
      unfold f64_min. destruct (f64_ltb z x) eqn:E.
      * destruct x as [p | | |], z as [q | | |]; try discriminate;
          try reflexivity.
        apply f64_ltb_fin in E. apply f64_ltb_fin_false. lra.
      * destruct x as [p | | |]; try discriminate; try reflexivity.
        apply f64_ltb_fin_false. lra.
    + pose proof (Hlow (f64_min x z) (or_introl eq_refl)) as H1.
      apply (Htrans z (f64_min x z)); auto.
      unfold f64_min. destruct (f64_ltb z x) eqn:E; auto.
      destruct z as [q | | |]; try discriminate; try reflexivity.
      apply f64_ltb_fin_false. lra.
    + apply Hlow. now right.
Qed.

Lemma fold_max_upper x xs :
  Forall (fun v => is_nan v = false) (x :: xs) ->
  is_nan (fold_left f64_max xs x) = false /\
  forall y, In y (x :: xs) -> f64_ltb (fold_left f64_max xs x) y = false.
Proof.
  revert x. induction xs as [| z zs IH]; intros x Hall.
  - inversion Hall; subst. split; auto. intros y [<- | []].
    destruct x as [q | | |]; try discriminate; try reflexivity.
    apply f64_ltb_fin_false. lra.
  - inversion Hall as [| ? ? Hx Hrest]; subst.
    inversion Hrest as [| ? ? Hz Hzs]; subst.
    cbn [fold_left].
    assert (Hm : is_nan (f64_max x z) = false).
    { unfold f64_max. destruct (f64_ltb x z); auto. }
    destruct (IH (f64_max x z) (Forall_cons _ Hm Hzs)) as [Hn Hup].
    split; [exact Hn |].
    assert (Htrans : forall a b m,
               is_nan a = false -> is_nan b = false -> is_nan m = false ->
               f64_ltb m b = false -> f64_ltb b a = false ->
               f64_ltb m a = false).
    { clear. intros a b m Ha Hb Hm H1 H2.
      destruct a as [p | | |], b as [q | | |], m as [r | | |];
        try discriminate; try reflexivity;
        rewrite ?f64_ltb_fin_false in *; try lra. }
    intros y [<- | [<- | Hy]].
    + pose proof (Hup (f64_max x z) (or_introl eq_refl)) as H1.
      apply (Htrans x (f64_max x z)); auto.
      unfold f64_max. destruct (f64_ltb x z) eqn:E.
      * destruct x as [p | | |], z as [q | | |]; try discriminate;
          try reflexivity.
        apply f64_ltb_fin in E. apply f64_ltb_fin_false. lra.
      * destruct x as [p | | |]; try discriminate; try reflexivity.
        apply f64_ltb_fin_false. lra.
    + pose proof (Hup (f64_max x z) (or_introl eq_refl)) as H1.
      apply (Htrans z (f64_max x z)); auto.
      unfold f64_max. destruct (f64_ltb x z) eqn:E; auto.
      destruct z as [q | | |]; try discriminate; try reflexivity.
      apply f64_ltb_fin_false. lra.
    + apply Hup. now right.
Qed.

Lemma dropna_not_nan s : Forall (fun v => is_nan v = false) (dropna s).
Proof.
  apply Forall_forall. intros v Hv. now apply In_dropna in Hv.
Qed.

(** The range check of the validation, cell by cell. *)
Lemma range_check_cells g :
  f64_ltb (series_min g) (Fin 0) || f64_gtb (series_max g) (Fin 100) = false ->
  Forall missing_or_in_0_100 g.
Proof.
  intros Hr. apply orb_false_iff in Hr. destruct Hr as [Hlo Hhi].
  apply Forall_forall. intros v Hv.
  destruct (is_nan v) eqn:Ev.
  { left. destruct v; try discriminate. reflexivity. }
  right.
  assert (Hin : In v (dropna g)) by (apply In_dropna; auto).
  pose proof (dropna_not_nan g) as Hnn.
  unfold series_min, series_max, f64_gtb in *.
  destruct (dropna g) as [| x xs]; [destruct Hin |].
  destruct (fold_min_lower x xs Hnn) as [Hmn Hlow].
  destruct (fold_max_upper x xs Hnn) as [Hmx Hup].
  specialize (Hlow v Hin). specialize (Hup v Hin).
  destruct (fold_left f64_min xs x) as [lo | | |],
           (fold_left f64_max xs x) as [hi | | |],
           v as [q | | |]; try discriminate.
  rewrite f64_ltb_fin_false in *. simpl. lra.
Qed.

(** The last check of the validation, user by user. *)
Lemma count_check_users (users : list string) g :
  f64_eqb (series_min (map snd (groupby_agg users g count_valid))) (Fin 0)
  = false ->
  forall u, In u users -> dropna (select u users g) <> [].
Proof.
  intros Hc u Hu E. rewrite user_risk_counts in Hc.
  set (counts := map (fun u => length (dropna (select u users g)))
                     (group_index users)) in *.
  assert (Hin : In 0%nat counts).
  { apply in_map_iff. exists u. split; [now rewrite E |].
    now apply In_group_index. }
  assert (Hf : Forall finite (map of_nat counts)).
  { apply Forall_map, Forall_forall. intros; exact I. }
  assert (Hne : map of_nat counts <> []).
  { intros E'. apply map_eq_nil in E'. rewrite E' in Hin. exact Hin. }
  destruct (series_min_max_spec _ Hf Hne) as [lo [hi [Hmin [_ [Hlo [_ Hb]]]]]].
  rewrite Hmin in Hc. cbn [f64_eqb] in Hc.
  apply in_map_iff in Hlo. destruct Hlo as [n [En _]].
  assert (H0 : In (Fin 0) (map of_nat counts)).
  { apply in_map_iff. exists 0%nat. split; auto. }
  destruct (Hb 0 H0) as [Hle _].
  assert (Hge : 0 <= lo).
  { inversion En as [Elo]. change 0 with (inject_Z 0).
    rewrite <- Zle_Qle. lia. }
  apply not_true_iff_false in Hc. apply Hc, Qeq_bool_iff. lra.
Qed.

(** X24.  A validation that passes guarantees the columns it looks for, scores
    that are missing or within [0, 100] on every row, and at least one
    score that is not missing for every user.  It does not rule out a
    missing score on some rows. *)
Theorem validate_features_sound df :
  validate_features df = Ok true ->
  (forall c, In c validated_columns -> has_column df c = true) /\
  exists g,
    num_col df "governance_risk_score" = Ok g /\
    Forall missing_or_in_0_100 g /\
    forall u, In u (col_user_id df) ->
              dropna (select u (col_user_id df) g) <> [].
Proof.
  unfold validate_features, validation_issues.
  destruct (check_features_grows df required_features [])
    as [more [Hcheck Hmore]].
  rewrite Hcheck. cbn [app].
  destruct (has_column df "governance_risk_score") eqn:Hg; cbn [negb bind].
  2:{ unfold num_col. rewrite (has_column_false df _ Hg). discriminate. }
  destruct (num_col df "governance_risk_score") as [g | e] eqn:Hnum;
    cbn [bind]; [| discriminate].
  destruct (f64_ltb (series_min g) (Fin 0) || f64_gtb (series_max g) (Fin 100))
    eqn:Hrange.
  { destruct (has_column df "risk_category"),
             (f64_eqb _ (Fin 0)); cbn [negb];
      repeat match goal with
             | |- context [(?l ++ [?x])%list] =>
                 let H := fresh in
                 pose proof (app_singleton_not_nil l x) as H;
                 destruct (l ++ [x])%list; [congruence |]; clear H
             end; discriminate. }
  destruct (has_column df "risk_category") eqn:Hcat; cbn [negb].
  2:{ destruct (f64_eqb _ (Fin 0));
      repeat match goal with
             | |- context [(?l ++ [?x])%list] =>
                 let H := fresh in
                 pose proof (app_singleton_not_nil l x) as H;
                 destruct (l ++ [x])%list; [congruence |]; clear H
             end; discriminate. }
  destruct (f64_eqb _ (Fin 0)) eqn:Hcount.
  { pose proof (app_singleton_not_nil more UsersMissingRiskScores) as H.
    destruct (more ++ [UsersMissingRiskScores])%list; [congruence |].
    discriminate. }
  destruct more as [| i more']; [| discriminate]. intros _.
  split.
  - intros c Hc. unfold validated_columns in Hc.
    apply in_app_or in Hc. destruct Hc as [Hc | Hc].
    { now apply Hmore. }
    apply in_app_or in Hc. destruct Hc as [Hc | Hc].
    { apply in_map_iff in Hc. destruct Hc as [f [<- Hf]]. now apply Hmore. }
    destruct Hc as [<- | [<- | []]]; assumption.
  - exists g. split; [reflexivity |]. split.
    + now apply range_check_cells.
    + now apply count_check_users.
Qed.

Lemma validate_features_sound_witness :
  validate_features (output_frame (small_log "export")) = Ok true /\
  (forall c, In c validated_columns ->
             has_column (output_frame (small_log "export")) c = true) /\
  exists g,
    num_col (output_frame (small_log "export")) "governance_risk_score"
    = Ok g /\
    Forall missing_or_in_0_100 g /\
    forall u, In u (col_user_id (output_frame (small_log "export"))) ->
              dropna (select u (col_user_id
                                  (output_frame (small_log "export"))) g)
              <> [].
Proof.
  assert (Hv : validate_features (output_frame (small_log "export"))
               = Ok true).
  { vm_compute. reflexivity. }
  split; [exact Hv |].
  exact (validate_features_sound (output_frame (small_log "export")) Hv).
Defined.
(** ** The scoring step and the validation on a frame *)

Lemma finite_cells s : forallb is_number s = true -> Forall finite s.
Proof.
  intros H. apply Forall_forall. intros v Hv.
  rewrite forallb_forall in H. specialize (H v Hv).
  destruct v; try discriminate. exact I.
Qed.

Lemma in_0_100_cells s : forallb within_0_100 s = true -> Forall in_0_100 s.
Proof.
  intros H. apply Forall_forall. intros v Hv.
  rewrite forallb_forall in H. specialize (H v Hv).
  unfold within_0_100 in H. apply andb_true_iff in H. destruct H as [H0 H1].
  destruct v as [q | | |]; simpl in *; try discriminate.
  apply Qle_bool_iff in H0, H1. split; assumption.
Qed.



(** X18.  The validation passes on every frame that has the columns it looks
    for and a governance score within [0, 100] on every row. *)
Theorem validate_features_passes df g :
  forallb (has_column df) validated_columns = true ->
  num_col df "governance_risk_score" = Ok g ->
  length g = length (rows df) ->
  Forall in_0_100 g ->
  validate_features df = Ok true.
Proof.
  intros Hcols Hg Hlen Hrange.
  rewrite forallb_forall in Hcols.
  assert (Hc : check_features df required_features [] = []).
  { apply check_features_complete. intros f Hf. split; apply Hcols.
    - unfold validated_columns. apply in_or_app. now left.
    - unfold validated_columns. apply in_or_app. right.
      apply in_or_app. left.
      now apply (in_map (fun f => (f ++ "_zscore")%string)). }
  assert (Hgc : has_column df "governance_risk_score" = true).
  { apply Hcols. unfold validated_columns.
    apply in_or_app. right. apply in_or_app. right. now left. }
  assert (Hrc : has_column df "risk_category" = true).
  { apply Hcols. unfold validated_columns.
    apply in_or_app. right. apply in_or_app. right. right. now left. }
  unfold validate_features.
  rewrite (validation_issues_of_frame df g Hc Hgc Hrc Hg)
    by (now apply series_min_max_bounds).
  rewrite min_count_positive; [reflexivity | |].
  - eapply Forall_impl; [| exact Hrange]. apply in_0_100_finite.
  - unfold col_user_id. now rewrite length_map.
Qed.

Lemma validate_features_passes_witness :
  forallb (has_column (output_frame (small_log "export"))) validated_columns
  = true /\
  num_col (output_frame (small_log "export")) "governance_risk_score"
  = Ok (pipeline_column (small_log "export") "governance_risk_score") /\
  length (pipeline_column (small_log "export") "governance_risk_score")
  = length (rows (output_frame (small_log "export"))) /\
  Forall in_0_100
         (pipeline_column (small_log "export") "governance_risk_score") /\
  validate_features (output_frame (small_log "export")) = Ok true.
Proof.
  assert (Hc : forallb (has_column (output_frame (small_log "export")))
                       validated_columns = true).
  { vm_compute. reflexivity. }
  assert (Hg : num_col (output_frame (small_log "export"))
                       "governance_risk_score"
               = Ok (pipeline_column (small_log "export")
                                     "governance_risk_score")).
  { vm_compute. reflexivity. }
  assert (Hl : length (pipeline_column (small_log "export")
                                       "governance_risk_score")
               = length (rows (output_frame (small_log "export")))).
  { vm_compute. reflexivity. }
  assert (Hr : Forall in_0_100
                 (pipeline_column (small_log "export")
                                  "governance_risk_score")).
  { apply in_0_100_cells. vm_compute. reflexivity. }
  split; [exact Hc |]. split; [exact Hg |]. split; [exact Hl |].
  split; [exact Hr |].
  exact (validate_features_passes _ _ Hc Hg Hl Hr).
Defined.

(** ** The order of the peers of a role *)

(** Against the statistics of a group, a larger cell of the group has a
    z-score that is not smaller. *)
Lemma zscore_value_mono g a b :
  Forall regular g -> In (Fin a) g -> In (Fin b) g -> a <= b ->
  f64_le (zscore_value (Fin a) (series_mean g) (series_std g))
         (zscore_value (Fin b) (series_mean g) (series_std g)).
Proof.
  intros Hg Ha Hb Hab.
  pose proof (series_std_regular g Hg) as Hr.
  destruct (series_std g) as [d | | |] eqn:Ed; simpl in Hr;
    try contradiction.
  2:{ rewrite !zscore_value_nan_std. simpl. lra. }
  pose proof (series_std_nonneg g d Ed) as Hd.
  destruct (Qeq_dec d 0) as [Hd0 | Hd0].
  { rewrite (zscore_value_zero_std (Fin a) _ (Fin d) g Ha eq_refl
               (eq_sym Ed) Hd0).
    rewrite (zscore_value_zero_std (Fin b) _ (Fin d) g Hb eq_refl
               (eq_sym Ed) Hd0).
    simpl. lra. }
  assert (Hdpos : 0 < d) by lra.
  assert (Hvar : exists v, series_var g = Fin v).
  { unfold series_std in Ed. destruct (series_var g) as [v | | |];
      simpl in Ed; try discriminate. eauto. }
  destruct Hvar as [v Hv].
  destruct (series_var_fin_inv g v Hv) as [m [-> _]].
  rewrite !zscore_value_fin by assumption. simpl.
  unfold Qdiv. apply Qmult_le_compat_r; [lra |].
  apply Qlt_le_weak, Qinv_lt_0_compat, Hdpos.
Qed.

Lemma zscore_column_mono evs x :
  Forall regular x ->
  forall i j ei ej xi xj zi zj,
    nth_error evs i = Some ei -> nth_error evs j = Some ej ->
    role ei = role ej ->
    nth_error x i = Some xi -> nth_error x j = Some xj ->
    nth_error (zscore_column x (role_mean_of (map role evs) x)
                 (role_std_of (map role evs) x)) i = Some zi ->
    nth_error (zscore_column x (role_mean_of (map role evs) x)
                 (role_std_of (map role evs) x)) j = Some zj ->
    f64_le xi xj -> f64_le zi zj.
Proof.
  intros Hreg i j ei ej xi xj zi zj Hei Hej Hrole Hxi Hxj Hzi Hzj Hle.
  rewrite zscore_column_rows in Hzi, Hzj.
  pose proof (map_nth_error role _ _ Hei) as Hri.
  pose proof (map_nth_error role _ _ Hej) as Hrj.
  rewrite (nth_error_zip_with _ _ _ _ _ _ Hxi Hri) in Hzi.
  rewrite (nth_error_zip_with _ _ _ _ _ _ Hxj Hrj) in Hzj.
  inversion Hzi; inversion Hzj; subst zi zj. rewrite <- Hrole.
  pose proof (In_select _ _ _ _ _ Hri Hxi) as Hini.
  rewrite <- Hrole in Hrj.
  pose proof (In_select _ _ _ _ _ Hrj Hxj) as Hinj.
  destruct xi as [a | | |], xj as [b | | |]; simpl in Hle;
    try contradiction.
  apply zscore_value_mono; auto. now apply Forall_select.
Qed.

Lemma f64_le_not_below x y : f64_le x y -> not_below y x.
Proof.
  unfold not_below. destruct x as [a | | |], y as [b | | |]; simpl;
    try contradiction.
  intros Hle. now apply f64_ltb_fin_false.
Qed.

(** X25.  The normalization keeps the order of the peers: of two rows of the
    same role, the one with the larger value of a feature has a z-score of
    that feature that is not smaller. *)
Theorem zscore_keeps_order_within_role evs :
  exists out,
    run_feature_engineering evs = Ok out /\
    forall feature, In feature features_to_normalize ->
      exists x z,
        num_col out feature = Ok x /\
        num_col out (feature ++ "_zscore") = Ok z /\
        forall i j ei ej xi xj zi zj,
          nth_error evs i = Some ei -> nth_error evs j = Some ej ->
          role ei = role ej ->
          nth_error x i = Some xi -> nth_error x j = Some xj ->
          nth_error z i = Some zi -> nth_error z j = Some zj ->
          f64_le xi xj -> not_below zj zi.
Proof.
  run_pipeline. intros feature Hin.
  unfold features_to_normalize in Hin. simpl in Hin.
  repeat (destruct Hin as [<- | Hin]); try contradiction;
    read_columns; do 2 eexists;
    (split; [reflexivity |]); (split; [reflexivity |]);
    intros i j ei ej xi xj zi zj Hei Hej Hrole Hxi Hxj Hzi Hzj Hle;
    apply f64_le_not_below;
    refine (zscore_column_mono evs _ _ i j ei ej xi xj zi zj
              Hei Hej Hrole Hxi Hxj Hzi Hzj Hle);
    auto with regular.
Qed.

(* ================================================================== *)
(** ** Further sample runs *)
(* ================================================================== *)

(** The event of "root" is the only row of role "C": the raw score of
    the row is 0 and its governance score 25, between the extremes of the
    run. *)
Example lone_admin_run :
  single_event_role lone_admin_log (sample_event "root" "C" "read" 0 10 5) /\
  option_map (f64_eqb (Fin 0))
    (nth_error (pipeline_column lone_admin_log "raw_risk_score") 8)
  = Some true /\
  option_map (f64_eqb (Fin 25))
    (nth_error (pipeline_column lone_admin_log "governance_risk_score") 8)
  = Some true.
Proof.
  repeat (split; [vm_compute; reflexivity |]). vm_compute. reflexivity.
Qed.

(** User "u" touches two resource types and user "v" one: the counts of
    distinct types are 2 and 1, the concentration of "u" is a positive
    number and that of "v" is missing. *)
Example two_resource_run :
  length (resource_types "u" two_resource_log) = 2%nat /\
  length (resource_types "v" two_resource_log) = 1%nat /\
  (exists out,
     run_feature_engineering two_resource_log = Ok out /\
     int_col out "unique_resources" = Ok [2; 2; 2; 1]%Z) /\
  option_map (f64_ltb (Fin 0))
    (nth_error (pipeline_column two_resource_log
                  "resource_access_concentration") 0)
  = Some true /\
  nth_error (pipeline_column two_resource_log
               "resource_access_concentration") 3
  = Some NaN.
Proof.
  split; [vm_compute; reflexivity |].
  split; [vm_compute; reflexivity |].
  split; [eexists; split; vm_compute; reflexivity |].
  split; vm_compute; reflexivity.
Qed.

(** Every sample event has the same access volume, and the sample users
    are active in one week. *)
Example sample_user_activity :
  constant_volume_user (log_with_exports 1)
    (sample_event "u" "A" "export" 0 10 5) /\
  length (user_events "u" (log_with_exports 1)) = 5%nat /\
  length (active_weeks "u" (log_with_exports 1)) = 1%nat /\
  length (active_days "u" (log_with_exports 1)) = 5%nat /\
  total_volume (user_events "u" (log_with_exports 1)) = 50%Z.
Proof.
  split; [| repeat split; vm_compute; reflexivity].
  intros e' He'. vm_compute in He'.
  repeat (destruct He' as [<- | He']; [reflexivity |]). destruct He'.
Qed.
